(** * Sea of Ducks engine core: registry, spatial grid, bus, scheduler

    A shallow embedding of the engine core of the repository
    (engine/EntityManager.js, engine/SpatialGrid.js, engine/EventBus.js,
    engine/Core.js, engine/World.js, engine/Systems/PollutionSystem.js,
    engine/Systems/ReproductionSystem.js, game/Spawners.js,
    game/SpeciesRegistry.js, and the frame pipeline of main.js) and the
    properties proved about it.

    Conventions of the embedding.
    - JavaScript objects have identity: an entity is a location [loc] into a
      store [Heap]; pools, grid buckets and the removal queue hold locations,
      so [===], [indexOf] and [includes] compare locations, and a field write
      through one alias is seen through every other.
    - JavaScript numbers are modelled by exact rationals [Q] (coordinates,
      times, rates) or by [Z] (counts, caps, identifiers): rounding, NaN and
      infinities of IEEE doubles are outside the model, except in
      [findNearest], whose arithmetic is a parameter.
    - [Math.floor], [Math.ceil], [Math.min], [Math.max] are [Qfloor],
      [Qceiling], [Qmin], [Qmax]. *)

From Stdlib Require Import QArith Qround Qabs Qminmax Lqa ZArith Lia.
From stdpp Require Import gmap strings list.

(** ** Entities and the object store *)

Abbreviation loc := nat (only parsing).

(** A species descriptor of game/SpeciesRegistry.js (the fields the engine
    reads). *)
Record SpeciesDef := {
  def_id        : string;
  def_name      : string;
  MAX_COUNT     : Z;
  maxAge        : Q;
  pollutionRate : option Q;
  toxic         : bool;
  isKelp        : bool;
  isSeagrass    : bool;
  isOctopus     : bool;
  isBaby        : bool;
  isPredator    : bool;
  onIsland      : bool;
}.

(** The fields of an entity object the engine reads or writes.  [speciesDef]
    is absent on islands, eggs and elixirs; [lifetime] is present on algae
    and prey only. *)
Record Entity := {
  e_id       : Z;
  e_x        : Q;
  e_y        : Q;
  speciesDef : option SpeciesDef;
  lifetime   : option Q;
  dead       : bool;
}.

Abbreviation Heap := (gmap nat Entity) (only parsing).

(** [obj.x] and [obj.y] read through a reference. *)
Definition objx (h : Heap) (obj : loc) : Q :=
  match h !! obj with Some e => e_x e | None => 0%Q end.

Definition objy (h : Heap) (obj : loc) : Q :=
  match h !! obj with Some e => e_y e | None => 0%Q end.

(** [obj.x = nx; obj.y = ny]. *)
Definition setPos (h : Heap) (obj : loc) (nx ny : Q) : Heap :=
  match h !! obj with
  | Some e => <[obj := {| e_id := e_id e; e_x := nx; e_y := ny;
                          speciesDef := speciesDef e; lifetime := lifetime e;
                          dead := dead e |}]> h
  | None => h
  end.

(** ** Array primitives *)

(** [arr.indexOf(obj)]: the first index holding the same reference; [None]
    stands for -1. *)
Fixpoint indexOf (obj : loc) (arr : list loc) : option nat :=
  match arr with
  | [] => None
  | a :: rest =>
      if decide (a = obj) then Some 0%nat
      else match indexOf obj rest with
           | Some i => Some (S i)
           | None => None
           end
  end.

(** [const i = arr.indexOf(obj); if (i > -1) arr.splice(i, 1)]. *)
Definition spliceOut (obj : loc) (arr : list loc) : list loc :=
  match indexOf obj arr with
  | Some i => delete i arr
  | None => arr
  end.

(** [arr.includes(obj)]. *)
Definition includes (obj : loc) (arr : list loc) : bool :=
  bool_decide (obj ∈ arr).

(** Number of occurrences of a reference in an array. *)
Definition occ (obj : loc) (arr : list loc) : nat :=
  length (filter (λ a, a = obj) arr).

(** ** engine/SpatialGrid.js *)

Module SpatialGrid.

(** Bucket keys: the string [`${cx},${cy}`] of two integers is modelled by
    the pair [(cx, cy)] it prints. *)
Record t := {
  cellSize : Q;
  grid     : gmap (Z * Z) (list nat);
}.

Definition new (cellSize : Q) : t :=
  {| cellSize := cellSize; grid := ∅ |}.

Definition _key (g : t) (x y : Q) : Z * Z :=
  (Qfloor (x / cellSize g), Qfloor (y / cellSize g)).

Definition setGrid (g : t) (m : gmap (Z * Z) (list nat)) : t :=
  {| cellSize := cellSize g; grid := m |}.

(** [if (!grid.has(key)) grid.set(key, []); grid.get(key).push(obj)]. *)
Definition pushAt (key : Z * Z) (obj : loc)
    (m : gmap (Z * Z) (list nat)) : gmap (Z * Z) (list nat) :=
  let m1 := match m !! key with
            | Some _ => m
            | None => <[key := []]> m
            end in
  match m1 !! key with
  | Some cell => <[key := cell ++ [obj]]> m1
  | None => m1
  end.

(** [const c = grid.get(key); if (c) { i = c.indexOf(obj); if (i > -1) c.splice(i, 1) }]. *)
Definition spliceAt (key : Z * Z) (obj : loc)
    (m : gmap (Z * Z) (list nat)) : gmap (Z * Z) (list nat) :=
  match m !! key with
  | Some cell =>
      match indexOf obj cell with
      | Some i => <[key := delete i cell]> m
      | None => m
      end
  | None => m
  end.

Definition add (h : Heap) (obj : loc) (g : t) : t :=
  let key := _key g (objx h obj) (objy h obj) in
  setGrid g (pushAt key obj (grid g)).

Definition remove (h : Heap) (obj : loc) (g : t) : t :=
  setGrid g (spliceAt (_key g (objx h obj) (objy h obj)) obj (grid g)).

(** Call after moving obj so the grid stays current. *)
Definition update (h : Heap) (obj : loc) (oldX oldY : Q) (g : t) : t :=
  let oldKey := _key g oldX oldY in
  let newKey := _key g (objx h obj) (objy h obj) in
  if decide (oldKey = newKey) then g
  else setGrid g (pushAt newKey obj (spliceAt oldKey obj (grid g))).

(** The cell at [key], or nothing when the map has no such key. *)
Definition cellAt (g : t) (key : Z * Z) : list nat :=
  match grid g !! key with
  | Some cell => cell
  | None => []
  end.

(** The two nested loops [for dx = -cr..cr] [for dy = -cr..cr], pushing
    each existing cell onto [results]. *)
Definition getNearby (g : t) (x y radius : Q) : list nat :=
  let cr := Qceiling (radius / cellSize g) in
  let cx := Qfloor (x / cellSize g) in
  let cy := Qfloor (y / cellSize g) in
  let span := seqZ (- cr) (2 * cr + 1) in
  dx ← span; dy ← span; cellAt g (cx + dx, cy + dy)%Z.

(** Some bucket holds a reference to [obj]. *)
Definition holds (g : t) (obj : loc) : Prop :=
  ∃ key, obj ∈ cellAt g key.

(** [obj] sits in the bucket its current position selects. *)
Definition indexedAtPosition (h : Heap) (g : t) (obj : loc) : Prop :=
  obj ∈ cellAt g (_key g (objx h obj) (objy h obj)).

(** The exact test a caller applies after a query: the Euclidean distance
    from [obj] to [(x, y)] is at most [radius], written without the square
    root. *)
Definition withinRadius (h : Heap) (obj : loc) (x y radius : Q) : Prop :=
  (0 <= radius
   ∧ (objx h obj - x) * (objx h obj - x) + (objy h obj - y) * (objy h obj - y)
     <= radius * radius)%Q.

(** No bucket holds two entries for one entity. *)
Definition noDuplicates (g : t) : Prop :=
  ∀ key, NoDup (cellAt g key).

(** Every entry sits in the bucket its entity's position selects. *)
Definition consistent (h : Heap) (g : t) : Prop :=
  ∀ key obj, obj ∈ cellAt g key → _key g (objx h obj) (objy h obj) = key.

Definition gridInv (st : gmap nat Entity * t) : Prop :=
  noDuplicates st.2 ∧ consistent st.1 st.2.

(** The operations a client performs on a grid.  [Move obj nx ny] is the
    client idiom of game/Spawners.js (PreyEntity.update):
    [oldX = obj.x; oldY = obj.y; obj.x = nx; obj.y = ny; grid.update(obj, oldX, oldY)]. *)
Inductive Op :=
| Add (obj : nat)
| Remove (obj : nat)
| Move (obj : nat) (nx ny : Q).

Definition apply (op : Op) (st : gmap nat Entity * t) : gmap nat Entity * t :=
  match op with
  | Add obj => (st.1, add st.1 obj st.2)
  | Remove obj => (st.1, remove st.1 obj st.2)
  | Move obj nx ny =>
      let h' := setPos st.1 obj nx ny in
      (h', update h' obj (objx st.1 obj) (objy st.1 obj) st.2)
  end.

Definition applyAll (ops : list Op) (st : gmap nat Entity * t) : gmap nat Entity * t :=
  fold_left (λ st op, apply op st) ops st.

(** A sequence of operations that never adds an entity the grid already
    holds. *)
Fixpoint addsOnlyAbsent (ops : list Op) (st : gmap nat Entity * t) : Prop :=
  match ops with
  | [] => True
  | op :: rest =>
      match op with
      | Add obj => ¬ holds st.2 obj
      | _ => True
      end ∧ addsOnlyAbsent rest (apply op st)
  end.

End SpatialGrid.

(** ** engine/EventBus.js *)

Module EventBus.

(** A callback is known by its identity (a function object); what it does
    when invoked is given, as far as the bus is concerned, by the bus
    operations it performs, in order. *)
Inductive action :=
| On (event : string) (cb : nat)
| Off (event : string) (cb : nat)
| Emit (event : string)
| Clear.

(** [_map] sends an event name to a subscriber array; arrays are objects
    of their own ([arrays], by reference), so that a list captured by a
    running [emit] is the very array [off] splices. *)
Record t := {
  _map   : gmap string nat;
  arrays : gmap nat (list nat);
}.

Definition new : t := {| _map := ∅; arrays := ∅ |}.

Definition arrayAt (bus : t) (ref : nat) : list nat :=
  match arrays bus !! ref with
  | Some l => l
  | None => []
  end.

(** [if (!_map.has(event)) _map.set(event, []); _map.get(event).push(cb)]. *)
Definition on (event : string) (cb : nat) (bus : t) : t :=
  let bus1 :=
    match _map bus !! event with
    | Some _ => bus
    | None =>
        let ref := fresh (dom (arrays bus)) in
        {| _map := <[event := ref]> (_map bus);
           arrays := <[ref := []]> (arrays bus) |}
    end in
  match _map bus1 !! event with
  | Some ref =>
      {| _map := _map bus1;
         arrays := <[ref := arrayAt bus1 ref ++ [cb]]> (arrays bus1) |}
  | None => bus1
  end.

Definition off (event : string) (cb : nat) (bus : t) : t :=
  match _map bus !! event with
  | None => bus
  | Some ref =>
      {| _map := _map bus;
         arrays := <[ref := spliceOut cb (arrayAt bus ref)]> (arrays bus) |}
  end.

Definition clear (bus : t) : t :=
  {| _map := ∅; arrays := arrays bus |}.

(** A run of the bus: the bus and the callbacks invoked so far, each with
    the event it was invoked for. *)
Definition run : Type := t * list (string * nat).

(** The statements of a callback body, with [emit] given. *)
Fixpoint perform (emit : string → run → option run)
    (acts : list action) (st : run) : option run :=
  match acts with
  | [] => Some st
  | On event cb :: rest => perform emit rest (on event cb st.1, st.2)
  | Off event cb :: rest => perform emit rest (off event cb st.1, st.2)
  | Clear :: rest => perform emit rest (clear st.1, st.2)
  | Emit event :: rest =>
      match emit event st with
      | Some st' => perform emit rest st'
      | None => None
      end
  end.

(** [const list = _map.get(event); if (list) for (const cb of list) cb(payload)].
    The array iterator reads [list[i]] and [list.length] afresh at every
    step, so the loop below looks the array up again after each callback.
    A dispatch need not end (a callback may emit the same event, or
    subscribe anew each time it runs): [fuel] bounds the nesting depth and
    the number of iterations, and [None] means it ran out. *)
Fixpoint emit (body : nat → list action) (fuel : nat)
    (event : string) (st : run) : option run :=
  match fuel with
  | O => None
  | S f =>
      match _map st.1 !! event with
      | None => Some st
      | Some list =>
          (fix loop (n i : nat) (st : run) : option run :=
             match n with
             | O => None
             | S n' =>
                 match arrayAt st.1 list !! i with
                 | None => Some st
                 | Some cb =>
                     match perform (emit body f) (body cb)
                             (st.1, st.2 ++ [(event, cb)]) with
                     | Some st' => loop n' (S i) st'
                     | None => None
                     end
                 end
             end) fuel 0%nat st
      end
  end.

End EventBus.

(** ** engine/EntityManager.js *)

Inductive PoolKey :=
| ducks | fish | food | eggs | algae | seagrass | kelp
| octopi | elixirs | islands | seaCreatures | predators.

Inductive GridKey := grid_ducks | grid_fish | grid_food | grid_creatures.

Inductive Counter :=
| nextDuckId | nextFishId | nextFoodId | nextEggId | nextAlgaeId
| nextSeagrassId | nextOctopusId | nextElixirId | nextIslandId
| nextKelpId | nextCreatureId | nextPredatorId.

#[global] Instance PoolKey_eq_dec : EqDecision PoolKey.
Proof. solve_decision. Defined.

#[global] Instance GridKey_eq_dec : EqDecision GridKey.
Proof. solve_decision. Defined.

#[global] Instance Counter_eq_dec : EqDecision Counter.
Proof. solve_decision. Defined.

(** Which pools feed which spatial grid. *)
Definition GRID_MAP (poolKey : PoolKey) : option GridKey :=
  match poolKey with
  | ducks => Some grid_ducks
  | fish => Some grid_fish
  | food => Some grid_food
  | seaCreatures => Some grid_creatures
  | _ => None
  end.

(** What the registry publishes on the bus.  The registry model records the
    notifications in order.  The subscribers of these topics in the
    repository (the HUD refresh of game/GameUI.js and game/Spawners.js) read
    the registry and write the page only, so a publication has no effect on
    the registry itself. *)
Inductive Notification :=
| ENTITY_SPAWNED (entity : nat) (poolKey : PoolKey)
| ENTITY_REMOVED (entity : nat)
| HUD_REFRESH
| POLLUTION_CHANGED (value : Q).

Module EntityManager.

Record t := {
  pools          : PoolKey → list nat;
  counters       : Counter → Z;
  grids          : GridKey → SpatialGrid.t;
  _removeQueue   : list nat;
  waterPollution : Q;
  biodiversity   : Q;
  published      : list Notification;
}.

Definition new (SPATIAL_GRID_SIZE : Q) : t :=
  {| pools := λ _, [];
     counters := λ _, 1%Z;
     grids := λ _, SpatialGrid.new SPATIAL_GRID_SIZE;
     _removeQueue := [];
     waterPollution := 0;
     biodiversity := 100;
     published := [] |}.

Definition setPool (key : PoolKey) (arr : list nat) (em : t) : t :=
  {| pools := λ k, if decide (k = key) then arr else pools em k;
     counters := counters em; grids := grids em;
     _removeQueue := _removeQueue em;
     waterPollution := waterPollution em; biodiversity := biodiversity em;
     published := published em |}.

Definition setGridOf (key : GridKey) (g : SpatialGrid.t) (em : t) : t :=
  {| pools := pools em; counters := counters em;
     grids := λ k, if decide (k = key) then g else grids em k;
     _removeQueue := _removeQueue em;
     waterPollution := waterPollution em; biodiversity := biodiversity em;
     published := published em |}.

Definition setQueue (q : list nat) (em : t) : t :=
  {| pools := pools em; counters := counters em; grids := grids em;
     _removeQueue := q;
     waterPollution := waterPollution em; biodiversity := biodiversity em;
     published := published em |}.

Definition setWaterPollution (v : Q) (em : t) : t :=
  {| pools := pools em; counters := counters em; grids := grids em;
     _removeQueue := _removeQueue em;
     waterPollution := v; biodiversity := biodiversity em;
     published := published em |}.

(** [this.nextFooId++] (the value read is [counters em c]). *)
Definition bump (c : Counter) (em : t) : t :=
  {| pools := pools em;
     counters := λ k, if decide (k = c) then (counters em c + 1)%Z
                      else counters em k;
     grids := grids em; _removeQueue := _removeQueue em;
     waterPollution := waterPollution em; biodiversity := biodiversity em;
     published := published em |}.

(** [this.bus.emit(...)]. *)
Definition emit (n : Notification) (em : t) : t :=
  {| pools := pools em; counters := counters em; grids := grids em;
     _removeQueue := _removeQueue em;
     waterPollution := waterPollution em; biodiversity := biodiversity em;
     published := published em ++ [n] |}.

(** The getter [allArrays]: every pool but [islands]. *)
Definition allArrays (em : t) : list (list nat) :=
  [ pools em ducks; pools em fish; pools em food; pools em eggs;
    pools em algae; pools em seagrass; pools em kelp;
    pools em octopi; pools em elixirs; pools em seaCreatures;
    pools em predators ].

(** [e.speciesDef?.id === def.id], for the descriptor [def] asked about. *)
Definition sameSpecies (h : Heap) (def : SpeciesDef) (e : loc) : bool :=
  match h !! e with
  | Some ent =>
      match speciesDef ent with
      | Some s => bool_decide (def_id s = def_id def)
      | None => false
      end
  | None => false
  end.

Definition countSpecies (h : Heap) (em : t) (def : SpeciesDef) : Z :=
  fold_left
    (λ n arr,
       fold_left (λ n e, if sameSpecies h def e then (n + 1)%Z else n)
                 arr n)
    (allArrays em) 0%Z.

Definition canSpawn (h : Heap) (em : t) (def : SpeciesDef) : bool :=
  bool_decide (countSpecies h em def < MAX_COUNT def)%Z.

Definition add (h : Heap) (entity : loc) (poolKey : PoolKey)
    (useGrid : bool) (em : t) : t :=
  let em1 := setPool poolKey (pools em poolKey ++ [entity]) em in
  let em2 :=
    if useGrid then
      match GRID_MAP poolKey with
      | Some gk => setGridOf gk (SpatialGrid.add h entity (grids em1 gk)) em1
      | None => em1
      end
    else em1 in
  emit HUD_REFRESH (emit (ENTITY_SPAWNED entity poolKey) em2).

(** Queue removal, safe to call mid-iteration. *)
Definition queueRemove (entity : loc) (em : t) : t :=
  if includes entity (_removeQueue em) then em
  else setQueue (_removeQueue em ++ [entity]) em.

(** The pool names [remove] walks, in its order. *)
Definition removalPools : list PoolKey :=
  [ ducks; fish; food; eggs; algae; seagrass; kelp;
    octopi; elixirs; islands; seaCreatures; predators ].

(** The loop of [remove] over the remaining pool names: the first pool
    holding the entity loses its first occurrence, and the loop returns. *)
Fixpoint removeFrom (h : Heap) (entity : loc) (keys : list PoolKey)
    (em : t) : t :=
  match keys with
  | [] => em
  | key :: rest =>
      match indexOf entity (pools em key) with
      | Some idx =>
          let em1 := setPool key (delete idx (pools em key)) em in
          let em2 :=
            match GRID_MAP key with
            | Some gk =>
                setGridOf gk (SpatialGrid.remove h entity (grids em1 gk)) em1
            | None => em1
            end in
          emit HUD_REFRESH (emit (ENTITY_REMOVED entity) em2)
      | None => removeFrom h entity rest em
      end
  end.

(** Immediate removal. *)
Definition remove (h : Heap) (entity : loc) (em : t) : t :=
  removeFrom h entity removalPools em.

(** [for (const e of this._removeQueue) this.remove(e); this._removeQueue.length = 0].
    [remove] itself never writes the queue, so the live iteration visits
    the queued entities once each, in order. *)
Definition flushRemovals (h : Heap) (em : t) : t :=
  setQueue [] (fold_left (λ em e, remove h e em) (_removeQueue em) em).

Definition updateGrid (h : Heap) (entity : loc) (oldX oldY : Q)
    (gridKey : GridKey) (em : t) : t :=
  setGridOf gridKey (SpatialGrid.update h entity oldX oldY (grids em gridKey)) em.

Definition getNearby (em : t) (x y radius : Q) (gridKey : GridKey) : list nat :=
  SpatialGrid.getNearby (grids em gridKey) x y radius.

End EntityManager.

(** ** engine/Core.js: the scheduler *)

(** [a < b] on numbers. *)
Definition Qltb (a b : Q) : bool :=
  (Qnum a * Z.pos (Qden b) <? Qnum b * Z.pos (Qden a))%Z.

(** [a % b] on numbers: the remainder of the division truncated towards
    zero, with the sign of [a]. *)
Definition jsRem (a b : Q) : Q :=
  let q := (a / b)%Q in
  (a - inject_Z (Z.quot (Qnum q) (Z.pos (Qden q))) * b)%Q.

Module Engine.

(** A registered system is known by a number; the scheduler only ever
    calls its [update]. *)
Record t := {
  targetFPS     : Q;
  targetFrameMs : Q;
  systems       : list nat;
  isRunning     : bool;
  _lastTime     : Q;
  _rafId        : option nat;
}.

(** One call [system.update(dt, currentTime)]. *)
Record UpdateCall := {
  call_system : nat;
  call_dt     : Q;
  call_time   : Q;
}.

Definition new (targetFPS : Q) : t :=
  {| targetFPS := targetFPS;
     targetFrameMs := 1000 / targetFPS;
     systems := [];
     isRunning := false;
     _lastTime := 0;
     _rafId := None |}.

Definition addSystem (system : nat) (eng : t) : t :=
  {| targetFPS := targetFPS eng; targetFrameMs := targetFrameMs eng;
     systems := systems eng ++ [system];
     isRunning := isRunning eng; _lastTime := _lastTime eng;
     _rafId := _rafId eng |}.

(** [raf] is the handle [requestAnimationFrame] returns. *)
Definition start (raf : nat) (eng : t) : t :=
  if isRunning eng then eng
  else {| targetFPS := targetFPS eng; targetFrameMs := targetFrameMs eng;
          systems := systems eng; isRunning := true;
          _lastTime := _lastTime eng; _rafId := Some raf |}.

Definition stop (eng : t) : t :=
  {| targetFPS := targetFPS eng; targetFrameMs := targetFrameMs eng;
     systems := systems eng; isRunning := false;
     _lastTime := _lastTime eng; _rafId := _rafId eng |}.

(** The animation callback: the engine afterwards, and the [update] calls
    it made, in order. *)
Definition _loop (currentTime : Q) (raf : nat) (eng : t) : t * list UpdateCall :=
  if negb (isRunning eng) then (eng, [])
  else
    let eng1 :=
      {| targetFPS := targetFPS eng; targetFrameMs := targetFrameMs eng;
         systems := systems eng; isRunning := isRunning eng;
         _lastTime := _lastTime eng; _rafId := Some raf |} in
    let elapsed := (currentTime - _lastTime eng)%Q in
    if Qltb elapsed (targetFrameMs eng) then (eng1, [])
    else
      let dt := Qmin (elapsed / 1000) (1 # 10) in
      let eng2 :=
        {| targetFPS := targetFPS eng; targetFrameMs := targetFrameMs eng;
           systems := systems eng; isRunning := isRunning eng;
           _lastTime := (currentTime - jsRem elapsed (targetFrameMs eng))%Q;
           _rafId := Some raf |} in
      (eng2,
       map (λ system, {| call_system := system; call_dt := dt;
                         call_time := currentTime |}) (systems eng)).

End Engine.

(** ** engine/EntityManager.js: the static utility *)

Module Utility.

(** A number as [Math.sqrt] returns it and as [best] holds it: a finite
    number or [Infinity] (NaN is outside the model). *)
Inductive Dist :=
| Infinity
| Finite (d : Q).

(** [a < b] on such numbers: the comparison of two doubles is exact. *)
Definition lessThan (a b : Dist) : bool :=
  match a, b with
  | Finite p, Finite q => Qltb p q
  | Finite _, Infinity => true
  | Infinity, _ => false
  end.

Section FindNearest.

(** The arithmetic of doubles is a parameter of the embedding: [-], [*],
    [+] and [Math.sqrt] as the machine computes them (each result rounded,
    or overflowing to [Infinity]), on a carrier [Double] of the intermediate
    results.  Nothing is assumed of them. *)
Variable Double : Type.
Variable minus : Q → Q → Double.
Variable times : Double → Double → Double.
Variable plus : Double → Double → Double.
Variable sqrt : Double → Dist.

(** [Math.sqrt(dx * dx + dy * dy)] with [dx = obj.x - x], [dy = obj.y - y]. *)
Definition distance (h : Heap) (x y : Q) (obj : loc) : Dist :=
  let dx := minus (objx h obj) x in
  let dy := minus (objy h obj) y in
  sqrt (plus (times dx dx) (times dy dy)).

(** The static [findNearest(x, y, array, maxDist = Infinity)]; [None] is
    [null]. *)
Definition findNearest (h : Heap) (x y : Q) (array : list loc)
    (maxDist : option Q) : option loc :=
  (fold_left
     (λ '(nearest, best) obj,
        let d := distance h x y obj in
        if lessThan d best then (Some obj, d) else (nearest, best))
     array
     (None, match maxDist with Some m => Finite m | None => Infinity end)).1.

End FindNearest.

End Utility.

(** ** engine/World.js *)

Module World.

(** [_container] is the page element once [init] has run, as its
    [clientWidth] and [clientHeight]. *)
Record t := {
  oceanFraction    : Q;
  isNight          : bool;
  dayNightCycle    : Q;
  dayNightDuration : Q;
  time             : Q;
  frameCount       : Z;
  isPaused         : bool;
  _container       : option (Q * Q);
}.

(** [new World(config)]; the argument is [config.DAY_NIGHT_DURATION]. *)
Definition new (DAY_NIGHT_DURATION : option Q) : t :=
  {| oceanFraction := 2 # 5;
     isNight := false;
     dayNightCycle := 0;
     dayNightDuration := default 60%Q DAY_NIGHT_DURATION;
     time := 0;
     frameCount := 0;
     isPaused := false;
     _container := None |}.

Definition init (containerEl : Q * Q) (w : t) : t :=
  {| oceanFraction := oceanFraction w; isNight := isNight w;
     dayNightCycle := dayNightCycle w; dayNightDuration := dayNightDuration w;
     time := time w; frameCount := frameCount w; isPaused := isPaused w;
     _container := Some containerEl |}.

Definition width (w : t) : Q :=
  match _container w with Some el => el.1 | None => 800 end.

Definition height (w : t) : Q :=
  match _container w with Some el => el.2 | None => 600 end.

Definition oceanTop (w : t) : Q := (height w * oceanFraction w)%Q.

Definition isInOcean (w : t) (y : Q) : bool := Qle_bool (oceanTop w) y.

(** [clampX(x, margin = 50)]. *)
Definition clampX (w : t) (x : Q) (margin : option Q) : Q :=
  Qmax 0 (Qmin x (width w - default 50%Q margin)).

(** [clampOceanY(y, margin = 50)]. *)
Definition clampOceanY (w : t) (y : Q) (margin : option Q) : Q :=
  Qmax (oceanTop w) (Qmin y (height w - default 50%Q margin)).

(** [randomOceanX(margin = 50)] and [randomOceanY(depthFraction = 0.3)];
    [random] is the draw [Math.random()]. *)
Definition randomOceanX (w : t) (random : Q) (margin : option Q) : Q :=
  (random * (width w - default 50%Q margin))%Q.

Definition randomOceanY (w : t) (random : Q) (depthFraction : option Q) : Q :=
  (oceanTop w + random * height w * default (3 # 10) depthFraction)%Q.

(** [tick(dt)]: the world afterwards, and whether the phase flipped. *)
Definition tick (dt : Q) (w : t) : t * bool :=
  if isPaused w then (w, false)
  else
    let cycle := (dayNightCycle w + dt)%Q in
    if Qle_bool (dayNightDuration w) cycle
    then ({| oceanFraction := oceanFraction w; isNight := negb (isNight w);
             dayNightCycle := 0; dayNightDuration := dayNightDuration w;
             time := (time w + dt)%Q; frameCount := (frameCount w + 1)%Z;
             isPaused := isPaused w; _container := _container w |}, true)
    else ({| oceanFraction := oceanFraction w; isNight := isNight w;
             dayNightCycle := cycle; dayNightDuration := dayNightDuration w;
             time := (time w + dt)%Q; frameCount := (frameCount w + 1)%Z;
             isPaused := isPaused w; _container := _container w |}, false).

End World.

(** ** The game state: the store and the registry *)

Record Game := {
  heap     : gmap nat Entity;
  entities : EntityManager.t;
}.

Definition withEntities (f : EntityManager.t → EntityManager.t) (s : Game) : Game :=
  {| heap := heap s; entities := f (entities s) |}.

Definition withHeap (f : gmap nat Entity → gmap nat Entity) (s : Game) : Game :=
  {| heap := f (heap s); entities := entities s |}.

(** ** engine/Systems/PollutionSystem.js *)

Module PollutionSystem.

(** [a.lifetime -= dt] (an object without a numeric [lifetime] keeps
    none). *)
Definition tickLifetime (dt : Q) (a : loc) (h : gmap nat Entity) : gmap nat Entity :=
  match h !! a with
  | Some e =>
      <[a := {| e_id := e_id e; e_x := e_x e; e_y := e_y e;
                speciesDef := speciesDef e;
                lifetime := match lifetime e with
                            | Some t => Some (t - dt)%Q
                            | None => None
                            end;
                dead := dead e |}]> h
  | None => h
  end.

(** [a.speciesDef?.pollutionRate], when defined. *)
Definition rateOf (h : gmap nat Entity) (a : loc) : option Q :=
  match h !! a with
  | Some e =>
      match speciesDef e with
      | Some s => pollutionRate s
      | None => None
      end
  | None => None
  end.

(** [a.lifetime <= 0]. *)
Definition expired (h : gmap nat Entity) (a : loc) : bool :=
  match h !! a with
  | Some e =>
      match lifetime e with
      | Some t => Qle_bool t 0
      | None => false
      end
  | None => false
  end.

(** One turn of the loop over [algaePools]. *)
Definition visit (dt : Q) (acc : Game * Q) (a : loc) : Game * Q :=
  let '(s, delta) := acc in
  let s1 := withHeap (tickLifetime dt a) s in
  let delta1 := match rateOf (heap s1) a with
                | Some r => (delta + r * dt)%Q
                | None => delta
                end in
  let s2 := if expired (heap s1) a
            then withEntities (EntityManager.queueRemove a) s1
            else s1 in
  (s2, delta1).

Definition algaePools (s : Game) : list nat :=
  EntityManager.pools (entities s) algae
    ++ EntityManager.pools (entities s) seagrass
    ++ EntityManager.pools (entities s) kelp.

Definition update (isPaused : bool) (dt : Q) (s : Game) : Game :=
  if isPaused then s
  else
    let '(s1, delta) := fold_left (visit dt) (algaePools s) (s, 0%Q) in
    let prev := EntityManager.waterPollution (entities s1) in
    let next := Qmax 0 (Qmin 100 (prev + delta)) in
    let s2 := withEntities (EntityManager.setWaterPollution next) s1 in
    if Qltb (1 # 100) (Qabs (next - prev))
    then withEntities (EntityManager.emit (POLLUTION_CHANGED next)) s2
    else s2.

End PollutionSystem.

(** ** game/SpeciesRegistry.js *)

Module SPECIES.
Section Table.

(** [isMobile] of game/GameConfig.js: on a mobile device every cap is
    halved once the table is defined. *)
Variable isMobile : bool.

Definition cap (n : Z) : Z := if isMobile then (n / 2)%Z else n.

(** A table row with every optional flag absent. *)
Definition row (id name : string) (age : Q) (count : Z) : SpeciesDef :=
  {| def_id := id; def_name := name; MAX_COUNT := cap count; maxAge := age;
     pollutionRate := None; toxic := false; isKelp := false;
     isSeagrass := false; isOctopus := false; isBaby := false;
     isPredator := false; onIsland := false |}.

Definition plant (id name : string) (isToxic : bool) (rate : Q) (age : Q)
    (count : Z) (kelp seagrass : bool) : SpeciesDef :=
  {| def_id := id; def_name := name; MAX_COUNT := cap count; maxAge := age;
     pollutionRate := Some rate; toxic := isToxic; isKelp := kelp;
     isSeagrass := seagrass; isOctopus := false; isBaby := false;
     isPredator := false; onIsland := false |}.

Definition flagged (d : SpeciesDef) (octopus baby predator island : bool) : SpeciesDef :=
  {| def_id := def_id d; def_name := def_name d; MAX_COUNT := MAX_COUNT d;
     maxAge := maxAge d; pollutionRate := pollutionRate d; toxic := toxic d;
     isKelp := isKelp d; isSeagrass := isSeagrass d; isOctopus := octopus;
     isBaby := baby; isPredator := predator; onIsland := island |}.

Definition HEALTHY  := plant "algae_healthy" "Green Algae" false (-1 # 10) 60 40 false false.
Definition TOXIC    := plant "algae_toxic" "Toxic Algae" true (1 # 2) 45 20 false false.
Definition KELP     := plant "kelp" "Kelp" false (-15 # 100) 120 20 true false.
Definition SEAGRASS := plant "seagrass" "Seagrass" false (-5 # 100) 200 30 false true.

Definition MALLARD   := row "duck_mallard" "Mallard Duck" 240 30.
Definition BABY_DUCK := flagged (row "duck_baby" "Duckling" 240 30) false true false false.
Definition PELICAN   := row "pelican" "Pelican" 300 10.
Definition SWAN      := row "swan" "Swan" 220 12.
Definition FLAMINGO  := flagged (row "flamingo" "Flamingo" 200 10) false false false true.
Definition GOOSE     := row "goose" "Goose" 180 12.

Definition CAT     := flagged (row "cat" "Cat" 150 8) false false true true.
Definition DOG     := flagged (row "dog" "Dog" 120 8) false false true true.
Definition WHALE   := row "whale" "Whale" 400 5.
Definition DOLPHIN := row "dolphin" "Dolphin" 250 8.
Definition SEAL    := row "seal" "Seal" 200 8.
Definition OTTER   := row "otter" "Otter" 150 10.

Definition SALMON   := row "fish_salmon" "Salmon" 120 30.
Definition TROPICAL := row "fish_tropical" "Tropical Fish" 100 20.
Definition PUFFER   := row "fish_puffer" "Pufferfish" 120 10.
Definition SHARK    := row "fish_shark" "Shark" 300 5.
Definition SQUID    := row "fish_squid" "Squid" 180 12.
Definition LOBSTER  := row "fish_lobster" "Lobster" 240 10.
Definition CRAB     := row "fish_crab" "Crab" 180 12.
Definition SHELL    := row "fish_shell" "Shell" 600 10.
Definition OCTOPUS  := flagged (row "octopus" "Octopus" 150 8) true false false false.

Definition SHRIMP   := row "shrimp" "Shrimp" 30 40.
Definition SHRIMP_B := flagged (row "shrimp_baby" "Baby Shrimp" 20 40) false true false false.

Definition mammals : list SpeciesDef := [CAT; DOG; WHALE; DOLPHIN; SEAL; OTTER].

(** Every descriptor of the table, group by group. *)
Definition all : list SpeciesDef :=
  [HEALTHY; TOXIC; KELP; SEAGRASS]
    ++ [MALLARD; BABY_DUCK; PELICAN; SWAN; FLAMINGO; GOOSE]
    ++ mammals
    ++ [SALMON; TROPICAL; PUFFER; SHARK; SQUID; LOBSTER; CRAB; SHELL; OCTOPUS]
    ++ [SHRIMP; SHRIMP_B].

End Table.
End SPECIES.

(** ** game/Spawners.js *)

Module Spawners.
Section Spawn.

Variable isMobile : bool.

(** [new BirdEntity / FishEntity / MammalEntity (id, x, y, def)]. *)
Definition BaseEntity (id : Z) (x y : Q) (def : SpeciesDef) : Entity :=
  {| e_id := id; e_x := x; e_y := y; speciesDef := Some def;
     lifetime := None; dead := false |}.

(** [new AlgaeEntity(id, x, y, def)]: [lifetime = def.maxAge]. *)
Definition AlgaeEntity (id : Z) (x y : Q) (def : SpeciesDef) : Entity :=
  {| e_id := id; e_x := x; e_y := y; speciesDef := Some def;
     lifetime := Some (maxAge def); dead := false |}.

(** [new PreyEntity(id, x, y, def, shouldFall)]: [lifetime = def.maxAge * 1000]. *)
Definition PreyEntity (id : Z) (x y : Q) (def : SpeciesDef) : Entity :=
  {| e_id := id; e_x := x; e_y := y; speciesDef := Some def;
     lifetime := Some (maxAge def * 1000)%Q; dead := false |}.

(** [new Island / Egg / Elixir (id, x, y, ...)]: no species descriptor. *)
Definition StaticEntity (id : Z) (x y : Q) : Entity :=
  {| e_id := id; e_x := x; e_y := y; speciesDef := None;
     lifetime := None; dead := false |}.

(** [new C(this.entities.nextXId++, ...)]: a fresh object, and the counter
    moved on. *)
Definition construct (c : Counter) (mk : Z → Entity) (s : Game) : Game * loc :=
  let id := EntityManager.counters (entities s) c in
  let obj := fresh (dom (heap s)) in
  ({| heap := <[obj := mk id]> (heap s);
      entities := EntityManager.bump c (entities s) |}, obj).

(** [this.entities.add(entity, poolKey, useGrid)]. *)
Definition register (entity : loc) (poolKey : PoolKey) (useGrid : bool)
    (s : Game) : Game :=
  withEntities (EntityManager.add (heap s) entity poolKey useGrid) s.

Definition canSpawn (s : Game) (def : SpeciesDef) : bool :=
  EntityManager.canSpawn (heap s) (entities s) def.

(** The position arguments [x y] of the operations below stand for the
    random draws of the source where it draws one. *)

Definition addBird (def : SpeciesDef) (x y : Q) (s : Game) : Game * option loc :=
  if negb (canSpawn s def) then (s, None)
  else
    let '(s1, duck) := construct nextDuckId (λ id, BaseEntity id x y def) s in
    (register duck ducks true s1, Some duck).

Definition spawnFish (def : SpeciesDef) (x y : Q) (s : Game) : Game * option loc :=
  if negb (canSpawn s def) then (s, None)
  else
    let '(s1, entity) := construct nextFishId (λ id, BaseEntity id x y def) s in
    let mainFish := [def_id (SPECIES.SALMON isMobile); def_id (SPECIES.TROPICAL isMobile);
                     def_id (SPECIES.PUFFER isMobile); def_id (SPECIES.SHARK isMobile)] in
    if isOctopus def then (register entity octopi false s1, Some entity)
    else if bool_decide (def_id def ∈ mainFish)
         then (register entity fish true s1, Some entity)
         else (register entity seaCreatures true s1, Some entity).

Definition addFish (def : SpeciesDef) (x y : Q) (s : Game) : Game * option loc :=
  spawnFish def x y s.

Definition addOctopus (x y : Q) (s : Game) : Game * option loc :=
  spawnFish (SPECIES.OCTOPUS isMobile) x y s.

(** [coin] is the draw [Math.random() < 0.5] choosing cat or dog. *)
Definition addPredator (def : option SpeciesDef) (coin : bool) (x y : Q)
    (s : Game) : Game * option loc :=
  if bool_decide (length (EntityManager.pools (entities s) islands) = 0%nat)
  then (s, None)
  else
    let def := match def with
               | Some d => d
               | None => if coin then SPECIES.CAT isMobile else SPECIES.DOG isMobile
               end in
    if negb (canSpawn s def) then (s, None)
    else
      let '(s1, p) := construct nextPredatorId (λ id, BaseEntity id x y def) s in
      (register p predators false s1, Some p).

Definition spawnSeaCreature (def : SpeciesDef) (x y : Q) (s : Game) : Game * option loc :=
  if negb (canSpawn s def) then (s, None)
  else
    let '(s1, entity) := construct nextCreatureId (λ id, BaseEntity id x y def) s in
    (register entity seaCreatures true s1, Some entity).

(** [pick] is the drawn index into the mammals that are neither predators
    nor island dwellers. *)
Definition addSeaCreature (def : option SpeciesDef) (pick : nat) (x y : Q)
    (s : Game) : Game * option loc :=
  let opts := filter (λ m, isPredator m = false ∧ onIsland m = false)
                     (SPECIES.mammals isMobile) in
  let def := match def with
             | Some d => d
             | None => default (SPECIES.WHALE isMobile) (opts !! pick)
             end in
  if negb (canSpawn s def) then (s, None)
  else
    let '(s1, entity) := construct nextCreatureId (λ id, BaseEntity id x y def) s in
    (register entity seaCreatures true s1, Some entity).

Definition addFood (def : SpeciesDef) (x : Q) (s : Game) : Game * option loc :=
  if negb (canSpawn s def) then (s, None)
  else
    let '(s1, shrimp) := construct nextFoodId (λ id, PreyEntity id x 50 def) s in
    (register shrimp food false s1, Some shrimp).

Definition addFoodAt (x y : Q) (shouldFall : bool) (s : Game) : Game * option loc :=
  if negb (canSpawn s (SPECIES.SHRIMP isMobile)) then (s, None)
  else
    let '(s1, e) := construct nextFoodId
                      (λ id, PreyEntity id x y (SPECIES.SHRIMP isMobile)) s in
    let s2 := if shouldFall then s1
              else withEntities
                     (λ em, EntityManager.setGridOf grid_food
                              (SpatialGrid.add (heap s1) e (EntityManager.grids em grid_food))
                              em) s1 in
    (register e food false s2, Some e).

(** [oceanTop] is [world.oceanTop]. *)
Definition spawnBabyShrimp (oceanTop : Q) (x y : Q) (s : Game) : Game * option loc :=
  if negb (canSpawn s (SPECIES.SHRIMP_B isMobile)) then (s, None)
  else
    let '(s1, baby) := construct nextFoodId
                         (λ id, PreyEntity id x (Qmax (oceanTop + 10) y)
                                  (SPECIES.SHRIMP_B isMobile)) s in
    (register baby food true s1, Some baby).

Definition addBabyShrimp (oceanTop : Q) (x y : Q) (s : Game) : Game * option loc :=
  spawnBabyShrimp oceanTop x y s.

(** [coin] is the draw choosing toxic over green algae when no type is
    asked for. *)
Definition addAlgae (type : option string) (coin : bool) (x y : Q)
    (s : Game) : Game * option loc :=
  let def :=
    if bool_decide (type = Some "toxic") then SPECIES.TOXIC isMobile
    else if bool_decide (type = Some "kelp") then SPECIES.KELP isMobile
    else if bool_decide (type = Some "seagrass") then SPECIES.SEAGRASS isMobile
    else if coin then SPECIES.TOXIC isMobile else SPECIES.HEALTHY isMobile in
  if negb (canSpawn s def) then (s, None)
  else
    let '(s1, entity) := construct nextAlgaeId (λ id, AlgaeEntity id x y def) s in
    if isSeagrass def then (register entity seagrass false s1, Some entity)
    else if isKelp def then (register entity kelp false s1, Some entity)
    else (register entity algae false s1, Some entity).

Definition addKelp (x y : Q) (s : Game) : Game * option loc :=
  if negb (canSpawn s (SPECIES.KELP isMobile)) then (s, None)
  else
    let '(s1, entity) := construct nextKelpId
                           (λ id, AlgaeEntity id x y (SPECIES.KELP isMobile)) s in
    (register entity kelp false s1, Some entity).

Definition addSeagrass (x y : Q) (s : Game) : Game * option loc :=
  if negb (canSpawn s (SPECIES.SEAGRASS isMobile)) then (s, None)
  else
    let '(s1, entity) := construct nextSeagrassId
                           (λ id, AlgaeEntity id x y (SPECIES.SEAGRASS isMobile)) s in
    (register entity seagrass false s1, Some entity).

(** [valid] tells whether the placement loop found room. *)
Definition addIsland (valid : bool) (x y : Q) (s : Game) : Game * option loc :=
  if bool_decide (8 ≤ length (EntityManager.pools (entities s) islands))%nat
  then (s, None)
  else if negb valid then (s, None)
  else
    let '(s1, island) := construct nextIslandId (λ id, StaticEntity id x y) s in
    (register island islands false s1, Some island).

Definition createEgg (x y : Q) (s : Game) : Game * loc :=
  let '(s1, egg) := construct nextEggId (λ id, StaticEntity id x y) s in
  (register egg eggs false s1, egg).

Definition addElixir (x : Q) (s : Game) : Game * loc :=
  let '(s1, elixir) := construct nextElixirId (λ id, StaticEntity id x 50) s in
  (register elixir elixirs false s1, elixir).

(** The delayed body of [Egg.hatch]. *)
Definition hatch (egg : loc) (s : Game) : Game :=
  if negb (canSpawn s (SPECIES.MALLARD isMobile))
  then withEntities (EntityManager.queueRemove egg) s
  else
    let '(s1, duck) :=
      construct nextDuckId
        (λ id, BaseEntity id (objx (heap s) egg) (objy (heap s) egg)
                 (SPECIES.MALLARD isMobile)) s in
    withEntities (EntityManager.queueRemove egg) (register duck ducks true s1).

(** The delayed body of [MammalEntity._breedWithPredator], run for the
    parent [this]. *)
Definition breed (this : loc) (x y : Q) (s : Game) : Game :=
  match heap s !! this with
  | Some parent =>
      match speciesDef parent with
      | Some def =>
          if negb (canSpawn s def) then s
          else
            let '(s1, baby) := construct nextPredatorId
                                 (λ id, BaseEntity id x y def) s in
            register baby predators false s1
      | None => s
      end
  | None => s
  end.

(** [_onElixirOpened]: toxic algae are queued, the water is purified. *)
Definition _onElixirOpened (s : Game) : Game :=
  let isToxic a := match heap s !! a with
                   | Some e => match speciesDef e with
                               | Some d => toxic d
                               | None => false
                               end
                   | None => false
                   end in
  let s1 := fold_left (λ s a, withEntities (EntityManager.queueRemove a) s)
              (filter (λ a, isToxic a = true) (EntityManager.pools (entities s) algae)) s in
  withEntities
    (λ em, EntityManager.setWaterPollution
             (Qmax 0 (EntityManager.waterPollution em - 40)) em) s1.

(** [PreyEntity.update]: a baby shrimp of age ten and more becomes an adult
    ([this.speciesDef = SPECIES.prey.SHRIMP]). *)
Definition growUp (this : loc) (h : gmap nat Entity) : gmap nat Entity :=
  match h !! this with
  | Some e =>
      match speciesDef e with
      | Some d =>
          if isBaby d
          then <[this := {| e_id := e_id e; e_x := e_x e; e_y := e_y e;
                            speciesDef := Some (SPECIES.SHRIMP isMobile);
                            lifetime := lifetime e; dead := dead e |}]> h
          else h
      | None => h
      end
  | None => h
  end.

End Spawn.
End Spawners.

(** ** Notions the properties are stated with *)

Module Registry.

(** The pool names behind the getter [allArrays], in its order. *)
Definition scanned : list PoolKey :=
  [ ducks; fish; food; eggs; algae; seagrass; kelp;
    octopi; elixirs; seaCreatures; predators ].

(** How many entries of an array reference an entity of the species. *)
Definition matching (h : gmap nat Entity) (def : SpeciesDef) (arr : list nat) : nat :=
  length (filter (λ e, EntityManager.sameSpecies h def e = true) arr).

(** The live count of a species over the pools [allArrays] lists. *)
Definition liveCount (h : gmap nat Entity) (em : EntityManager.t)
    (def : SpeciesDef) : Z :=
  Z.of_nat (matching h def (concat (EntityManager.allArrays em))).

(** The count over every pool of the registry, [islands] included: the
    reading of the specification ("scans all pools"). *)
Definition liveCount_all_pools (h : gmap nat Entity) (em : EntityManager.t)
    (def : SpeciesDef) : Z :=
  Z.of_nat (matching h def
              (concat (map (EntityManager.pools em) EntityManager.removalPools))).

(** What [remove] does once it has found the entity in pool [key]. *)
Definition removeAt (h : gmap nat Entity) (entity : nat) (key : PoolKey)
    (em : EntityManager.t) : EntityManager.t :=
  let em1 := EntityManager.setPool key
               (spliceOut entity (EntityManager.pools em key)) em in
  let em2 :=
    match GRID_MAP key with
    | Some gk =>
        EntityManager.setGridOf gk
          (SpatialGrid.remove h entity (EntityManager.grids em1 gk)) em1
    | None => em1
    end in
  EntityManager.emit HUD_REFRESH (EntityManager.emit (ENTITY_REMOVED entity) em2).

(** Occurrences of an entity over all twelve pools. *)
Definition poolOcc (entity : nat) (em : EntityManager.t) : nat :=
  foldr (λ key n, (occ entity (EntityManager.pools em key) + n)%nat) 0%nat
        EntityManager.removalPools.

(** The entity is in no pool and in no bucket of any grid. *)
Definition gone (em : EntityManager.t) (entity : nat) : Prop :=
  (∀ key, entity ∉ EntityManager.pools em key)
  ∧ (∀ gk, ¬ SpatialGrid.holds (EntityManager.grids em gk) entity).

(** The entity is held the way the registry's own operations leave it:
    at most once over the pools, and, where a grid indexes it, once, in
    the bucket of its current position, in the grid its pool feeds. *)
Definition wellIndexed (h : gmap nat Entity) (em : EntityManager.t)
    (entity : nat) : Prop :=
  (poolOcc entity em ≤ 1)%nat
  ∧ ∀ gk key,
      entity ∈ SpatialGrid.cellAt (EntityManager.grids em gk) key →
      key = SpatialGrid._key (EntityManager.grids em gk) (objx h entity) (objy h entity)
      ∧ occ entity (SpatialGrid.cellAt (EntityManager.grids em gk) key) = 1%nat
      ∧ ∃ poolKey, GRID_MAP poolKey = Some gk
                   ∧ entity ∈ EntityManager.pools em poolKey.

(** What a flush is to achieve for the entities that were queued. *)
Definition flushedClean (queued : list nat) (em' : EntityManager.t) : Prop :=
  (∀ entity, entity ∈ queued → gone em' entity)
  ∧ EntityManager._removeQueue em' = [].

(** [queueRemove] called for each entity of [calls], in order. *)
Definition queueAll (calls : list nat) (em : EntityManager.t) : EntityManager.t :=
  fold_left (λ em e, EntityManager.queueRemove e em) calls em.

End Registry.

(** ** The game as a transition system *)

Module Simulation.
Section Steps.

Variable isMobile : bool.

(** main.js: a new registry with [CONFIG.SPATIAL_GRID_SIZE = 150]. *)
Definition initial : Game :=
  {| heap := ∅; entities := EntityManager.new 150 |}.

(** A change of object fields that creates no object and leaves every
    [speciesDef] field as it is (movement, ageing, hunger, lifetimes). *)
Definition keepsSpecies (h h' : gmap nat Entity) : Prop :=
  ∀ obj, speciesDef <$> (h' !! obj) = speciesDef <$> (h !! obj).

(** One operation on the game.  Descriptors passed in from outside are
    rows of the species table, as they are at every call site.  The one
    write to a [speciesDef] field in the source, [PreyEntity.update] turning
    a grown baby shrimp into an adult ([Spawners.growUp]), is no spawn
    operation and is not among the steps. *)
Inductive step : Game → Game → Prop :=
| step_addBird def x y s :
    def ∈ SPECIES.all isMobile → step s (Spawners.addBird def x y s).1
| step_spawnFish def x y s :
    def ∈ SPECIES.all isMobile → step s (Spawners.spawnFish isMobile def x y s).1
| step_addFish def x y s :
    def ∈ SPECIES.all isMobile → step s (Spawners.addFish isMobile def x y s).1
| step_addOctopus x y s :
    step s (Spawners.addOctopus isMobile x y s).1
| step_addPredator def coin x y s :
    (∀ d, def = Some d → d ∈ SPECIES.all isMobile) →
    step s (Spawners.addPredator isMobile def coin x y s).1
| step_spawnSeaCreature def x y s :
    def ∈ SPECIES.all isMobile → step s (Spawners.spawnSeaCreature def x y s).1
| step_addSeaCreature def pick x y s :
    (∀ d, def = Some d → d ∈ SPECIES.all isMobile) →
    step s (Spawners.addSeaCreature isMobile def pick x y s).1
| step_addFood def x s :
    def ∈ SPECIES.all isMobile → step s (Spawners.addFood def x s).1
| step_addFoodAt x y shouldFall s :
    step s (Spawners.addFoodAt isMobile x y shouldFall s).1
| step_spawnBabyShrimp oceanTop x y s :
    step s (Spawners.spawnBabyShrimp isMobile oceanTop x y s).1
| step_addBabyShrimp oceanTop x y s :
    step s (Spawners.addBabyShrimp isMobile oceanTop x y s).1
| step_addAlgae type coin x y s :
    step s (Spawners.addAlgae isMobile type coin x y s).1
| step_addKelp x y s :
    step s (Spawners.addKelp isMobile x y s).1
| step_addSeagrass x y s :
    step s (Spawners.addSeagrass isMobile x y s).1
| step_addIsland valid x y s :
    step s (Spawners.addIsland valid x y s).1
| step_createEgg x y s :
    step s (Spawners.createEgg x y s).1
| step_addElixir x s :
    step s (Spawners.addElixir x s).1
| step_hatch egg s :
    step s (Spawners.hatch isMobile egg s)
| step_breed this x y s :
    step s (Spawners.breed this x y s)
| step_onElixirOpened s :
    step s (Spawners._onElixirOpened s)
| step_queueRemove entity s :
    step s (withEntities (EntityManager.queueRemove entity) s)
| step_flushRemovals s :
    step s (withEntities (EntityManager.flushRemovals (heap s)) s)
| step_updateGrid entity oldX oldY gridKey s :
    step s (withEntities (EntityManager.updateGrid (heap s) entity oldX oldY gridKey) s)
| step_pollution isPaused dt s :
    step s (PollutionSystem.update isPaused dt s)
| step_fields h' s :
    keepsSpecies (heap s) h' → step s (withHeap (λ _, h') s).

(** The states the operations lead to from the initial one. *)
Definition reachable (s : Game) : Prop := rtc step initial s.

(** No species of the table is over its cap. *)
Definition withinCaps (s : Game) : Prop :=
  ∀ def, def ∈ SPECIES.all isMobile →
         (EntityManager.countSpecies (heap s) (entities s) def ≤ MAX_COUNT def)%Z.

(** What holds of every reachable state besides: pools hold objects of
    the store, descriptors are rows of the table, and no entity is pooled
    twice. *)
Definition wellFormed (s : Game) : Prop :=
  (∀ key obj, obj ∈ EntityManager.pools (entities s) key → is_Some (heap s !! obj))
  ∧ (∀ obj e def, heap s !! obj = Some e → speciesDef e = Some def →
                  def ∈ SPECIES.all isMobile)
  ∧ (∀ obj, (Registry.poolOcc obj (entities s) ≤ 1)%nat).

End Steps.
End Simulation.

(** ** Notions the bus properties are stated with *)

Module BusNotions.

(** The subscriber list of a topic: its array, or nothing when the map has
    no such key. *)
Definition subscribers (bus : EventBus.t) (event : string) : list nat :=
  match EventBus._map bus !! event with
  | Some ref => EventBus.arrayAt bus ref
  | None => []
  end.

(** Every topic has an array of its own: what [on], [off] and [clear] keep
    of a bus that starts out new. *)
Definition separate (bus : EventBus.t) : Prop :=
  (∀ event ref, EventBus._map bus !! event = Some ref →
                is_Some (EventBus.arrays bus !! ref))
  ∧ (∀ e1 e2 ref, EventBus._map bus !! e1 = Some ref →
                  EventBus._map bus !! e2 = Some ref → e1 = e2).

(** The loop of [EventBus.emit] over the captured array [list], given a
    name: [emit body (S f) event st] is [dispatch body f event list (S f) 0 st]
    for the array [list] of [event]. *)
Definition dispatch (body : nat → list EventBus.action) (f : nat)
    (event : string) (list : nat) : nat → nat → EventBus.run → option EventBus.run :=
  fix loop (n i : nat) (st : EventBus.run) : option EventBus.run :=
    match n with
    | O => None
    | S n' =>
        match EventBus.arrayAt st.1 list !! i with
        | None => Some st
        | Some cb =>
            match EventBus.perform (EventBus.emit body f) (body cb)
                    (st.1, st.2 ++ [(event, cb)]) with
            | Some st' => loop n' (S i) st'
            | None => None
            end
        end
    end.

End BusNotions.

(** ** engine/Systems/ReproductionSystem.js: the fish loop *)

Module ReproductionSystem.

(** The values the guard of the fish loop computes with: a field that may
    be absent, the result of [!], and [undefined]. *)
Inductive Value :=
| Undefined
| Boolean (b : bool)
| Number (q : Q).

(** The truth value of a value, as [!] takes it. *)
Definition ToBoolean (v : Value) : bool :=
  match v with
  | Undefined => false
  | Boolean b => b
  | Number q => negb (Qeq_bool q 0)
  end.

(** [!v]. *)
Definition logicalNot (v : Value) : Value := Boolean (negb (ToBoolean v)).

(** [v !== w]. *)
Definition strictNotEqual (v w : Value) : bool :=
  match v, w with
  | Undefined, Undefined => false
  | Boolean a, Boolean b => negb (eqb a b)
  | Number a, Number b => negb (Qeq_bool a b)
  | _, _ => true
  end.

Section Fish.

(** The state the system works on; the registry in it; the field
    [a.reproductionCooldown] read in a state; and the part of the loop body
    that follows the guard (cooldown, hunger, the random draw, the search
    for a partner and [_spawnFishOffspring]), for the entity [a]. *)
Variable State : Type.
Variable entitiesOf : State → EntityManager.t.
Variable reproductionCooldown : State → nat → Value.
Variable pairUp : nat → State → State.

(** [_processFishReproduction]: the loop over a copy of the three pools;
    its first statement is
    [if (!a.reproductionCooldown !== undefined) continue]. *)
Definition _processFishReproduction (st : State) : State :=
  let pool := EntityManager.pools (entitiesOf st) fish
                ++ EntityManager.pools (entitiesOf st) seaCreatures
                ++ EntityManager.pools (entitiesOf st) octopi in
  fold_left
    (λ st a,
       if strictNotEqual (logicalNot (reproductionCooldown st a)) Undefined
       then st
       else pairUp a st)
    pool st.

End Fish.

End ReproductionSystem.

(** ** Notions the further invariants of the game are stated with *)

Module Bounds.

(** The island pool holds at most [CONFIG.MAX_ISLANDS = 8] islands (the
    bound [addIsland] checks), pollution is a percentage, and every grid has
    the cell size the registry was built with. *)
Definition bounded (s : Game) : Prop :=
  (length (EntityManager.pools (entities s) islands) ≤ 8)%nat
  ∧ (0 <= EntityManager.waterPollution (entities s) <= 100)%Q
  ∧ ∀ gk, SpatialGrid.cellSize (EntityManager.grids (entities s) gk) = 150%Q.

End Bounds.

(** ** main.js: the end of a frame and the start of the next *)

Module Main.

(** [e.dead]. *)
Definition isDead (h : gmap nat Entity) (e : nat) : bool :=
  match h !! e with Some ent => dead ent | None => false end.

(** The closing loops of the sixth system: every entity of the arrays of
    [allArrays] whose [dead] flag is set is queued for removal. *)
Definition markDead (s : Game) : Game :=
  fold_left
    (λ s arr,
       fold_left
         (λ s e, if isDead (heap s) e
                 then withEntities (EntityManager.queueRemove e) s else s)
         arr s)
    (EntityManager.allArrays (entities s)) s.

(** The first system: [entities.flushRemovals()]. *)
Definition flush (s : Game) : Game :=
  withEntities (EntityManager.flushRemovals (heap s)) s.

End Main.

(** ** Notions the properties of the pollution phase are stated with *)

Module PollutionNotions.

(** The [pollutionRate] of the descriptor of an entity, zero where the
    entity has no descriptor or the descriptor no rate. *)
Definition rate (h : gmap nat Entity) (a : nat) : Q :=
  match h !! a with
  | Some e =>
      match speciesDef e with
      | Some d => default 0%Q (pollutionRate d)
      | None => 0%Q
      end
  | None => 0%Q
  end.

(** The sum of the pollution rates of the entries of an array. *)
Definition totalRate (h : gmap nat Entity) (l : list nat) : Q :=
  fold_right (λ a acc, (rate h a + acc)%Q) 0%Q l.

(** [a.lifetime -= dt] on a record. *)
Definition aged (dt : Q) (e : Entity) : Entity :=
  {| e_id := e_id e; e_x := e_x e; e_y := e_y e; speciesDef := speciesDef e;
     lifetime := (λ t, (t - dt)%Q) <$> lifetime e; dead := dead e |}.

End PollutionNotions.

(** ** Notions the properties of [findNearest] are stated with *)

Module NearestNotions.

(** The bound [best] starts from. *)
Definition bound (maxDist : option Q) : Utility.Dist :=
  match maxDist with
  | Some m => Utility.Finite m
  | None => Utility.Infinity
  end.

(** What the loop of [findNearest] has established after the prefix [l]
    of the array, in terms of its variables [nearest] and [best]; [d] gives
    the distance the loop computes for an entity. *)
Definition scanned (d : nat → Utility.Dist) (maxDist : option Q)
    (l : list nat) (st : option nat * Utility.Dist) : Prop :=
  match st.1 with
  | None =>
      st.2 = bound maxDist
      ∧ ∀ o, o ∈ l → Utility.lessThan (d o) (bound maxDist) = false
  | Some obj =>
      st.2 = d obj
      ∧ Utility.lessThan (d obj) (bound maxDist) = true
      ∧ ∃ i, l !! i = Some obj
             ∧ (∀ j o, l !! j = Some o → Utility.lessThan (d o) (d obj) = false)
             ∧ (∀ j o, (j < i)%nat → l !! j = Some o →
                       Utility.lessThan (d obj) (d o) = true)
  end.

End NearestNotions.

(** ** The browser driving the scheduler and the clock *)

Module Schedule.

(** The browser invoking the animation callback once for each entry of
    [frames] (the time stamp, and the handle the re-request returns): the
    engine afterwards and the [update] calls made, in order. *)
Fixpoint run (frames : list (Q * nat)) (eng : Engine.t)
    : Engine.t * list Engine.UpdateCall :=
  match frames with
  | [] => (eng, [])
  | (currentTime, raf) :: rest =>
      let '(eng1, calls) := Engine._loop currentTime raf eng in
      let '(eng2, more) := run rest eng1 in
      (eng2, calls ++ more)
  end.

(** [world.tick(dt)] called for each [dt] of [dts]: the world afterwards
    and the number of phase flips reported. *)
Fixpoint ticks (dts : list Q) (w : World.t) : World.t * nat :=
  match dts with
  | [] => (w, 0%nat)
  | dt :: rest =>
      let '(w1, flipped) := World.tick dt w in
      let '(w2, n) := ticks rest w1 in
      (w2, ((if flipped then 1 else 0) + n)%nat)
  end.

(** The sum of a list of numbers. *)
Definition total (dts : list Q) : Q := fold_right Qplus 0%Q dts.

End Schedule.

(** ** Concrete scenarios *)

Module Scenario.

(** An object with no descriptor at [(x, y)]. *)
Definition thing (x y : Q) : Entity :=
  {| e_id := 1; e_x := x; e_y := y; speciesDef := None;
     lifetime := None; dead := false |}.

(** One object, at (10, 10); one object at (160, 10); two objects with the
    same field values at (10, 10). *)
Definition oneAt10 : gmap nat Entity := {[ 0%nat := thing 10 10 ]}.
Definition oneAt160 : gmap nat Entity := {[ 0%nat := thing 160 10 ]}.
Definition twins : gmap nat Entity := {[ 0%nat := thing 10 10; 1%nat := thing 10 10 ]}.

Definition grid150 : SpatialGrid.t := SpatialGrid.new 150.

(** A registry whose islands pool holds two sharks (mobile caps: two
    sharks at most). *)
Definition shark (x y : Q) : Entity :=
  {| e_id := 1; e_x := x; e_y := y; speciesDef := Some (SPECIES.SHARK true);
     lifetime := None; dead := false |}.
Definition twoSharks : gmap nat Entity := {[ 0%nat := shark 10 10; 1%nat := shark 20 20 ]}.
Definition sharksOnIslands : EntityManager.t :=
  EntityManager.add twoSharks 1 islands false
    (EntityManager.add twoSharks 0 islands false (EntityManager.new 150)).

(** A fish pool holding object 0, indexed at (10, 10). *)
Definition oneFish : EntityManager.t :=
  EntityManager.add oneAt10 0 fish true (EntityManager.new 150).

(** Object 0 added to two pools. *)
Definition inTwoPools : EntityManager.t :=
  EntityManager.add oneAt10 0 eggs false
    (EntityManager.add oneAt10 0 algae false (EntityManager.new 150)).

(** Mobile caps: twenty adult shrimp dropped into the water, then one baby
    shrimp born. *)
Definition shrimpAtCap : Game :=
  Nat.iter 20 (λ s, (Spawners.addFoodAt true 10 300 false s).1) (Simulation.initial).
Definition withBaby : Game := (Spawners.spawnBabyShrimp true 100 10 300 shrimpAtCap).1.

(** A salmon spawned at (10, 10), moved to (160, 10) as
    engine/Systems/MovementSystem.js moves fish (no grid update), queued for
    removal, and flushed. *)
Definition fishSpawned : Game :=
  (Spawners.spawnFish false (SPECIES.SALMON false) 10 10 (Simulation.initial)).1.
Definition fishMoved : Game := withHeap (λ _, setPos (heap fishSpawned) 0 160 10) fishSpawned.
Definition fishQueued : Game := withEntities (EntityManager.queueRemove 0) fishMoved.
Definition fishFlushed : Game :=
  withEntities (EntityManager.flushRemovals (heap fishQueued)) fishQueued.

(** Two sharks spawned through [spawnFish] where the cap is two. *)
Definition twoSpawned : Game :=
  (Spawners.spawnFish true (SPECIES.SHARK true) 20 300
     (Spawners.spawnFish true (SPECIES.SHARK true) 10 300 (Simulation.initial)).1).1.

End Scenario.

(** * Properties *)

(** ** Arrays *)

Lemma indexOf_None obj arr : indexOf obj arr = None ↔ obj ∉ arr.
Proof.
  induction arr as [|a rest IH]; simpl.
  - split; [intros _; apply not_elem_of_nil | done].
  - destruct (decide (a = obj)) as [->|Hne].
    + split; [done | intros H; exfalso; apply H; left].
    + rewrite not_elem_of_cons. destruct (indexOf obj rest).
      * split; [done | intros [_ H]; apply IH in H; done].
      * split; [intros _; split; [congruence | by apply IH] | done].
Qed.

Lemma indexOf_Some obj arr i : indexOf obj arr = Some i → arr !! i = Some obj.
Proof.
  revert i. induction arr as [|a rest IH]; intros i; simpl; [done|].
  destruct (decide (a = obj)) as [->|Hne].
  - intros [= <-]. done.
  - destruct (indexOf obj rest) as [j|]; [|done].
    intros [= <-]. simpl. by apply IH.
Qed.

Lemma indexOf_is_Some obj arr : obj ∈ arr → is_Some (indexOf obj arr).
Proof.
  intros Hin. destruct (indexOf obj arr) eqn:E; [eauto|].
  apply indexOf_None in E. done.
Qed.

Lemma occ_nil obj : occ obj [] = 0%nat.
Proof. done. Qed.

Lemma occ_cons obj a arr :
  occ obj (a :: arr) = ((if decide (a = obj) then 1 else 0) + occ obj arr)%nat.
Proof.
  unfold occ. rewrite filter_cons. destruct (decide (a = obj)); done.
Qed.

Lemma occ_app obj l1 l2 : occ obj (l1 ++ l2) = (occ obj l1 + occ obj l2)%nat.
Proof. unfold occ. by rewrite filter_app, length_app. Qed.

Lemma occ_zero obj arr : occ obj arr = 0%nat ↔ obj ∉ arr.
Proof.
  induction arr as [|a rest IH].
  - split; [intros _; apply not_elem_of_nil | done].
  - rewrite occ_cons, not_elem_of_cons. destruct (decide (a = obj)) as [->|Hne].
    + split; [lia | intros [? _]; done].
    + simpl. rewrite IH. split; [intros ?; split; [congruence | done] | tauto].
Qed.

Lemma occ_zero_not obj arr : occ obj arr ≠ 0%nat → obj ∈ arr.
Proof.
  intros H. destruct (decide (obj ∈ arr)) as [|Hn]; [done|].
  by apply occ_zero in Hn.
Qed.

Lemma occ_NoDup obj arr : NoDup arr → (occ obj arr ≤ 1)%nat.
Proof.
  induction 1 as [|a rest Hnotin _ IH]; [rewrite occ_nil; lia|].
  rewrite occ_cons. destruct (decide (a = obj)) as [->|Hne]; [|simpl; lia].
  apply occ_zero in Hnotin. lia.
Qed.

(** Splicing out the first occurrence: one occurrence fewer of that very
    reference, and the occurrences of any other reference are as before. *)
Lemma occ_delete_indexOf obj arr i :
  indexOf obj arr = Some i → occ obj (delete i arr) = pred (occ obj arr).
Proof.
  revert i. induction arr as [|a rest IH]; intros i; simpl; [done|].
  destruct (decide (a = obj)) as [->|Hne].
  - intros [= <-]. simpl. rewrite occ_cons. by rewrite decide_True.
  - destruct (indexOf obj rest) as [j|] eqn:E; [|done].
    intros [= <-]. simpl. rewrite !occ_cons, decide_False by done.
    simpl. by apply IH.
Qed.

Lemma occ_delete_other obj obj' arr i :
  indexOf obj arr = Some i → obj' ≠ obj →
  occ obj' (delete i arr) = occ obj' arr.
Proof.
  revert i. induction arr as [|a rest IH]; intros i; simpl; [done|].
  destruct (decide (a = obj)) as [->|Hne].
  - intros [= <-] Hne. simpl. rewrite occ_cons. by rewrite decide_False.
  - destruct (indexOf obj rest) as [j|] eqn:E; [|done].
    intros [= <-] Hne'. simpl. rewrite !occ_cons. f_equal. by apply IH.
Qed.

Lemma elem_of_delete_inv (obj : nat) (arr : list nat) i :
  obj ∈ delete i arr → obj ∈ arr.
Proof.
  apply list_elem_of_delete_inv.
Qed.

Lemma NoDup_delete (arr : list nat) i : NoDup arr → NoDup (delete i arr).
Proof. intros H. eapply sublist_NoDup; [done | apply sublist_delete]. Qed.

Lemma not_elem_of_delete_indexOf obj arr i :
  NoDup arr → indexOf obj arr = Some i → obj ∉ delete i arr.
Proof.
  intros Hnd Hi. apply occ_zero. rewrite (occ_delete_indexOf _ _ _ Hi).
  pose proof (occ_NoDup obj arr Hnd). lia.
Qed.

Lemma elem_of_delete_other (obj obj' : nat) arr i :
  indexOf obj arr = Some i → obj' ≠ obj → obj' ∈ arr → obj' ∈ delete i arr.
Proof.
  intros Hi Hne Hin. destruct (decide (obj' ∈ delete i arr)) as [|Hn]; [done|].
  apply occ_zero in Hn. rewrite (occ_delete_other _ _ _ _ Hi Hne) in Hn.
  apply occ_zero in Hn. done.
Qed.

Lemma spliceOut_occ_same obj arr : occ obj (spliceOut obj arr) = pred (occ obj arr).
Proof.
  unfold spliceOut. destruct (indexOf obj arr) as [i|] eqn:E.
  - by apply occ_delete_indexOf.
  - apply indexOf_None, occ_zero in E. by rewrite E.
Qed.

Lemma spliceOut_occ_other obj obj' arr :
  obj' ≠ obj → occ obj' (spliceOut obj arr) = occ obj' arr.
Proof.
  intros Hne. unfold spliceOut. destruct (indexOf obj arr) as [i|] eqn:E; [|done].
  by eapply occ_delete_other.
Qed.

Lemma spliceOut_elem_of_inv (obj obj' : nat) arr : obj' ∈ spliceOut obj arr → obj' ∈ arr.
Proof.
  unfold spliceOut. destruct (indexOf obj arr); [apply elem_of_delete_inv | done].
Qed.

Lemma spliceOut_NoDup obj arr : NoDup arr → NoDup (spliceOut obj arr).
Proof.
  unfold spliceOut. destruct (indexOf obj arr); [apply NoDup_delete | done].
Qed.

Lemma spliceOut_not_elem_of obj arr : NoDup arr → obj ∉ spliceOut obj arr.
Proof.
  intros Hnd. apply occ_zero. rewrite spliceOut_occ_same.
  pose proof (occ_NoDup obj arr Hnd). lia.
Qed.

Lemma spliceOut_absent obj arr : obj ∉ arr → spliceOut obj arr = arr.
Proof. intros H. unfold spliceOut. apply indexOf_None in H. by rewrite H. Qed.

(** ** The spatial grid *)

Section GridFacts.

Import SpatialGrid.

Lemma cellAt_pushAt g m key obj k :
  cellAt (setGrid g (pushAt key obj m)) k
  = if decide (k = key) then cellAt (setGrid g m) key ++ [obj]
    else cellAt (setGrid g m) k.
Proof.
  unfold cellAt, pushAt; simpl.
  destruct (m !! key) as [cell|] eqn:E.
  - rewrite E. destruct (decide (k = key)) as [->|Hne].
    + by rewrite lookup_insert_eq.
    + by rewrite lookup_insert_ne.
  - rewrite lookup_insert_eq. destruct (decide (k = key)) as [->|Hne].
    + by rewrite lookup_insert_eq.
    + by rewrite !lookup_insert_ne.
Qed.

Lemma cellAt_spliceAt g m key obj k :
  cellAt (setGrid g (spliceAt key obj m)) k
  = if decide (k = key) then spliceOut obj (cellAt (setGrid g m) key)
    else cellAt (setGrid g m) k.
Proof.
  unfold cellAt, spliceAt, spliceOut; simpl.
  destruct (m !! key) as [cell|] eqn:E.
  - destruct (indexOf obj cell) as [i|] eqn:Ei.
    + destruct (decide (k = key)) as [->|Hne].
      * by rewrite lookup_insert_eq.
      * by rewrite lookup_insert_ne.
    + destruct (decide (k = key)) as [->|Hne]; [by rewrite E|done].
  - destruct (decide (k = key)) as [->|Hne]; [by rewrite E|done].
Qed.

Lemma cellAt_setGrid_id g k : cellAt (setGrid g (grid g)) k = cellAt g k.
Proof. done. Qed.

Lemma cellAt_add h obj g k :
  cellAt (add h obj g) k
  = if decide (k = _key g (objx h obj) (objy h obj))
    then cellAt g k ++ [obj] else cellAt g k.
Proof.
  unfold add. rewrite cellAt_pushAt, cellAt_setGrid_id.
  destruct (decide _) as [->|]; done.
Qed.

Lemma cellAt_remove h obj g k :
  cellAt (remove h obj g) k
  = if decide (k = _key g (objx h obj) (objy h obj))
    then spliceOut obj (cellAt g k) else cellAt g k.
Proof.
  unfold remove. rewrite cellAt_spliceAt, cellAt_setGrid_id.
  destruct (decide _) as [->|]; done.
Qed.

Lemma cellSize_add h obj g : cellSize (add h obj g) = cellSize g.
Proof. done. Qed.

Lemma cellSize_remove h obj g : cellSize (remove h obj g) = cellSize g.
Proof. done. Qed.

Lemma cellSize_update h obj ox oy g : cellSize (update h obj ox oy g) = cellSize g.
Proof. unfold update. destruct (decide _); done. Qed.

Lemma key_cellSize g g' x y : cellSize g' = cellSize g → _key g' x y = _key g x y.
Proof. unfold _key. by intros ->. Qed.

Lemma cellAt_update h obj ox oy g k :
  cellAt (update h obj ox oy g) k
  = let oldKey := _key g ox oy in
    let newKey := _key g (objx h obj) (objy h obj) in
    if decide (oldKey = newKey) then cellAt g k
    else if decide (k = newKey) then cellAt g k ++ [obj]
    else if decide (k = oldKey) then spliceOut obj (cellAt g k)
    else cellAt g k.
Proof.
  unfold update; simpl. destruct (decide (_key g ox oy = _)) as [Heq|Hne]; [done|].
  rewrite cellAt_pushAt. destruct (decide (k = _key g (objx h obj) (objy h obj))) as [->|Hk].
  - rewrite cellAt_spliceAt, decide_False by done. done.
  - rewrite cellAt_spliceAt. destruct (decide (k = _key g ox oy)) as [->|]; done.
Qed.

(** Removal leaves alone every reference other than the one passed, also
    one to an object with the very same field values. *)
Lemma remove_other_occ h obj obj' g k :
  obj' ≠ obj → occ obj' (cellAt (remove h obj g) k) = occ obj' (cellAt g k).
Proof.
  intros Hne. rewrite cellAt_remove. destruct (decide _); [|done].
  by apply spliceOut_occ_other.
Qed.

Lemma remove_same_occ h obj g k :
  occ obj (cellAt (remove h obj g) k)
  = if decide (k = _key g (objx h obj) (objy h obj))
    then pred (occ obj (cellAt g k)) else occ obj (cellAt g k).
Proof.
  rewrite cellAt_remove. destruct (decide _); [|done].
  apply spliceOut_occ_same.
Qed.

End GridFacts.

Lemma objx_setPos_other h obj obj' nx ny :
  obj' ≠ obj → objx (setPos h obj nx ny) obj' = objx h obj'.
Proof.
  intros Hne. unfold objx, setPos. destruct (h !! obj); [|done].
  by rewrite lookup_insert_ne.
Qed.

Lemma objy_setPos_other h obj obj' nx ny :
  obj' ≠ obj → objy (setPos h obj nx ny) obj' = objy h obj'.
Proof.
  intros Hne. unfold objy, setPos. destruct (h !! obj); [|done].
  by rewrite lookup_insert_ne.
Qed.

Section GridInvariant.

Import SpatialGrid.

Lemma gridInv_new h cs : gridInv (h, new cs).
Proof.
  split; intros key; unfold cellAt; simpl; rewrite lookup_empty.
  - constructor.
  - intros obj Hin. by apply elem_of_nil in Hin.
Qed.

Lemma gridInv_add h g obj : ¬ holds g obj → gridInv (h, g) → gridInv (h, add h obj g).
Proof.
  intros Hno [Hnd Hc]. split; simpl in *.
  - intros k. rewrite cellAt_add. destruct (decide _) as [->|]; [|apply Hnd].
    apply NoDup_app. split; [apply Hnd|]. split; [|apply NoDup_singleton].
    intros x Hx ->%list_elem_of_singleton. apply Hno. by eexists.
  - intros k o. rewrite cellAt_add, (key_cellSize g (add h obj g)) by done.
    destruct (decide _) as [->|]; [|apply Hc].
    intros [Hin| ->%list_elem_of_singleton]%elem_of_app; [by apply Hc | done].
Qed.

Lemma gridInv_remove h g obj : gridInv (h, g) → gridInv (h, remove h obj g).
Proof.
  intros [Hnd Hc]. split; simpl in *.
  - intros k. rewrite cellAt_remove. destruct (decide _); [|apply Hnd].
    apply spliceOut_NoDup, Hnd.
  - intros k o. rewrite cellAt_remove, (key_cellSize g (remove h obj g)) by done.
    destruct (decide _); [|apply Hc].
    intros Hin%spliceOut_elem_of_inv. by apply Hc.
Qed.

Lemma gridInv_move h g obj nx ny :
  gridInv (h, g) → gridInv (apply (Move obj nx ny) (h, g)).
Proof.
  intros [Hnd Hc]. simpl in *.
  set (h' := setPos h obj nx ny).
  assert (Hpos : ∀ o, o ≠ obj →
            _key g (objx h' o) (objy h' o) = _key g (objx h o) (objy h o)).
  { intros o Ho. unfold h'. by rewrite objx_setPos_other, objy_setPos_other. }
  split; simpl.
  - intros k. rewrite cellAt_update; simpl.
    destruct (decide (_key g (objx h obj) (objy h obj) = _)) as [Heq|Hne]; [apply Hnd|].
    destruct (decide (k = _)) as [->|Hk].
    + apply NoDup_app. split; [apply Hnd|]. split; [|apply NoDup_singleton].
      intros x Hx ->%list_elem_of_singleton. apply Hc in Hx. congruence.
    + destruct (decide (k = _)); [apply spliceOut_NoDup|]; apply Hnd.
  - intros k o.
    rewrite cellAt_update, (key_cellSize g (update _ _ _ _ g)) by apply cellSize_update.
    simpl. destruct (decide (o = obj)) as [->|Ho].
    + destruct (decide (_key g (objx h obj) (objy h obj) = _)) as [Heq|Hne].
      { intros Hin. apply Hc in Hin. congruence. }
      destruct (decide (k = _key g (objx h' obj) (objy h' obj))) as [->|Hk]; [done|].
      destruct (decide (k = _)) as [->|Hk'].
      * intros Hin. exfalso. by eapply spliceOut_not_elem_of, Hin.
      * intros Hin. apply Hc in Hin. congruence.
    + rewrite (Hpos o) by done.
      destruct (decide (_key g (objx h obj) (objy h obj) = _)) as [Heq|Hne]; [apply Hc|].
      destruct (decide (k = _key g (objx h' obj) (objy h' obj))) as [->|Hk].
      * intros [Hin| ->%list_elem_of_singleton]%elem_of_app; [by apply Hc | done].
      * destruct (decide (k = _)) as [->|Hk']; [|apply Hc].
        intros Hin%spliceOut_elem_of_inv. by apply Hc.
Qed.

Lemma gridInv_applyAll ops st :
  gridInv st → addsOnlyAbsent ops st → gridInv (applyAll ops st).
Proof.
  revert st. induction ops as [|op rest IH]; intros [h g] Hinv Hok; [done|].
  destruct Hok as [Hop Hrest]. simpl. apply IH; [|done].
  destruct op as [obj|obj|obj nx ny].
  - by apply gridInv_add.
  - by apply gridInv_remove.
  - by apply gridInv_move.
Qed.

End GridInvariant.

(** ** Rounding facts for the ring of buckets *)

Lemma Qfloor_diff_le (a b : Q) (n : Z) :
  (a - b <= inject_Z n)%Q → (Qfloor a - Qfloor b ≤ n)%Z.
Proof.
  intros H.
  pose proof (Qfloor_le a) as Ha. pose proof (Qlt_floor b) as Hb.
  assert (Hlt : (inject_Z (Qfloor a) < inject_Z (Qfloor b + 1 + n))%Q).
  { rewrite inject_Z_plus in Hb. rewrite !inject_Z_plus.
    change (inject_Z 1) with 1%Q in *. lra. }
  rewrite <- Zlt_Qlt in Hlt. lia.
Qed.

Lemma Qdiv_diff (a b c : Q) : (a / c - b / c == (a - b) / c)%Q.
Proof. unfold Qdiv. ring. Qed.

Lemma Qdiv_le_compat (a b c : Q) : (0 < c)%Q → (a <= b)%Q → (a / c <= b / c)%Q.
Proof.
  intros Hc Hab. unfold Qdiv. apply Qmult_le_compat_r; [done|].
  apply Qlt_le_weak, Qinv_lt_0_compat, Hc.
Qed.

Lemma square_bound (d e r : Q) :
  (0 <= r)%Q → (d * d + e * e <= r * r)%Q → (d <= r)%Q ∧ (- d <= r)%Q.
Proof. intros Hr H. split; nra. Qed.

(** The bucket column of a point within [r] of [x] lies within
    [ceil(r / cellSize)] columns of the column of [x]. *)
Lemma ring_covers (cs x ex r : Q) :
  (0 < cs)%Q → (ex - x <= r)%Q → (- (ex - x) <= r)%Q →
  let cr := Qceiling (r / cs) in
  (- cr ≤ Qfloor (ex / cs) - Qfloor (x / cs) ≤ cr)%Z.
Proof.
  intros Hcs H1 H2 cr.
  pose proof (Qle_ceiling (r / cs)) as Hceil. fold cr in Hceil.
  split.
  - cut (Qfloor (x / cs) - Qfloor (ex / cs) ≤ cr)%Z; [lia|].
    apply Qfloor_diff_le. rewrite Qdiv_diff.
    eapply Qle_trans; [|apply Hceil]. apply Qdiv_le_compat; [done|lra].
  - apply Qfloor_diff_le. rewrite Qdiv_diff.
    eapply Qle_trans; [|apply Hceil]. by apply Qdiv_le_compat.
Qed.

(** ** C5: the grid query has no false negatives *)

(** C5. For every centre (x, y) and radius, every entity stored in the
    bucket its position selects and lying within the radius of the centre
    (Euclidean distance) is in the list [getNearby(x, y, radius)] returns:
    the query is a superset of the exact-distance result. *)
Theorem getNearby_no_false_negatives (h : gmap nat Entity) (g : SpatialGrid.t)
    (x y radius : Q) (obj : nat) :
  (0 < SpatialGrid.cellSize g)%Q →
  SpatialGrid.indexedAtPosition h g obj →
  SpatialGrid.withinRadius h obj x y radius →
  obj ∈ SpatialGrid.getNearby g x y radius.
Proof.
  intros Hcs Hidx [Hr Hdist].
  destruct (square_bound _ _ _ Hr Hdist) as [Hx1 Hx2].
  assert (Hdist' : ((objy h obj - y) * (objy h obj - y)
                    + (objx h obj - x) * (objx h obj - x) <= radius * radius)%Q) by lra.
  destruct (square_bound _ _ _ Hr Hdist') as [Hy1 Hy2].
  pose proof (ring_covers _ x _ radius Hcs Hx1 Hx2) as Hcol.
  pose proof (ring_covers _ y _ radius Hcs Hy1 Hy2) as Hrow.
  cbv zeta in Hcol, Hrow.
  unfold SpatialGrid.getNearby.
  set (cr := Qceiling (radius / SpatialGrid.cellSize g)) in *.
  set (cx := Qfloor (x / SpatialGrid.cellSize g)) in *.
  set (cy := Qfloor (y / SpatialGrid.cellSize g)) in *.
  apply list_elem_of_bind.
  exists (Qfloor (objx h obj / SpatialGrid.cellSize g) - cx)%Z. split.
  - apply list_elem_of_bind.
    exists (Qfloor (objy h obj / SpatialGrid.cellSize g) - cy)%Z. split.
    + unfold SpatialGrid.indexedAtPosition, SpatialGrid._key in Hidx.
      replace (cx + (Qfloor (objx h obj / SpatialGrid.cellSize g) - cx))%Z
        with (Qfloor (objx h obj / SpatialGrid.cellSize g)) by lia.
      replace (cy + (Qfloor (objy h obj / SpatialGrid.cellSize g) - cy))%Z
        with (Qfloor (objy h obj / SpatialGrid.cellSize g)) by lia.
      exact Hidx.
    + apply elem_of_seqZ. lia.
  - apply elem_of_seqZ. lia.
Qed.

(** The scenario of the specification: an entity at (160, 10) in a grid of
    cell size 150 is found by a query at (160, 10) with radius 10. *)
Lemma getNearby_no_false_negatives_witness :
  (0 < SpatialGrid.cellSize (SpatialGrid.add Scenario.oneAt160 0 Scenario.grid150))%Q
  ∧ (0%nat ∈ SpatialGrid.getNearby
               (SpatialGrid.add Scenario.oneAt160 0 Scenario.grid150) 160 10 10).
Proof.
  split; [reflexivity|].
  apply (getNearby_no_false_negatives Scenario.oneAt160).
  - reflexivity.
  - vm_compute. left.
  - split; vm_compute; discriminate.
Defined.

(** ** C8: duplicates in a bucket *)

(** Adding the same entity twice leaves two entries for it in its bucket. *)
Lemma add_twice_duplicates :
  ¬ SpatialGrid.noDuplicates
      (SpatialGrid.applyAll [SpatialGrid.Add 0; SpatialGrid.Add 0]
         (Scenario.oneAt10, Scenario.grid150)).2.
Proof.
  intros H. specialize (H (0, 0)%Z). vm_compute in H.
  apply NoDup_cons in H as [Hin _]. apply Hin. left.
Qed.

(** C8 (amended). For every sequence of add, remove and move-then-update
    operations on an empty grid in which [add] is never called for an entity
    the grid already holds, no bucket ever holds two entries for the same
    entity; and [remove] excises by reference identity: it takes one entry
    of the very object passed out of the bucket of its position and leaves
    the entries of every other object, equal in value or not, as they
    were. *)
Theorem grid_buckets_without_duplicates (h : gmap nat Entity) (cs : Q)
    (ops : list SpatialGrid.Op) :
  SpatialGrid.addsOnlyAbsent ops (h, SpatialGrid.new cs) →
  SpatialGrid.noDuplicates (SpatialGrid.applyAll ops (h, SpatialGrid.new cs)).2
  ∧ (∀ h' g obj obj' key,
       obj' ≠ obj →
       occ obj' (SpatialGrid.cellAt (SpatialGrid.remove h' obj g) key)
       = occ obj' (SpatialGrid.cellAt g key))
  ∧ (∀ h' g obj,
       let key := SpatialGrid._key g (objx h' obj) (objy h' obj) in
       occ obj (SpatialGrid.cellAt (SpatialGrid.remove h' obj g) key)
       = pred (occ obj (SpatialGrid.cellAt g key))).
Proof.
  intros Hok. split; [|split].
  - apply (gridInv_applyAll ops (h, SpatialGrid.new cs)); [apply gridInv_new | done].
  - intros h' g obj obj' key Hne. by apply remove_other_occ.
  - intros h' g obj key. rewrite remove_same_occ. by rewrite decide_True.
Qed.

(** Two objects with equal field values in one bucket: adding both and
    removing the first leaves exactly the second. *)
Lemma grid_buckets_without_duplicates_witness :
  SpatialGrid.noDuplicates
    (SpatialGrid.applyAll
       [SpatialGrid.Add 0; SpatialGrid.Add 1; SpatialGrid.Move 0 160 10;
        SpatialGrid.Remove 0]
       (Scenario.twins, SpatialGrid.new 150)).2.
Proof.
  apply (grid_buckets_without_duplicates Scenario.twins 150
           [SpatialGrid.Add 0; SpatialGrid.Add 1; SpatialGrid.Move 0 160 10;
            SpatialGrid.Remove 0]).
  simpl. repeat split.
  - intros [key Hin]. vm_compute in Hin. by apply elem_of_nil in Hin.
  - intros [key Hin]. revert Hin. unfold SpatialGrid.holds. rewrite cellAt_add.
    destruct (decide _).
    + vm_compute. intros [=]%list_elem_of_singleton.
    + vm_compute. intros []%elem_of_nil.
Defined.

(** ** C10: dispatch walks the live subscriber array *)

Section BusFacts.

Import EventBus.

(** The bus after [on(topic, a); on(topic, b)] on a new bus: one array,
    holding [a] then [b]. *)
Lemma on_on_new topic a b :
  ∃ ref, on topic b (on topic a new)
         = {| _map := {[ topic := ref ]}; arrays := {[ ref := [a; b] ]} |}.
Proof.
  exists (fresh (dom (∅ : gmap nat (list nat)))).
  unfold on at 2. unfold new; simpl. rewrite lookup_empty; simpl.
  rewrite lookup_insert_eq. unfold arrayAt; simpl. rewrite lookup_insert_eq.
  unfold on; simpl. rewrite lookup_insert_eq. unfold arrayAt; simpl.
  rewrite lookup_insert_eq. simpl.
  by rewrite !insert_insert_eq, !insert_empty.
Qed.

Lemma off_single topic ref cb l :
  off topic cb {| _map := {[ topic := ref ]}; arrays := {[ ref := l ]} |}
  = {| _map := {[ topic := ref ]}; arrays := {[ ref := spliceOut cb l ]} |}.
Proof.
  unfold off; simpl. rewrite lookup_singleton_eq. unfold arrayAt; simpl.
  rewrite lookup_singleton_eq. by rewrite insert_singleton_eq.
Qed.

End BusFacts.

(** C10. Dispatch iterates the live subscriber array, not a snapshot: when
    [a] and [b] are subscribed to a topic in that order and [a], while being
    invoked by an emit, unsubscribes itself from the topic, the emit ends
    having invoked [a] only; [b] is not invoked during that emit, and is
    still subscribed afterwards. *)
Theorem emit_skips_after_self_unsubscribe (body : nat → list EventBus.action)
    (topic : string) (a b : nat) (fuel : nat) :
  a ≠ b →
  body a = [EventBus.Off topic a] →
  ∃ bus',
    EventBus.emit body (S (S fuel)) topic
      (EventBus.on topic b (EventBus.on topic a EventBus.new), [])
    = Some (bus', [(topic, a)])
    ∧ ((topic, b) ∉ [(topic, a)])
    ∧ (∃ ref, EventBus._map bus' !! topic = Some ref
              ∧ EventBus.arrayAt bus' ref = [b]).
Proof.
  intros Hab Hbody.
  destruct (on_on_new topic a b) as [ref ->].
  exists {| EventBus._map := {[ topic := ref ]};
            EventBus.arrays := {[ ref := [b] ]} |}.
  split; [|split].
  - cbn [EventBus.emit fst snd EventBus._map]. rewrite lookup_singleton_eq.
    unfold EventBus.arrayAt at 1; cbn [EventBus.arrays fst].
    rewrite lookup_singleton_eq. cbn [lookup list_lookup app].
    rewrite Hbody. cbn [EventBus.perform fst snd].
    rewrite off_single. unfold spliceOut; cbn [indexOf].
    rewrite decide_True by done. cbn [delete list_delete].
    unfold EventBus.arrayAt; cbn [EventBus.arrays fst].
    rewrite lookup_singleton_eq. reflexivity.
  - intros [= ->]%list_elem_of_singleton. done.
  - exists ref. split; [apply lookup_singleton_eq|].
    unfold EventBus.arrayAt; simpl. by rewrite lookup_singleton_eq.
Qed.

Lemma emit_skips_after_self_unsubscribe_witness :
  ∃ bus',
    EventBus.emit (λ cb, if decide (cb = 1%nat) then [EventBus.Off "tick" 1%nat] else [])
      2 "tick" (EventBus.on "tick" 2%nat (EventBus.on "tick" 1%nat EventBus.new), [])
    = Some (bus', [("tick", 1%nat)])
    ∧ (("tick", 2%nat) ∉ [("tick", 1%nat)])
    ∧ (∃ ref, EventBus._map bus' !! "tick" = Some ref
              ∧ EventBus.arrayAt bus' ref = [2%nat]).
Proof.
  apply (emit_skips_after_self_unsubscribe
           (λ cb, if decide (cb = 1%nat) then [EventBus.Off "tick" 1%nat] else [])
           "tick" 1 2 0).
  - lia.
  - reflexivity.
Defined.

(** With subscribers that leave the bus alone, the same emit invokes both,
    in subscription order. *)
Lemma emit_in_subscription_order (body : nat → list EventBus.action)
    (topic : string) (a b : nat) (fuel : nat) :
  body a = [] → body b = [] →
  ∃ bus',
    EventBus.emit body (S (S (S fuel))) topic
      (EventBus.on topic b (EventBus.on topic a EventBus.new), [])
    = Some (bus', [(topic, a); (topic, b)]).
Proof.
  intros Ha Hb. destruct (on_on_new topic a b) as [ref ->].
  eexists.
  cbn [EventBus.emit fst snd EventBus._map]. rewrite lookup_singleton_eq.
  unfold EventBus.arrayAt; cbn [EventBus.arrays fst].
  rewrite lookup_singleton_eq. cbn [lookup list_lookup app].
  rewrite Ha. cbn [EventBus.perform fst snd EventBus.arrays].
  rewrite lookup_singleton_eq. cbn [lookup list_lookup app].
  rewrite Hb. cbn [EventBus.perform fst snd EventBus.arrays].
  rewrite lookup_singleton_eq. reflexivity.
Qed.

(** Notification ordering: two subscribers that leave the bus alone are
    invoked in subscription order, whatever the topic and the callbacks. *)
Lemma emit_inert_in_order (topic : string) (a b : nat) (fuel : nat) :
  ∃ bus',
    EventBus.emit (λ _, []) (S (S (S fuel))) topic
      (EventBus.on topic b (EventBus.on topic a EventBus.new), [])
    = Some (bus', [(topic, a); (topic, b)]).
Proof. by apply emit_in_subscription_order. Qed.

(** ** C4: the scheduler clamps dt *)

(** C4. For every animation-callback time, the [dt] passed to every
    subsystem's [update] is the elapsed wall time divided by 1000, clamped to
    at most 0.1: whatever the elapsed gap, no subsystem is passed a [dt] over
    0.1.  When the engine runs and the frame is not skipped, every
    registered subsystem is called, in registration order. *)
Theorem loop_dt_clamped (eng : Engine.t) (currentTime : Q) (raf : nat) :
  let elapsed := (currentTime - Engine._lastTime eng)%Q in
  let calls := (Engine._loop currentTime raf eng).2 in
  Forall (λ c, Engine.call_dt c = Qmin (elapsed / 1000) (1 # 10)
               ∧ (Engine.call_dt c <= 1 # 10)%Q) calls
  ∧ (Engine.isRunning eng = true →
     Qltb elapsed (Engine.targetFrameMs eng) = false →
     map Engine.call_system calls = Engine.systems eng).
Proof.
  intros elapsed calls. subst calls. unfold Engine._loop. fold elapsed.
  destruct (Engine.isRunning eng); simpl.
  - destruct (Qltb elapsed (Engine.targetFrameMs eng)); simpl.
    + split; [constructor | discriminate].
    + split.
      * apply Forall_forall. intros c [s [-> _]]%list_elem_of_fmap. simpl.
        split; [done | apply Q.le_min_r].
      * intros _ _. rewrite map_map. simpl. apply map_id.
  - split; [constructor | discriminate].
Qed.

(** A tab hidden for five seconds: the two systems are each passed 0.1. *)
Lemma loop_after_long_gap :
  map Engine.call_dt
    (Engine._loop 5000 7
       (Engine.start 1 (Engine.addSystem 2 (Engine.addSystem 1 (Engine.new 60))))).2
  = [Qmin (5000 / 1000) (1 # 10); Qmin (5000 / 1000) (1 # 10)]
  ∧ (Qmin (5000 / 1000) (1 # 10) == 1 # 10)%Q.
Proof. split; [reflexivity | vm_compute; done]. Qed.

Lemma Qltb_spec (a b : Q) : Qltb a b = true ↔ (a < b)%Q.
Proof. unfold Qltb, Qlt. apply Z.ltb_lt. Qed.

(** ** The removal queue *)

Section QueueFacts.

Import EntityManager.

Lemma queueRemove_queue entity em :
  _removeQueue (queueRemove entity em)
  = if includes entity (_removeQueue em) then _removeQueue em
    else _removeQueue em ++ [entity].
Proof. unfold queueRemove. destruct (includes _ _); done. Qed.

Lemma queueRemove_pools entity em : pools (queueRemove entity em) = pools em.
Proof. unfold queueRemove. destruct (includes _ _); done. Qed.

Lemma queueRemove_grids entity em : grids (queueRemove entity em) = grids em.
Proof. unfold queueRemove. destruct (includes _ _); done. Qed.

Lemma queueRemove_waterPollution entity em :
  waterPollution (queueRemove entity em) = waterPollution em.
Proof. unfold queueRemove. destruct (includes _ _); done. Qed.

Lemma queueRemove_biodiversity entity em :
  biodiversity (queueRemove entity em) = biodiversity em.
Proof. unfold queueRemove. destruct (includes _ _); done. Qed.

Lemma queueRemove_published entity em :
  published (queueRemove entity em) = published em.
Proof. unfold queueRemove. destruct (includes _ _); done. Qed.

Lemma queueRemove_counters entity em : counters (queueRemove entity em) = counters em.
Proof. unfold queueRemove. destruct (includes _ _); done. Qed.

Lemma queueRemove_elem_of entity em : entity ∈ _removeQueue (queueRemove entity em).
Proof.
  rewrite queueRemove_queue. unfold includes. case_bool_decide; [done|].
  apply elem_of_app. right. apply list_elem_of_singleton. done.
Qed.

Lemma queueRemove_mono entity e em :
  e ∈ _removeQueue em → e ∈ _removeQueue (queueRemove entity em).
Proof.
  intros H. rewrite queueRemove_queue. destruct (includes _ _); [done|].
  apply elem_of_app. by left.
Qed.

Lemma queueRemove_elem_of_inv entity e em :
  e ∈ _removeQueue (queueRemove entity em) → e = entity ∨ e ∈ _removeQueue em.
Proof.
  rewrite queueRemove_queue. destruct (includes _ _); [by right|].
  intros [H| ->%list_elem_of_singleton]%elem_of_app; [by right | by left].
Qed.

Lemma queueRemove_NoDup entity em :
  NoDup (_removeQueue em) → NoDup (_removeQueue (queueRemove entity em)).
Proof.
  intros Hnd. rewrite queueRemove_queue. unfold includes. case_bool_decide; [done|].
  apply NoDup_app. split; [done|]. split; [|apply NoDup_singleton].
  intros x Hx ->%list_elem_of_singleton. done.
Qed.

Lemma queueRemove_idem entity em :
  queueRemove entity (queueRemove entity em) = queueRemove entity em.
Proof.
  unfold queueRemove at 1.
  assert (H : includes entity (_removeQueue (queueRemove entity em)) = true).
  { unfold includes. apply bool_decide_eq_true. apply queueRemove_elem_of. }
  by rewrite H.
Qed.

End QueueFacts.

(** ** C9: the environmental accumulation phase *)

Section PollutionFacts.

Import PollutionSystem.

Lemma tickLifetime_other dt a b h : b ≠ a → tickLifetime dt a h !! b = h !! b.
Proof.
  intros Hne. unfold tickLifetime. destruct (h !! a); [|done].
  by rewrite lookup_insert_ne.
Qed.

(** What one turn of the loop leaves alone. *)
Lemma visit_frame dt s delta a :
  let s' := (visit dt (s, delta) a).1 in
  EntityManager.pools (entities s') = EntityManager.pools (entities s)
  ∧ EntityManager.waterPollution (entities s') = EntityManager.waterPollution (entities s)
  ∧ EntityManager.grids (entities s') = EntityManager.grids (entities s)
  ∧ (∀ e, e ∈ EntityManager._removeQueue (entities s) →
          e ∈ EntityManager._removeQueue (entities s'))
  ∧ (∀ b, b ≠ a → heap s' !! b = heap s !! b)
  ∧ (expired (heap s') a = true → a ∈ EntityManager._removeQueue (entities s')).
Proof.
  unfold visit; simpl.
  destruct (rateOf (tickLifetime dt a (heap s)) a);
    destruct (expired (tickLifetime dt a (heap s)) a) eqn:E; simpl;
    rewrite ?queueRemove_pools, ?queueRemove_waterPollution, ?queueRemove_grids;
    repeat split; try done;
    try (intros; by apply queueRemove_mono);
    try (intros; by apply tickLifetime_other);
    try (intros; apply queueRemove_elem_of);
    rewrite E; discriminate.
Qed.

Lemma visit_fold_frame dt l s delta :
  let s' := (fold_left (visit dt) l (s, delta)).1 in
  EntityManager.pools (entities s') = EntityManager.pools (entities s)
  ∧ EntityManager.waterPollution (entities s') = EntityManager.waterPollution (entities s)
  ∧ EntityManager.grids (entities s') = EntityManager.grids (entities s)
  ∧ (∀ e, e ∈ EntityManager._removeQueue (entities s) →
          e ∈ EntityManager._removeQueue (entities s'))
  ∧ (∀ b, b ∉ l → heap s' !! b = heap s !! b)
  ∧ (∀ a, a ∈ l → expired (heap s') a = true →
          a ∈ EntityManager._removeQueue (entities s')).
Proof.
  revert s delta. induction l as [|a rest IH]; intros s delta; cbn [fold_left].
  - simpl. repeat split; try done. intros a Ha. by apply elem_of_nil in Ha.
  - destruct (visit dt (s, delta) a) as [s1 d1] eqn:Ev. cbv zeta.
    pose proof (visit_frame dt s delta a) as Hv. rewrite Ev in Hv. simpl in Hv.
    destruct Hv as (Hp & Hw & Hg & Hq & Hh & He).
    specialize (IH s1 d1). simpl in IH.
    destruct IH as (Hp' & Hw' & Hg' & Hq' & Hh' & He').
    repeat split.
    + congruence.
    + congruence.
    + congruence.
    + intros e Hin. apply Hq', Hq, Hin.
    + intros b [Hb1 Hb2]%not_elem_of_cons. rewrite Hh' by done. by apply Hh.
    + intros b Hb Hexp. destruct (decide (b ∈ rest)) as [Hin|Hnot].
      * by apply He'.
      * apply elem_of_cons in Hb as [->|Hb]; [|done].
        apply Hq', He. unfold expired in *. by rewrite <- (Hh' a Hnot).
Qed.

End PollutionFacts.

(** The array the tick walks lists the entries of the three pools. *)
Lemma algaePools_elem_of (s : Game) (a : nat) :
  a ∈ PollutionSystem.algaePools s
  ↔ a ∈ EntityManager.pools (entities s) algae
    ∨ a ∈ EntityManager.pools (entities s) seagrass
    ∨ a ∈ EntityManager.pools (entities s) kelp.
Proof. unfold PollutionSystem.algaePools. by rewrite !elem_of_app. Qed.

Lemma pollution_update_pools isPaused dt s key :
  EntityManager.pools (entities (PollutionSystem.update isPaused dt s)) key
  = EntityManager.pools (entities s) key.
Proof.
  unfold PollutionSystem.update. destruct isPaused; [done|].
  destruct (fold_left _ _ _) as [s1 delta] eqn:E.
  pose proof (visit_fold_frame dt (PollutionSystem.algaePools s) s 0%Q) as H.
  rewrite E in H. simpl in H. destruct H as (Hp & _).
  destruct (Qltb _ _); simpl; by rewrite Hp.
Qed.

(** C9. Each tick of the environmental accumulation phase (the system not
    being paused) leaves the pollution scalar within [0, 100] whatever the
    per-entity contributions sum to; every contributor, that is every entry
    of the pools [algae], [seagrass] and [kelp], whose remaining lifetime is
    zero or below after the tick is in the removal queue; and no pool has
    lost or gained an entity: nothing is removed in place.  Paused or not, a
    scalar within [0, 100] before the tick is within [0, 100] after it. *)
Theorem pollution_update_clamps_and_queues (dt : Q) (s : Game) :
  let s' := PollutionSystem.update false dt s in
  (0 <= EntityManager.waterPollution (entities s') <= 100)%Q
  ∧ (∀ a e t,
       a ∈ EntityManager.pools (entities s) algae
       ∨ a ∈ EntityManager.pools (entities s) seagrass
       ∨ a ∈ EntityManager.pools (entities s) kelp →
       heap s' !! a = Some e → lifetime e = Some t → (t <= 0)%Q →
       a ∈ EntityManager._removeQueue (entities s'))
  ∧ (∀ key, EntityManager.pools (entities s') key = EntityManager.pools (entities s) key)
  ∧ (∀ a, a ∈ EntityManager._removeQueue (entities s) →
          a ∈ EntityManager._removeQueue (entities s'))
  ∧ (∀ isPaused,
       (0 <= EntityManager.waterPollution (entities s) <= 100)%Q →
       (0 <= EntityManager.waterPollution
               (entities (PollutionSystem.update isPaused dt s)) <= 100)%Q).
Proof.
  cut (let s' := PollutionSystem.update false dt s in
       (0 <= EntityManager.waterPollution (entities s') <= 100)%Q
       ∧ (∀ a e t,
            a ∈ EntityManager.pools (entities s) algae
            ∨ a ∈ EntityManager.pools (entities s) seagrass
            ∨ a ∈ EntityManager.pools (entities s) kelp →
            heap s' !! a = Some e → lifetime e = Some t → (t <= 0)%Q →
            a ∈ EntityManager._removeQueue (entities s'))
       ∧ (∀ key, EntityManager.pools (entities s') key
                 = EntityManager.pools (entities s) key)
       ∧ (∀ a, a ∈ EntityManager._removeQueue (entities s) →
               a ∈ EntityManager._removeQueue (entities s'))).
  { cbv zeta. intros (H1 & H2 & H3 & H4). repeat (split; [done|]).
    intros [] Hin; [exact Hin | apply H1]. }
  unfold PollutionSystem.update.
  destruct (fold_left _ _ _) as [s1 delta] eqn:E.
  pose proof (visit_fold_frame dt (PollutionSystem.algaePools s) s 0%Q) as H.
  rewrite E in H. simpl in H. destruct H as (Hp & Hw & Hg & Hq & Hh & He).
  set (next := Qmax 0 (Qmin 100 (EntityManager.waterPollution (entities s1) + delta))).
  assert (Hnext : (0 <= next <= 100)%Q).
  { unfold next. split; [apply Q.le_max_l|].
    apply Q.max_lub; [discriminate | apply Q.le_min_l]. }
  destruct (Qltb _ _); simpl; (split; [exact Hnext|]);
    (split; [|split; [intros key; by rewrite Hp | exact Hq]]);
    intros a e t Ha Hlook Hlife Ht; apply He;
    try (by apply algaePools_elem_of);
    unfold PollutionSystem.expired; rewrite Hlook, Hlife;
    by apply Qle_bool_iff.
Qed.

(** While the world is paused the phase does nothing at all. *)
Lemma pollution_update_paused (dt : Q) (s : Game) :
  PollutionSystem.update true dt s = s.
Proof. reflexivity. Qed.

(** ** The registry *)

Section RegistryFacts.

Import EntityManager Registry.

Lemma removalPools_all key : key ∈ removalPools.
Proof. destruct key; apply (bool_decide_unpack _); by vm_compute. Qed.

Lemma removalPools_NoDup : NoDup removalPools.
Proof. apply (bool_decide_unpack _). by vm_compute. Qed.

(** Sums of a per-pool quantity. *)
Lemma sum_ext (l : list PoolKey) (f f' : PoolKey → nat) :
  (∀ k, k ∈ l → f' k = f k) →
  foldr (λ key n, (f' key + n)%nat) 0%nat l = foldr (λ key n, (f key + n)%nat) 0%nat l.
Proof.
  induction l as [|a l IH]; intros H; simpl; [done|].
  rewrite H by left. rewrite IH; [done|]. intros k Hk. apply H. by right.
Qed.

Lemma sum_update (l : list PoolKey) (f f' : PoolKey → nat) k :
  NoDup l → k ∈ l → (∀ k', k' ≠ k → f' k' = f k') →
  (foldr (λ key n, (f' key + n)%nat) 0%nat l + f k
   = foldr (λ key n, (f key + n)%nat) 0%nat l + f' k)%nat.
Proof.
  induction l as [|a l IH]; intros Hnd Hin Hoth; [by apply elem_of_nil in Hin|].
  apply NoDup_cons in Hnd as [Ha Hnd]. simpl.
  apply elem_of_cons in Hin as [->|Hin].
  - rewrite (sum_ext l f f'); [lia|].
    intros k' Hk'. apply Hoth. intros ->. done.
  - rewrite (Hoth a) by (intros ->; done).
    specialize (IH Hnd Hin Hoth). lia.
Qed.

Lemma sum_two_le (l : list PoolKey) (f : PoolKey → nat) k k' :
  NoDup l → k ∈ l → k' ∈ l → k ≠ k' →
  (f k + f k' ≤ foldr (λ key n, (f key + n)%nat) 0%nat l)%nat.
Proof.
  intros Hnd Hk Hk' Hne.
  pose proof (sum_update l f (λ x, if decide (x = k) then 0%nat else f x) k Hnd Hk) as H1.
  simpl in H1. rewrite decide_True in H1 by done.
  specialize (H1 ltac:(intros x Hx; by rewrite decide_False)).
  assert (H2 : (f k' ≤ foldr (λ key n, ((if decide (key = k) then 0 else f key) + n)%nat)
                         0%nat l)%nat).
  { clear H1 Hk Hnd. induction l as [|a l IH]; [by apply elem_of_nil in Hk'|].
    simpl. apply elem_of_cons in Hk' as [->|Hin].
    - rewrite decide_False by done. lia.
    - specialize (IH Hin). lia. }
  lia.
Qed.

Lemma poolOcc_zero entity em : poolOcc entity em = 0%nat ↔ ∀ key, entity ∉ pools em key.
Proof.
  split.
  - intros H key. apply occ_zero.
    pose proof (sum_update removalPools (λ k, occ entity (pools em k))
                  (λ k, if decide (k = key) then 0%nat else occ entity (pools em k)) key
                  removalPools_NoDup (removalPools_all key)) as Hs.
    cbv beta in Hs. unfold poolOcc in H. rewrite H in Hs.
    specialize (Hs ltac:(intros x Hx; by rewrite decide_False)).
    rewrite decide_True in Hs by done. lia.
  - intros H. unfold poolOcc.
    rewrite (sum_ext _ (λ _, 0%nat)).
    + unfold removalPools. reflexivity.
    + intros k _. apply occ_zero, H.
Qed.

Lemma poolOcc_unique entity em k k' :
  (poolOcc entity em ≤ 1)%nat → entity ∈ pools em k → entity ∈ pools em k' → k = k'.
Proof.
  intros Hle Hk Hk'. destruct (decide (k = k')) as [|Hne]; [done|]. exfalso.
  pose proof (sum_two_le removalPools (λ x, occ entity (pools em x)) k k'
                removalPools_NoDup (removalPools_all k) (removalPools_all k') Hne) as H.
  cbv beta in H. unfold poolOcc in Hle.
  assert (occ entity (pools em k) ≠ 0%nat) by (rewrite occ_zero; tauto).
  assert (occ entity (pools em k') ≠ 0%nat) by (rewrite occ_zero; tauto).
  lia.
Qed.

(** [remove] either finds the entity nowhere and changes nothing, or
    treats the first pool that holds it. *)
Lemma removeFrom_cases h entity keys em :
  ((∀ k, k ∈ keys → entity ∉ pools em k) ∧ removeFrom h entity keys em = em)
  ∨ (∃ k, k ∈ keys ∧ entity ∈ pools em k
          ∧ removeFrom h entity keys em = removeAt h entity k em).
Proof.
  induction keys as [|key rest IH]; simpl.
  - left. split; [|done]. intros k Hk. by apply elem_of_nil in Hk.
  - destruct (indexOf entity (pools em key)) as [idx|] eqn:E.
    + right. exists key. split; [left|]. split.
      * apply indexOf_Some in E. by eapply list_elem_of_lookup_2.
      * unfold removeAt, spliceOut. by rewrite E.
    + apply indexOf_None in E. destruct IH as [[Hno Heq]|(k & Hk & Hin & Heq)].
      * left. split; [|done]. intros k [->|Hk]%elem_of_cons; [done | by apply Hno].
      * right. exists k. split; [by right | done].
Qed.

Lemma remove_cases h entity em :
  ((∀ k, entity ∉ pools em k) ∧ remove h entity em = em)
  ∨ (∃ k, entity ∈ pools em k ∧ remove h entity em = removeAt h entity k em).
Proof.
  destruct (removeFrom_cases h entity removalPools em) as [[Hno Heq]|(k & _ & Hin & Heq)].
  - left. split; [|done]. intros k. apply Hno, removalPools_all.
  - right. by exists k.
Qed.

Lemma remove_absent h entity em :
  (∀ key, entity ∉ pools em key) → remove h entity em = em.
Proof.
  intros Hno. destruct (remove_cases h entity em) as [[_ Heq]|(k & Hin & _)]; [done|].
  by destruct (Hno k).
Qed.

Lemma removeAt_pools h entity key em k :
  pools (removeAt h entity key em) k
  = if decide (k = key) then spliceOut entity (pools em key) else pools em k.
Proof. unfold removeAt. destruct (GRID_MAP key); done. Qed.

Lemma removeAt_grids h entity key em gk :
  grids (removeAt h entity key em) gk
  = if decide (GRID_MAP key = Some gk)
    then SpatialGrid.remove h entity (grids em gk) else grids em gk.
Proof.
  unfold removeAt.
  destruct (GRID_MAP key) as [gk'|] eqn:E; cbn [grids emit setGridOf setPool].
  - destruct (decide (gk = gk')) as [->|Hne].
    + by rewrite decide_True.
    + rewrite decide_False; [done | congruence].
  - by rewrite decide_False.
Qed.

Lemma removeAt_queue h entity key em :
  _removeQueue (removeAt h entity key em) = _removeQueue em.
Proof. unfold removeAt. destruct (GRID_MAP key); done. Qed.

Lemma remove_queue h entity em : _removeQueue (remove h entity em) = _removeQueue em.
Proof.
  destruct (remove_cases h entity em) as [[_ ->]|(k & _ & ->)]; [done|].
  apply removeAt_queue.
Qed.

(** Pools and buckets only ever lose the one reference removed. *)
Lemma remove_pools_occ_other h entity e' em key :
  e' ≠ entity → occ e' (pools (remove h entity em) key) = occ e' (pools em key).
Proof.
  intros Hne. destruct (remove_cases h entity em) as [[_ ->]|(k & _ & ->)]; [done|].
  rewrite removeAt_pools. destruct (decide (key = k)) as [->|]; [|done].
  by apply spliceOut_occ_other.
Qed.

Lemma remove_pools_elem_of_inv h entity e' em key :
  e' ∈ pools (remove h entity em) key → e' ∈ pools em key.
Proof.
  destruct (remove_cases h entity em) as [[_ ->]|(k & _ & ->)]; [done|].
  rewrite removeAt_pools. destruct (decide (key = k)) as [->|]; [|done].
  apply spliceOut_elem_of_inv.
Qed.

Lemma remove_cell_occ_other h entity e' em gk key :
  e' ≠ entity →
  occ e' (SpatialGrid.cellAt (grids (remove h entity em) gk) key)
  = occ e' (SpatialGrid.cellAt (grids em gk) key).
Proof.
  intros Hne. destruct (remove_cases h entity em) as [[_ ->]|(k & _ & ->)]; [done|].
  rewrite removeAt_grids. destruct (decide _); [|done].
  by apply remove_other_occ.
Qed.

Lemma remove_cell_elem_of_inv h entity e' em gk key :
  e' ∈ SpatialGrid.cellAt (grids (remove h entity em) gk) key →
  e' ∈ SpatialGrid.cellAt (grids em gk) key.
Proof.
  destruct (remove_cases h entity em) as [[_ ->]|(k & _ & ->)]; [done|].
  rewrite removeAt_grids. destruct (decide _); [|done].
  rewrite cellAt_remove. destruct (decide _); [|done].
  apply spliceOut_elem_of_inv.
Qed.

Lemma remove_cellSize h entity em gk :
  SpatialGrid.cellSize (grids (remove h entity em) gk) = SpatialGrid.cellSize (grids em gk).
Proof.
  destruct (remove_cases h entity em) as [[_ ->]|(k & _ & ->)]; [done|].
  rewrite removeAt_grids. destruct (decide _); done.
Qed.

Lemma poolOcc_remove_other h entity e' em :
  e' ≠ entity → poolOcc e' (remove h entity em) = poolOcc e' em.
Proof.
  intros Hne. unfold poolOcc. apply sum_ext. intros k _.
  by apply remove_pools_occ_other.
Qed.

Lemma poolOcc_remove_same h entity em :
  poolOcc entity (remove h entity em) = pred (poolOcc entity em).
Proof.
  destruct (remove_cases h entity em) as [[Hno ->]|(k & Hin & ->)].
  - apply poolOcc_zero in Hno. by rewrite Hno.
  - unfold poolOcc.
    pose proof (sum_update removalPools (λ x, occ entity (pools em x))
                  (λ x, occ entity (pools (removeAt h entity k em) x)) k
                  removalPools_NoDup (removalPools_all k)) as H.
    cbv beta in H.
    specialize (H ltac:(intros x Hx; by rewrite removeAt_pools, decide_False)).
    rewrite removeAt_pools, decide_True, spliceOut_occ_same in H by done.
    assert (occ entity (pools em k) ≠ 0%nat) by (rewrite occ_zero; tauto).
    lia.
Qed.

(** The nested loops of [countSpecies] count the matching entries of the
    concatenated arrays. *)
Lemma countSpecies_inner h def arr (n : Z) :
  fold_left (λ n e, if sameSpecies h def e then (n + 1)%Z else n) arr n
  = (n + Z.of_nat (matching h def arr))%Z.
Proof.
  revert n. induction arr as [|e arr IH]; intros n; simpl.
  - unfold matching. simpl. lia.
  - rewrite IH. unfold matching. rewrite filter_cons.
    destruct (sameSpecies h def e) eqn:E.
    + rewrite decide_True by done. simpl length. lia.
    + rewrite decide_False by discriminate. lia.
Qed.

Lemma matching_app h def l1 l2 :
  matching h def (l1 ++ l2) = (matching h def l1 + matching h def l2)%nat.
Proof. unfold matching. by rewrite filter_app, length_app. Qed.

Lemma countSpecies_outer h def (arrs : list (list nat)) (n : Z) :
  fold_left (λ n arr, fold_left (λ n e, if sameSpecies h def e then (n + 1)%Z else n) arr n)
    arrs n
  = (n + Z.of_nat (matching h def (concat arrs)))%Z.
Proof.
  revert n. induction arrs as [|arr arrs IH]; intros n; simpl.
  - unfold matching. simpl. lia.
  - rewrite IH, countSpecies_inner, matching_app. lia.
Qed.

Lemma countSpecies_liveCount h em def : countSpecies h em def = liveCount h em def.
Proof. unfold countSpecies, liveCount. rewrite countSpecies_outer. lia. Qed.

End RegistryFacts.

(** ** C1: canSpawn *)

Lemma matching_none h def arr :
  (∀ e, e ∈ arr → EntityManager.sameSpecies h def e = false) →
  Registry.matching h def arr = 0%nat.
Proof.
  unfold Registry.matching. induction arr as [|a arr IH]; intros H; [done|].
  rewrite filter_cons, decide_False.
  - apply IH. intros e He. apply H. by right.
  - rewrite H by left. discriminate.
Qed.

(** With two sharks in the [islands] pool and a cap of two, [canSpawn]
    still answers yes: the scan of [allArrays] does not visit [islands]. *)
Lemma canSpawn_skips_islands :
  EntityManager.canSpawn Scenario.twoSharks Scenario.sharksOnIslands (SPECIES.SHARK true) = true
  ∧ ¬ (Registry.liveCount_all_pools Scenario.twoSharks Scenario.sharksOnIslands
         (SPECIES.SHARK true) < MAX_COUNT (SPECIES.SHARK true))%Z.
Proof. split; [by vm_compute | vm_compute; discriminate]. Qed.

(** C1 (amended). For every species descriptor and every registry state,
    [canSpawn] is true if and only if the number of entities in the pools
    of [allArrays] (every pool but [islands]) whose descriptor carries the
    descriptor's id is strictly below its [MAX_COUNT]; while the count does
    not exceed the cap, it is false exactly when the count equals the cap.
    When no entity of the [islands] pool carries the id, that count is the
    count over all twelve pools. *)
Theorem canSpawn_iff_below_cap (h : gmap nat Entity) (em : EntityManager.t)
    (def : SpeciesDef) :
  (EntityManager.canSpawn h em def = true
   ↔ (Registry.liveCount h em def < MAX_COUNT def)%Z)
  ∧ ((Registry.liveCount h em def ≤ MAX_COUNT def)%Z →
     (EntityManager.canSpawn h em def = false
      ↔ Registry.liveCount h em def = MAX_COUNT def))
  ∧ ((∀ e, e ∈ EntityManager.pools em islands →
           EntityManager.sameSpecies h def e = false) →
     Registry.liveCount_all_pools h em def = Registry.liveCount h em def).
Proof.
  unfold EntityManager.canSpawn. rewrite countSpecies_liveCount. split; [|split].
  - apply bool_decide_eq_true.
  - intros Hle. rewrite bool_decide_eq_false. lia.
  - intros Hisl. unfold Registry.liveCount_all_pools, Registry.liveCount.
    f_equal. unfold EntityManager.allArrays, EntityManager.removalPools.
    cbn [map concat]. rewrite !matching_app.
    assert (H0 : Registry.matching h def (EntityManager.pools em islands) = 0%nat).
    { by apply matching_none. }
    rewrite H0. lia.
Qed.

(** ** C7: queueRemove is idempotent *)

Section FlushFacts.

Import EntityManager Registry.

Lemma queueAll_pools calls em : pools (queueAll calls em) = pools em.
Proof.
  revert em. induction calls as [|e calls IH]; intros em; [done|].
  unfold queueAll in *. simpl. by rewrite IH, queueRemove_pools.
Qed.

Lemma queueAll_grids calls em : grids (queueAll calls em) = grids em.
Proof.
  revert em. induction calls as [|e calls IH]; intros em; [done|].
  unfold queueAll in *. simpl. by rewrite IH, queueRemove_grids.
Qed.

Lemma queueAll_NoDup calls em :
  NoDup (_removeQueue em) → NoDup (_removeQueue (queueAll calls em)).
Proof.
  revert em. induction calls as [|e calls IH]; intros em Hnd; [done|].
  unfold queueAll in *. simpl. by apply IH, queueRemove_NoDup.
Qed.

Lemma queueAll_mono calls em e :
  e ∈ _removeQueue em → e ∈ _removeQueue (queueAll calls em).
Proof.
  revert em. induction calls as [|a calls IH]; intros em Hin; [done|].
  unfold queueAll in *. simpl. by apply IH, queueRemove_mono.
Qed.

Lemma queueAll_elem_of calls em e :
  e ∈ calls → e ∈ _removeQueue (queueAll calls em).
Proof.
  revert em. induction calls as [|a calls IH]; intros em Hin; [by apply elem_of_nil in Hin|].
  apply elem_of_cons in Hin as [->|Hin].
  - apply (queueAll_mono calls (queueRemove a em)), queueRemove_elem_of.
  - apply (IH (queueRemove a em) Hin).
Qed.

(** A run of removals takes out of the pools as many occurrences of an
    entity as the run names it, as far as there are any. *)
Lemma poolOcc_removals h entity q em :
  poolOcc entity (fold_left (λ em e, remove h e em) q em)
  = (poolOcc entity em - occ entity q)%nat.
Proof.
  revert em. induction q as [|a q IH]; intros em; simpl.
  - rewrite occ_nil. lia.
  - rewrite IH, occ_cons. destruct (decide (a = entity)) as [->|Hne].
    + rewrite poolOcc_remove_same. lia.
    + rewrite poolOcc_remove_other by done. simpl. lia.
Qed.

Lemma flushRemovals_queue h em : _removeQueue (flushRemovals h em) = [].
Proof. done. Qed.

Lemma removals_queue h q em :
  _removeQueue (fold_left (λ em e, remove h e em) q em) = _removeQueue em.
Proof.
  revert em. induction q as [|a q IH]; intros em; simpl; [done|].
  by rewrite IH, remove_queue.
Qed.

Lemma setQueue_nil_id em : _removeQueue em = [] → setQueue [] em = em.
Proof. destruct em; simpl; intros ->; done. Qed.

Lemma flushRemovals_twice h em :
  flushRemovals h (flushRemovals h em) = flushRemovals h em.
Proof.
  unfold flushRemovals at 1. rewrite flushRemovals_queue. simpl.
  apply setQueue_nil_id, flushRemovals_queue.
Qed.

Lemma removals_absent h q em :
  (∀ e key, e ∈ q → e ∉ pools em key) →
  fold_left (λ em e, remove h e em) q em = em.
Proof.
  induction q as [|a q IH]; intros Hno; simpl; [done|].
  rewrite remove_absent.
  - apply IH. intros e key He. apply Hno. by right.
  - intros key. apply Hno. left.
Qed.

End FlushFacts.

Section QueueInvariant.

Import EntityManager Registry Simulation.

Variable isMobile : bool.

Lemma add_queue h entity poolKey useGrid em :
  _removeQueue (add h entity poolKey useGrid em) = _removeQueue em.
Proof. unfold add. destruct useGrid; [destruct (GRID_MAP poolKey)|]; done. Qed.

Lemma visit_fold_NoDup dt l s delta :
  NoDup (_removeQueue (entities s)) →
  NoDup (_removeQueue (entities (fold_left (PollutionSystem.visit dt) l (s, delta)).1)).
Proof.
  revert s delta. induction l as [|a l IH]; intros s delta Hnd; cbn [fold_left]; [done|].
  destruct (PollutionSystem.visit dt (s, delta) a) as [s1 d1] eqn:Ev. apply IH.
  unfold PollutionSystem.visit in Ev.
  destruct (PollutionSystem.expired _ _); injection Ev as <- _; simpl; [|done].
  by apply queueRemove_NoDup.
Qed.

Lemma queue_fold_NoDup (l : list nat) s :
  NoDup (_removeQueue (entities s)) →
  NoDup (_removeQueue (entities (fold_left (λ s a, withEntities (queueRemove a) s) l s))).
Proof.
  revert s. induction l as [|a l IH]; intros s Hnd; simpl; [done|].
  apply IH. simpl. by apply queueRemove_NoDup.
Qed.

(** Operations that register at most one new entity leave the queue as it
    is. *)
Ltac queue_kept :=
  repeat first
    [ progress cbn [negb fst snd heap entities _removeQueue bump setGridOf withEntities
                    Spawners.construct Spawners.register]
    | rewrite add_queue
    | match goal with
      | |- context [Spawners.canSpawn ?s ?d] => destruct (Spawners.canSpawn s d)
      | |- context [bool_decide ?P] => destruct (bool_decide P)
      | |- context [if ?b then _ else _] => destruct b
      end ];
  try done.

Lemma step_queue_NoDup s s' :
  step isMobile s s' →
  NoDup (_removeQueue (entities s)) → NoDup (_removeQueue (entities s')).
Proof.
  intros Hstep Hnd. destruct Hstep.
  - unfold Spawners.addBird. queue_kept.
  - unfold Spawners.spawnFish. queue_kept.
  - unfold Spawners.addFish, Spawners.spawnFish. queue_kept.
  - unfold Spawners.addOctopus, Spawners.spawnFish. queue_kept.
  - unfold Spawners.addPredator. queue_kept.
  - unfold Spawners.spawnSeaCreature. queue_kept.
  - unfold Spawners.addSeaCreature. queue_kept.
  - unfold Spawners.addFood. queue_kept.
  - unfold Spawners.addFoodAt. queue_kept.
  - unfold Spawners.spawnBabyShrimp. queue_kept.
  - unfold Spawners.addBabyShrimp, Spawners.spawnBabyShrimp. queue_kept.
  - unfold Spawners.addAlgae. queue_kept.
  - unfold Spawners.addKelp. queue_kept.
  - unfold Spawners.addSeagrass. queue_kept.
  - unfold Spawners.addIsland. queue_kept.
  - unfold Spawners.createEgg. queue_kept.
  - unfold Spawners.addElixir. queue_kept.
  - unfold Spawners.hatch.
    destruct (Spawners.canSpawn s _); cbn [negb]; simpl; apply queueRemove_NoDup;
      [by rewrite add_queue | done].
  - unfold Spawners.breed. destruct (heap s !! this) as [parent|]; [|done].
    destruct (speciesDef parent); [|done]. queue_kept.
  - unfold Spawners._onElixirOpened. simpl. by apply queue_fold_NoDup.
  - simpl. by apply queueRemove_NoDup.
  - simpl. apply NoDup_nil_2.
  - done.
  - unfold PollutionSystem.update. destruct isPaused; [done|].
    pose proof (visit_fold_NoDup dt (PollutionSystem.algaePools s) s 0%Q Hnd) as H.
    destruct (fold_left _ _ _) as [s1 delta]. simpl in H.
    destruct (Qltb _ _); exact H.
  - done.
Qed.

(** In every reachable state the removal queue names no entity twice. *)
Lemma reachable_queue_NoDup s :
  reachable isMobile s → NoDup (_removeQueue (entities s)).
Proof.
  unfold reachable. revert s.
  apply (rtc_ind_r (λ s, NoDup (_removeQueue (entities s))) (initial)).
  - apply NoDup_nil_2.
  - intros y z _ Hstep Hnd. by eapply step_queue_NoDup.
Qed.

End QueueInvariant.

(** C7. [queueRemove] is idempotent: queueing an entity twice leaves the
    queue that queueing it once leaves.  A queue without duplicates stays
    without duplicates whatever is queued, and the queue of every state the
    game reaches is one: an entity appears in it at most once, and exactly
    once right after it is queued.  A flush takes exactly one occurrence of
    an entity that is queued once out of the pools (none when no pool holds
    it). *)
Theorem queueRemove_idempotent :
  (∀ entity em,
     EntityManager.queueRemove entity (EntityManager.queueRemove entity em)
     = EntityManager.queueRemove entity em)
  ∧ (∀ calls em,
       NoDup (EntityManager._removeQueue em) →
       NoDup (EntityManager._removeQueue (Registry.queueAll calls em)))
  ∧ (∀ isMobile s calls,
       Simulation.reachable isMobile s →
       NoDup (EntityManager._removeQueue (Registry.queueAll calls (entities s))))
  ∧ (∀ entity em,
       NoDup (EntityManager._removeQueue em) →
       occ entity (EntityManager._removeQueue (EntityManager.queueRemove entity em)) = 1%nat)
  ∧ (∀ h entity em,
       occ entity (EntityManager._removeQueue em) = 1%nat →
       Registry.poolOcc entity (EntityManager.flushRemovals h em)
       = pred (Registry.poolOcc entity em)).
Proof.
  split; [|split; [|split; [|split]]].
  - apply queueRemove_idem.
  - apply queueAll_NoDup.
  - intros isMobile s calls Hreach. by eapply queueAll_NoDup, reachable_queue_NoDup.
  - intros entity em Hnd.
    pose proof (occ_NoDup entity _ (queueRemove_NoDup entity em Hnd)) as Hle.
    pose proof (queueRemove_elem_of entity em) as Hin.
    assert (occ entity (EntityManager._removeQueue (EntityManager.queueRemove entity em))
            ≠ 0%nat) by (rewrite occ_zero; tauto).
    lia.
  - intros h entity em Hocc. unfold EntityManager.flushRemovals.
    change (Registry.poolOcc entity (EntityManager.setQueue [] ?e))
      with (Registry.poolOcc entity e).
    rewrite poolOcc_removals, Hocc. lia.
Qed.

(** ** C6: removing what is no longer there *)

(** C6. Queueing or removing an entity that no pool holds is a silent no-op:
    [remove] returns the registry as it was; [queueRemove] changes nothing
    but the queue (pools, grids, environment state and published
    notifications are as before); flushing a queue that names only absent
    entities changes nothing but emptying the queue; and a flush right after
    a flush is a no-op. *)
Theorem stale_removal_is_noop (h : gmap nat Entity) (em : EntityManager.t)
    (entity : nat) :
  (∀ key, entity ∉ EntityManager.pools em key) →
  EntityManager.remove h entity em = em
  ∧ (let em' := EntityManager.queueRemove entity em in
     EntityManager.pools em' = EntityManager.pools em
     ∧ EntityManager.grids em' = EntityManager.grids em
     ∧ EntityManager.waterPollution em' = EntityManager.waterPollution em
     ∧ EntityManager.biodiversity em' = EntityManager.biodiversity em
     ∧ EntityManager.published em' = EntityManager.published em)
  ∧ (EntityManager._removeQueue em = [] →
     EntityManager.flushRemovals h (EntityManager.queueRemove entity em) = em)
  ∧ (∀ em0, EntityManager.flushRemovals h (EntityManager.flushRemovals h em0)
            = EntityManager.flushRemovals h em0).
Proof.
  intros Hno. split; [by apply remove_absent|]. split; [|split].
  - cbv zeta. rewrite queueRemove_pools, queueRemove_grids, queueRemove_waterPollution,
      queueRemove_biodiversity, queueRemove_published. done.
  - intros Hq. unfold EntityManager.flushRemovals.
    rewrite removals_absent.
    + unfold EntityManager.queueRemove. rewrite Hq. simpl.
      destruct em; simpl in *; by subst.
    + intros e key He. rewrite queueRemove_pools.
      apply queueRemove_elem_of_inv in He as [->|He]; [apply Hno|].
      rewrite Hq in He. by apply elem_of_nil in He.
  - apply flushRemovals_twice.
Qed.

Lemma stale_removal_is_noop_witness :
  EntityManager.remove Scenario.oneAt10 7 Scenario.oneFish = Scenario.oneFish
  ∧ EntityManager.flushRemovals Scenario.oneAt10
      (EntityManager.queueRemove 7 Scenario.oneFish) = Scenario.oneFish.
Proof.
  assert (Hno : ∀ key, 7%nat ∉ EntityManager.pools Scenario.oneFish key).
  { intros key Hin. destruct key; vm_compute in Hin;
      repeat (apply elem_of_cons in Hin as [Hin|Hin]; [discriminate|]);
      by apply elem_of_nil in Hin. }
  destruct (stale_removal_is_noop Scenario.oneAt10 Scenario.oneFish 7 Hno)
    as (H1 & _ & H3 & _).
  split; [exact H1 | exact (H3 eq_refl)].
Defined.

(** ** C2: what a flush leaves behind *)

Section FlushClean.

Import EntityManager Registry.

Lemma gone_wellIndexed h em e : gone em e → wellIndexed h em e.
Proof.
  intros [Hp Hg]. split.
  - apply poolOcc_zero in Hp. lia.
  - intros gk key Hin. destruct (Hg gk). by exists key.
Qed.

Lemma gone_remove h em e e' : gone em e → gone (remove h e' em) e.
Proof.
  intros [Hp Hg]. split.
  - intros key Hin. apply remove_pools_elem_of_inv in Hin. by destruct (Hp key).
  - intros gk [key Hin]. apply remove_cell_elem_of_inv in Hin.
    destruct (Hg gk). by exists key.
Qed.

Lemma gone_removals h q em e :
  gone em e → gone (fold_left (λ em e, remove h e em) q em) e.
Proof.
  revert em. induction q as [|a q IH]; intros em Hg; simpl; [done|].
  by apply IH, gone_remove.
Qed.

Lemma remove_gone h em e : wellIndexed h em e → gone (remove h e em) e.
Proof.
  intros [Hocc Hgrid].
  assert (Hpools : ∀ key, e ∉ pools (remove h e em) key).
  { apply poolOcc_zero. rewrite poolOcc_remove_same. lia. }
  split; [exact Hpools|].
  intros gk [key Hin].
  pose proof (remove_cell_elem_of_inv _ _ _ _ _ _ Hin) as Hin0.
  destruct (Hgrid gk key Hin0) as (Hkey & Hone & poolKey & Hmap & Hpool).
  destruct (remove_cases h e em) as [[Hno _]|(k & Hk & Heq)].
  - by destruct (Hno poolKey).
  - assert (poolKey = k) as -> by (by eapply poolOcc_unique).
    rewrite Heq, removeAt_grids, decide_True in Hin by done.
    apply occ_zero in Hin; [done|].
    rewrite remove_same_occ, decide_True by done. by rewrite Hone.
Qed.

Lemma remove_wellIndexed h em e e' :
  wellIndexed h em e → wellIndexed h (remove h e' em) e.
Proof.
  intros Hw. destruct (decide (e' = e)) as [->|Hne].
  { by apply gone_wellIndexed, remove_gone. }
  destruct Hw as [Hocc Hgrid]. split.
  - by rewrite poolOcc_remove_other.
  - intros gk key Hin.
    pose proof (remove_cell_elem_of_inv _ _ _ _ _ _ Hin) as Hin0.
    destruct (Hgrid gk key Hin0) as (Hkey & Hone & poolKey & Hmap & Hpool).
    split; [|split].
    + rewrite Hkey. symmetry. apply key_cellSize, remove_cellSize.
    + by rewrite remove_cell_occ_other.
    + exists poolKey. split; [done|].
      destruct (decide (e ∈ pools (remove h e' em) poolKey)) as [|Hn]; [done|].
      apply occ_zero in Hn. rewrite remove_pools_occ_other in Hn by done.
      apply occ_zero in Hn. done.
Qed.

Lemma removals_gone h q em :
  (∀ e, e ∈ q → wellIndexed h em e) →
  ∀ e, e ∈ q → gone (fold_left (λ em e, remove h e em) q em) e.
Proof.
  revert em. induction q as [|a q IH]; intros em Hw e He; [by apply elem_of_nil in He|].
  simpl. destruct (decide (e ∈ q)) as [Hin|Hnot].
  - apply IH; [|done]. intros e0 He0. apply remove_wellIndexed, Hw. by right.
  - apply elem_of_cons in He as [->|He]; [|done].
    apply gone_removals, remove_gone, Hw. left.
Qed.

Lemma wellIndexed_queueAll h calls em e :
  wellIndexed h em e → wellIndexed h (queueAll calls em) e.
Proof.
  unfold wellIndexed, poolOcc. by rewrite queueAll_pools, queueAll_grids.
Qed.

End FlushClean.

Lemma setPos_keepsSpecies h obj nx ny : Simulation.keepsSpecies h (setPos h obj nx ny).
Proof.
  intros o. unfold setPos. destruct (h !! obj) as [e|] eqn:E; [|done].
  destruct (decide (o = obj)) as [->|Hne].
  - by rewrite lookup_insert_eq, E.
  - by rewrite lookup_insert_ne.
Qed.



Lemma cellAt_new cs key : SpatialGrid.cellAt (SpatialGrid.new cs) key = [].
Proof. unfold SpatialGrid.cellAt. simpl. by rewrite lookup_empty. Qed.

(** The one-fish registry indexes object 0 only, in bucket (0, 0) of the
    fish grid. *)
Lemma oneFish_cells gk key e :
  e ∈ SpatialGrid.cellAt (EntityManager.grids Scenario.oneFish gk) key →
  gk = grid_fish ∧ key = (0, 0)%Z ∧ e = 0%nat.
Proof.
  destruct gk;
    try (vm_compute; intros H; by apply elem_of_nil in H).
  unfold Scenario.oneFish, EntityManager.add. cbn [GRID_MAP].
  cbn [EntityManager.grids EntityManager.emit EntityManager.setGridOf
       EntityManager.setPool EntityManager.new].
  rewrite decide_True by done. rewrite cellAt_add, cellAt_new.
  destruct (decide _) as [->|]; [|intros H; by apply elem_of_nil in H].
  intros ->%list_elem_of_singleton. done.
Qed.

Lemma oneFish_wellIndexed e :
  e = 0%nat ∨ e = 7%nat → Registry.wellIndexed Scenario.oneAt10 Scenario.oneFish e.
Proof.
  intros He. split.
  - destruct He as [->| ->]; vm_compute; lia.
  - intros gk key Hin. destruct (oneFish_cells gk key e Hin) as (-> & -> & ->).
    split; [by vm_compute|]. split; [by vm_compute|].
    exists fish. split; [done|]. vm_compute. left.
Qed.


(** ** C3: population caps *)

Section TableFacts.

Variable isMobile : bool.

Lemma NoDup_fmap_eq {A B : Type} (f : A → B) (l : list A) (x y : A) :
  NoDup (f <$> l) → x ∈ l → y ∈ l → f x = f y → x = y.
Proof.
  induction l as [|a l IH]; intros Hnd Hx Hy Hf; [by apply elem_of_nil in Hx|].
  rewrite fmap_cons in Hnd. apply NoDup_cons in Hnd as [Ha Hnd].
  apply elem_of_cons in Hx as [->|Hx]; apply elem_of_cons in Hy as [->|Hy].
  - done.
  - destruct Ha. rewrite Hf. by apply list_elem_of_fmap_2.
  - destruct Ha. rewrite <- Hf. by apply list_elem_of_fmap_2.
  - by apply IH.
Qed.

(** The ids of the species table are pairwise distinct. *)
Lemma table_ids_NoDup : NoDup (def_id <$> SPECIES.all isMobile).
Proof. destruct isMobile; apply (bool_decide_unpack _); by vm_compute. Qed.

Lemma table_ids_unique d d' :
  d ∈ SPECIES.all isMobile → d' ∈ SPECIES.all isMobile →
  def_id d = def_id d' → d = d'.
Proof. apply NoDup_fmap_eq, table_ids_NoDup. Qed.

(** No cap of the table is negative, halved or not. *)
Lemma table_caps_nonneg d : d ∈ SPECIES.all isMobile → (0 ≤ MAX_COUNT d)%Z.
Proof.
  revert d. apply Forall_forall.
  destruct isMobile; apply (bool_decide_unpack _); by vm_compute.
Qed.

End TableFacts.

Section CountFacts.

Import EntityManager Registry.

Lemma allArrays_scanned em : allArrays em = map (pools em) scanned.
Proof. done. Qed.

Lemma matching_concat_map h def (f : PoolKey → list nat) (l : list PoolKey) :
  matching h def (concat (map f l))
  = foldr (λ key n, (matching h def (f key) + n)%nat) 0%nat l.
Proof.
  induction l as [|k l IH]; [done|].
  cbn [map concat foldr]. by rewrite matching_app, IH.
Qed.

Lemma liveCount_sum h em def :
  liveCount h em def
  = Z.of_nat (foldr (λ key n, (matching h def (pools em key) + n)%nat) 0%nat scanned).
Proof. unfold liveCount. by rewrite allArrays_scanned, matching_concat_map. Qed.

Lemma scanned_NoDup : NoDup scanned.
Proof. apply (bool_decide_unpack _). by vm_compute. Qed.

Lemma scanned_elem_of key : key ∈ scanned ↔ key ≠ islands.
Proof.
  destruct key; split; try done;
    try (intros _; apply (bool_decide_unpack _); by vm_compute).
  intros H. exfalso. revert H. apply (bool_decide_unpack _). by vm_compute.
Qed.

Lemma sum_mono (l : list PoolKey) (f f' : PoolKey → nat) :
  (∀ k, (f' k ≤ f k)%nat) →
  (foldr (λ key n, (f' key + n)%nat) 0%nat l
   ≤ foldr (λ key n, (f key + n)%nat) 0%nat l)%nat.
Proof.
  intros H. induction l as [|a l IH]; simpl; [lia|]. specialize (H a). lia.
Qed.

Lemma matching_cons h def a arr :
  matching h def (a :: arr)
  = ((if sameSpecies h def a then 1 else 0) + matching h def arr)%nat.
Proof.
  unfold matching. rewrite filter_cons. destruct (sameSpecies h def a).
  - by rewrite decide_True.
  - by rewrite decide_False.
Qed.

Lemma matching_delete_le h def arr i :
  (matching h def (delete i arr) ≤ matching h def arr)%nat.
Proof.
  revert i. induction arr as [|a arr IH]; intros i; [done|].
  destruct i as [|i]; simpl.
  - rewrite matching_cons. lia.
  - rewrite !matching_cons. specialize (IH i). lia.
Qed.

Lemma matching_spliceOut_le h def e arr :
  (matching h def (spliceOut e arr) ≤ matching h def arr)%nat.
Proof.
  unfold spliceOut. destruct (indexOf e arr); [apply matching_delete_le | done].
Qed.

(** The count depends on the store only through the descriptors of the
    pooled objects. *)
Lemma sameSpecies_ext h h' def e :
  speciesDef <$> (h' !! e) = speciesDef <$> (h !! e) →
  sameSpecies h' def e = sameSpecies h def e.
Proof.
  unfold sameSpecies. destruct (h' !! e), (h !! e); simpl; intros [=]; [|done].
  by rewrite H0.
Qed.

Lemma matching_ext h h' def arr :
  (∀ e, e ∈ arr → speciesDef <$> (h' !! e) = speciesDef <$> (h !! e)) →
  matching h' def arr = matching h def arr.
Proof.
  induction arr as [|a arr IH]; intros H; [done|].
  rewrite !matching_cons, (sameSpecies_ext h h') by (apply H; left).
  rewrite IH; [done|]. intros e He. apply H. by right.
Qed.

Lemma liveCount_ext h h' em em' def :
  (∀ key, pools em' key = pools em key) →
  (∀ key e, e ∈ pools em key → speciesDef <$> (h' !! e) = speciesDef <$> (h !! e)) →
  liveCount h' em' def = liveCount h em def.
Proof.
  intros Hp Hs. rewrite !liveCount_sum. f_equal. apply sum_ext.
  intros k _. rewrite Hp. apply matching_ext, Hs.
Qed.

Lemma add_pools h entity poolKey useGrid em key :
  pools (add h entity poolKey useGrid em) key
  = if decide (key = poolKey) then pools em poolKey ++ [entity] else pools em key.
Proof.
  unfold add. destruct useGrid; [destruct (GRID_MAP poolKey)|]; done.
Qed.

(** Adding an entity raises the count of its own species by one, unless
    it goes to [islands], and no other count. *)
Lemma liveCount_add h entity poolKey useGrid em def :
  liveCount h (add h entity poolKey useGrid em) def
  = (liveCount h em def
     + (if decide (poolKey = islands) then 0
        else if sameSpecies h def entity then 1 else 0))%Z.
Proof.
  rewrite !liveCount_sum. destruct (decide (poolKey = islands)) as [->|Hne].
  - rewrite Z.add_0_r. f_equal. apply sum_ext. intros k Hk.
    rewrite add_pools, decide_False; [done|]. by apply scanned_elem_of.
  - pose proof (sum_update scanned (λ k, matching h def (pools em k))
                  (λ k, matching h def (pools (add h entity poolKey useGrid em) k))
                  poolKey scanned_NoDup) as H.
    cbv beta in H.
    specialize (H ltac:(by apply scanned_elem_of)
                  ltac:(intros k Hk; by rewrite add_pools, decide_False)).
    rewrite add_pools, decide_True, matching_app in H by done.
    rewrite (matching_cons h def entity []) in H.
    change (matching h def []) with 0%nat in H.
    destruct (sameSpecies h def entity); lia.
Qed.

Lemma liveCount_remove_le h entity em def :
  (liveCount h (remove h entity em) def ≤ liveCount h em def)%Z.
Proof.
  rewrite !liveCount_sum. apply inj_le, sum_mono. intros k.
  destruct (remove_cases h entity em) as [[_ ->]|(k0 & _ & ->)]; [done|].
  rewrite removeAt_pools. destruct (decide _) as [->|]; [|done].
  apply matching_spliceOut_le.
Qed.

Lemma liveCount_removals_le h q em def :
  (liveCount h (fold_left (λ em e, remove h e em) q em) def ≤ liveCount h em def)%Z.
Proof.
  revert em. induction q as [|a q IH]; intros em; simpl; [done|].
  etrans; [apply IH | apply liveCount_remove_le].
Qed.

Lemma removals_pools_elem_of_inv h q em key e :
  e ∈ pools (fold_left (λ em e, remove h e em) q em) key → e ∈ pools em key.
Proof.
  revert em. induction q as [|a q IH]; intros em; simpl; [done|].
  intros H. apply IH in H. by apply remove_pools_elem_of_inv in H.
Qed.

End CountFacts.

Section CapInvariant.

Import EntityManager Registry Simulation.

Variable isMobile : bool.

Local Abbreviation Inv s := (withinCaps isMobile s ∧ wellFormed isMobile s).

Lemma fresh_not_in_heap (h : gmap nat Entity) : h !! fresh (dom h) = None.
Proof. apply not_elem_of_dom, is_fresh. Qed.

Lemma Inv_initial : Inv (initial).
Proof.
  split; [|split].
  - intros def Hdef. rewrite countSpecies_liveCount.
    change (liveCount (heap initial) (entities initial) def) with 0%Z.
    by eapply table_caps_nonneg.
  - intros key obj Hin. by apply elem_of_nil in Hin.
  - split.
    + intros obj e def Hlook. cbn [initial heap] in Hlook. by rewrite lookup_empty in Hlook.
    + intros obj. vm_compute. lia.
Qed.

(** Steps that keep the pools and the descriptors. *)
Lemma Inv_frame s s' :
  Inv s →
  (∀ key, pools (entities s') key = pools (entities s) key) →
  keepsSpecies (heap s) (heap s') →
  Inv s'.
Proof.
  intros (Hcap & Hdom & Htab & Hone) Hp Hk. split; [|split; [|split]].
  - intros def Hdef. rewrite countSpecies_liveCount.
    rewrite (liveCount_ext (heap s) (heap s') (entities s) (entities s')); [|done|].
    + rewrite <- countSpecies_liveCount. by apply Hcap.
    + intros key e _. apply Hk.
  - intros key obj Hin. rewrite Hp in Hin. destruct (Hdom key obj Hin) as [e He].
    specialize (Hk obj). rewrite He in Hk. destruct (heap s' !! obj); [eauto|done].
  - intros obj e def Hlook Hdef. specialize (Hk obj). rewrite Hlook in Hk.
    destruct (heap s !! obj) as [e0|] eqn:E0; [|done].
    simpl in Hk. injection Hk as Hk. apply (Htab obj e0 def E0). congruence.
  - intros obj. unfold poolOcc. rewrite (sum_ext _ (λ k, occ obj (pools (entities s) k))).
    + apply Hone.
    + intros k _. by rewrite Hp.
Qed.

Lemma keepsSpecies_refl h : keepsSpecies h h.
Proof. done. Qed.

(** A flush only takes entities out. *)
Lemma Inv_flush s : Inv s → Inv (withEntities (flushRemovals (heap s)) s).
Proof.
  intros (Hcap & Hdom & Htab & Hone). split; [|split; [|split]].
  - intros def Hdef. rewrite countSpecies_liveCount. simpl.
    unfold flushRemovals.
    change (liveCount ?h (setQueue [] ?x) def) with (liveCount h x def).
    etrans; [apply liveCount_removals_le|].
    rewrite <- countSpecies_liveCount. by apply Hcap.
  - intros key obj Hin. simpl in *. apply removals_pools_elem_of_inv in Hin.
    by eapply Hdom.
  - done.
  - intros obj. simpl. unfold flushRemovals.
    change (poolOcc obj (setQueue [] ?x)) with (poolOcc obj x).
    rewrite poolOcc_removals. specialize (Hone obj). lia.
Qed.

(** A new object registered in a pool, behind the [canSpawn] gate when it
    carries a descriptor. *)
Lemma Inv_add_fresh s obj ent em1 poolKey useGrid :
  Inv s →
  heap s !! obj = None →
  (∀ def, speciesDef ent = Some def →
          def ∈ SPECIES.all isMobile ∧ Spawners.canSpawn s def = true) →
  (∀ key, pools em1 key = pools (entities s) key) →
  Inv {| heap := <[obj := ent]> (heap s);
         entities := add (<[obj := ent]> (heap s)) obj poolKey useGrid em1 |}.
Proof.
  intros (Hcap & Hdom & Htab & Hone) Hfresh Hgate Hp.
  assert (Hold : ∀ key e, e ∈ pools (entities s) key →
                          <[obj := ent]> (heap s) !! e = heap s !! e).
  { intros key e He. apply lookup_insert_ne. intros <-.
    destruct (Hdom key obj He) as [? Hsome]. congruence. }
  split; [|split; [|split]].
  - intros def Hdef. rewrite countSpecies_liveCount. cbn [heap entities].
    rewrite liveCount_add.
    rewrite (liveCount_ext (heap s) _ (entities s) em1); [|done|].
    2:{ intros key e He. by rewrite (Hold key e He). }
    specialize (Hcap def Hdef). rewrite countSpecies_liveCount in Hcap.
    destruct (decide (poolKey = islands)); [lia|].
    unfold sameSpecies. rewrite lookup_insert_eq.
    destruct (speciesDef ent) as [d0|] eqn:Ed; [|lia].
    case_bool_decide as Hid; [|lia].
    destruct (Hgate d0 eq_refl) as [Hd0 Hcan].
    assert (d0 = def) as -> by (by eapply table_ids_unique).
    unfold Spawners.canSpawn, canSpawn in Hcan. apply bool_decide_eq_true in Hcan.
    rewrite countSpecies_liveCount in Hcan. lia.
  - intros key e. cbn [heap entities]. rewrite add_pools, !Hp.
    destruct (decide (key = poolKey)) as [->|].
    + intros [He| ->%list_elem_of_singleton]%elem_of_app.
      * rewrite (Hold _ _ He). by eapply Hdom.
      * rewrite lookup_insert_eq. eauto.
    + intros He. rewrite (Hold _ _ He). by eapply Hdom.
  - intros e e0 def. cbn [heap]. destruct (decide (e = obj)) as [->|Hne].
    + rewrite lookup_insert_eq. intros [= <-] Hdef. by apply Hgate.
    + rewrite lookup_insert_ne by done. apply Htab.
  - intros e. cbn [entities].
    pose proof (sum_update removalPools (λ k, occ e (pools (entities s) k))
                  (λ k, occ e (pools (add (<[obj := ent]> (heap s)) obj poolKey useGrid em1) k))
                  poolKey removalPools_NoDup (removalPools_all poolKey)) as H.
    cbv beta in H.
    specialize (H ltac:(intros k Hk; by rewrite add_pools, decide_False, Hp)).
    rewrite add_pools, decide_True, Hp, occ_app, occ_cons, occ_nil in H by done.
    fold (poolOcc e (entities s)) in H.
    fold (poolOcc e (add (<[obj := ent]> (heap s)) obj poolKey useGrid em1)) in H.
    specialize (Hone e). destruct (decide (obj = e)) as [<-|Hne]; [|lia].
    assert (poolOcc obj (entities s) = 0%nat); [|lia].
    apply poolOcc_zero. intros key Hin.
    destruct (Hdom key obj Hin) as [? Hsome]. congruence.
Qed.

End CapInvariant.

Section CapSteps.

Import EntityManager Registry Simulation.

Variable isMobile : bool.

Local Abbreviation Inv s := (withinCaps isMobile s ∧ wellFormed isMobile s).

Ltac in_table :=
  unfold SPECIES.all, SPECIES.mammals; cbn [app];
  repeat (first [ by apply list_elem_of_here | apply list_elem_of_further ]).

Lemma mammals_in_table def :
  def ∈ SPECIES.mammals isMobile → def ∈ SPECIES.all isMobile.
Proof.
  intros H. unfold SPECIES.all. apply elem_of_app. right.
  apply elem_of_app. right. apply elem_of_app. by left.
Qed.

(** The shape every spawn operation has once the gate is passed. *)
Ltac open_spawn :=
  unfold Spawners.construct, Spawners.register, withEntities;
  cbn [fst snd heap entities].

Ltac close_spawn :=
  apply Inv_add_fresh;
  [ done
  | apply fresh_not_in_heap
  | cbn; first [ by (intros ? [= <-]) | done | (intros ? [= <-]; split; [in_table | done]) ]
  | done ].

Ltac gate :=
  match goal with
  | |- context [negb (Spawners.canSpawn ?s ?d)] =>
      destruct (Spawners.canSpawn s d) eqn:Hcan; cbn [negb fst]; [|done]
  end.

Lemma Inv_queueRemove entity s :
  Inv s → Inv (withEntities (queueRemove entity) s).
Proof.
  intros H. apply (Inv_frame isMobile s); [done| |done].
  intros key. simpl. by rewrite queueRemove_pools.
Qed.

Lemma Inv_addBird def x y s :
  def ∈ SPECIES.all isMobile → Inv s → Inv (Spawners.addBird def x y s).1.
Proof. intros Hd HI. unfold Spawners.addBird. gate. open_spawn. close_spawn. Qed.

Lemma Inv_spawnFish def x y s :
  def ∈ SPECIES.all isMobile → Inv s → Inv (Spawners.spawnFish isMobile def x y s).1.
Proof.
  intros Hd HI. unfold Spawners.spawnFish. gate. open_spawn.
  destruct (isOctopus def); [|case_bool_decide]; cbn [fst]; close_spawn.
Qed.

Lemma Inv_addPredator def coin x y s :
  (∀ d, def = Some d → d ∈ SPECIES.all isMobile) →
  Inv s → Inv (Spawners.addPredator isMobile def coin x y s).1.
Proof.
  intros Hd HI. unfold Spawners.addPredator. case_bool_decide; [done|].
  assert (Hin : match def with
                | Some d => d
                | None => if coin then SPECIES.CAT isMobile else SPECIES.DOG isMobile
                end ∈ SPECIES.all isMobile).
  { destruct def as [d|]; [by apply Hd|]. destruct coin; in_table. }
  gate. open_spawn. close_spawn.
Qed.

Lemma Inv_spawnSeaCreature def x y s :
  def ∈ SPECIES.all isMobile → Inv s → Inv (Spawners.spawnSeaCreature def x y s).1.
Proof. intros Hd HI. unfold Spawners.spawnSeaCreature. gate. open_spawn. close_spawn. Qed.

Lemma Inv_addSeaCreature def pick x y s :
  (∀ d, def = Some d → d ∈ SPECIES.all isMobile) →
  Inv s → Inv (Spawners.addSeaCreature isMobile def pick x y s).1.
Proof.
  intros Hd HI. unfold Spawners.addSeaCreature.
  set (opts := filter _ (SPECIES.mammals isMobile)).
  assert (Hin : match def with
                | Some d => d
                | None => default (SPECIES.WHALE isMobile) (opts !! pick)
                end ∈ SPECIES.all isMobile).
  { destruct def as [d|]; [by apply Hd|].
    destruct (opts !! pick) as [m|] eqn:E; simpl; [|in_table].
    apply list_elem_of_lookup_2 in E. apply list_elem_of_filter in E as [_ E].
    by apply mammals_in_table. }
  gate. open_spawn. close_spawn.
Qed.

Lemma Inv_addFood def x s :
  def ∈ SPECIES.all isMobile → Inv s → Inv (Spawners.addFood def x s).1.
Proof. intros Hd HI. unfold Spawners.addFood. gate. open_spawn. close_spawn. Qed.

Lemma Inv_addFoodAt x y shouldFall s :
  Inv s → Inv (Spawners.addFoodAt isMobile x y shouldFall s).1.
Proof.
  intros HI. unfold Spawners.addFoodAt. gate. open_spawn.
  destruct shouldFall; cbn [heap entities]; close_spawn.
Qed.

Lemma Inv_spawnBabyShrimp oceanTop x y s :
  Inv s → Inv (Spawners.spawnBabyShrimp isMobile oceanTop x y s).1.
Proof. intros HI. unfold Spawners.spawnBabyShrimp. gate. open_spawn. close_spawn. Qed.

Lemma Inv_addAlgae type coin x y s :
  Inv s → Inv (Spawners.addAlgae isMobile type coin x y s).1.
Proof.
  intros HI. unfold Spawners.addAlgae.
  set (def := if bool_decide (type = Some "toxic") then _ else _).
  assert (Hin : def ∈ SPECIES.all isMobile).
  { unfold def. repeat case_bool_decide; try destruct coin; in_table. }
  clearbody def. gate. open_spawn.
  destruct (isSeagrass def); [|destruct (isKelp def)]; cbn [fst]; close_spawn.
Qed.

Lemma Inv_addKelp x y s : Inv s → Inv (Spawners.addKelp isMobile x y s).1.
Proof. intros HI. unfold Spawners.addKelp. gate. open_spawn. close_spawn. Qed.

Lemma Inv_addSeagrass x y s : Inv s → Inv (Spawners.addSeagrass isMobile x y s).1.
Proof. intros HI. unfold Spawners.addSeagrass. gate. open_spawn. close_spawn. Qed.

Lemma Inv_addIsland valid x y s : Inv s → Inv (Spawners.addIsland valid x y s).1.
Proof.
  intros HI. unfold Spawners.addIsland. case_bool_decide; [done|].
  destruct valid; cbn [negb fst]; [|done]. open_spawn. close_spawn.
Qed.

Lemma Inv_createEgg x y s : Inv s → Inv (Spawners.createEgg x y s).1.
Proof. intros HI. unfold Spawners.createEgg. open_spawn. close_spawn. Qed.

Lemma Inv_addElixir x s : Inv s → Inv (Spawners.addElixir x s).1.
Proof. intros HI. unfold Spawners.addElixir. open_spawn. close_spawn. Qed.

Lemma Inv_hatch egg s : Inv s → Inv (Spawners.hatch isMobile egg s).
Proof.
  intros HI. unfold Spawners.hatch.
  destruct (Spawners.canSpawn s (SPECIES.MALLARD isMobile)) eqn:Hcan; cbn [negb].
  - open_spawn.
    match goal with
    | |- withinCaps _ {| heap := ?h; entities := queueRemove ?e ?em |} ∧ _ =>
        change (Inv (withEntities (queueRemove e) {| heap := h; entities := em |}))
    end.
    apply Inv_queueRemove. close_spawn.
  - by apply Inv_queueRemove.
Qed.

Lemma Inv_breed this x y s : Inv s → Inv (Spawners.breed this x y s).
Proof.
  intros HI. unfold Spawners.breed.
  destruct (heap s !! this) as [parent|] eqn:Ep; [|done].
  destruct (speciesDef parent) as [def|] eqn:Ed; [|done].
  assert (Hin : def ∈ SPECIES.all isMobile).
  { destruct HI as (_ & _ & Htab & _). by eapply Htab. }
  destruct (Spawners.canSpawn s def) eqn:Hcan; cbn [negb]; [|done].
  open_spawn. close_spawn.
Qed.

Lemma queue_fold_frame (l : list nat) s :
  let s' := fold_left (λ s a, withEntities (queueRemove a) s) l s in
  heap s' = heap s ∧ pools (entities s') = pools (entities s).
Proof.
  revert s. induction l as [|a l IH]; intros s; simpl; [done|].
  destruct (IH (withEntities (queueRemove a) s)) as [-> ->].
  simpl. by rewrite queueRemove_pools.
Qed.

Lemma Inv_onElixirOpened s : Inv s → Inv (Spawners._onElixirOpened s).
Proof.
  intros HI. unfold Spawners._onElixirOpened.
  match goal with
  | |- context [fold_left ?f ?l s] =>
      destruct (queue_fold_frame l s) as [Hh Hp]; cbv zeta in Hh, Hp
  end.
  apply (Inv_frame isMobile s); [done| |].
  - intros key. simpl. by rewrite Hp.
  - simpl. rewrite Hh. done.
Qed.

Lemma tickLifetime_species dt a h obj :
  speciesDef <$> (PollutionSystem.tickLifetime dt a h !! obj) = speciesDef <$> (h !! obj).
Proof.
  unfold PollutionSystem.tickLifetime. destruct (h !! a) as [e|] eqn:E; [|done].
  destruct (decide (obj = a)) as [->|Hne].
  - by rewrite lookup_insert_eq, E.
  - by rewrite lookup_insert_ne.
Qed.

Lemma visit_fold_species dt l s delta :
  keepsSpecies (heap s) (heap (fold_left (PollutionSystem.visit dt) l (s, delta)).1).
Proof.
  revert s delta. induction l as [|a l IH]; intros s delta obj; cbn [fold_left]; [done|].
  destruct (PollutionSystem.visit dt (s, delta) a) as [s1 d1] eqn:Ev.
  rewrite IH.
  unfold PollutionSystem.visit in Ev.
  destruct (PollutionSystem.expired _ _); injection Ev as <- _; simpl;
    apply tickLifetime_species.
Qed.

Lemma Inv_pollution isPaused dt s : Inv s → Inv (PollutionSystem.update isPaused dt s).
Proof.
  intros HI. destruct isPaused; [done|].
  apply (Inv_frame isMobile s); [done| |].
  - apply pollution_update_pools.
  - unfold PollutionSystem.update.
    pose proof (visit_fold_species dt (PollutionSystem.algaePools s) s 0%Q) as Hk.
    destruct (fold_left _ _ _) as [s1 delta]. simpl in Hk.
    destruct (Qltb _ _); exact Hk.
Qed.

Lemma Inv_step s s' : step isMobile s s' → Inv s → Inv s'.
Proof.
  intros Hstep HI. destruct Hstep.
  - by apply Inv_addBird.
  - by apply Inv_spawnFish.
  - by apply Inv_spawnFish.
  - apply Inv_spawnFish; [in_table | done].
  - by apply Inv_addPredator.
  - by apply Inv_spawnSeaCreature.
  - by apply Inv_addSeaCreature.
  - by apply Inv_addFood.
  - by apply Inv_addFoodAt.
  - by apply Inv_spawnBabyShrimp.
  - by apply Inv_spawnBabyShrimp.
  - by apply Inv_addAlgae.
  - by apply Inv_addKelp.
  - by apply Inv_addSeagrass.
  - by apply Inv_addIsland.
  - by apply Inv_createEgg.
  - by apply Inv_addElixir.
  - by apply Inv_hatch.
  - by apply Inv_breed.
  - by apply Inv_onElixirOpened.
  - by apply Inv_queueRemove.
  - by apply Inv_flush.
  - by apply (Inv_frame isMobile s).
  - by apply Inv_pollution.
  - by apply (Inv_frame isMobile s).
Qed.

Lemma Inv_reachable s : reachable isMobile s → Inv s.
Proof.
  unfold reachable. revert s.
  apply (rtc_ind_r (λ s, Inv s) (initial)); [apply Inv_initial|].
  intros y z _ Hstep HI. by eapply Inv_step.
Qed.

(** In every reachable state an entity is in at most one pool, once. *)
Lemma reachable_pools_unique s obj :
  reachable isMobile s → (poolOcc obj (entities s) ≤ 1)%nat.
Proof. intros H. by destruct (Inv_reachable s H) as (_ & _ & _ & Hone). Qed.

End CapSteps.

(** The one path around the gate: a baby shrimp that grows up becomes an
    adult shrimp without any [canSpawn] test, so a full adult population can
    gain a member.  Growing up is no spawn operation and is not a step of
    [Simulation.step]. *)
Lemma growUp_is_not_gated (h : gmap nat Entity) (this : nat) (e : Entity) (def : SpeciesDef) :
  h !! this = Some e → speciesDef e = Some def → isBaby def = true →
  ∃ e', Spawners.growUp true this h !! this = Some e'
        ∧ speciesDef e' = Some (SPECIES.SHRIMP true).
Proof.
  intros Hl Hd Hb. unfold Spawners.growUp. rewrite Hl, Hd, Hb.
  rewrite lookup_insert_eq. eauto.
Qed.

(** C3. In every state reachable from the initial one through the spawn
    operations (and removals, flushes and field updates that leave
    descriptors alone), no species of the table has more live entities than
    its cap.  The cap is enforced at creation: a spawn operation whose
    [canSpawn] test fails constructs nothing and leaves the game as it was;
    one whose test succeeds registers exactly one new entity. *)
Theorem caps_never_exceeded (isMobile : bool) (s : Game) :
  Simulation.reachable isMobile s →
  Simulation.withinCaps isMobile s
  ∧ (∀ def x y,
       EntityManager.canSpawn (heap s) (entities s) def = false →
       Spawners.spawnFish isMobile def x y s = (s, None))
  ∧ (∀ def x y,
       def ∈ SPECIES.all isMobile →
       EntityManager.canSpawn (heap s) (entities s) def = true →
       ∃ entity,
         (Spawners.spawnFish isMobile def x y s).2 = Some entity
         ∧ Registry.liveCount (heap (Spawners.spawnFish isMobile def x y s).1)
             (entities (Spawners.spawnFish isMobile def x y s).1) def
           = (Registry.liveCount (heap s) (entities s) def + 1)%Z
         ∧ (Registry.liveCount (heap s) (entities s) def + 1 ≤ MAX_COUNT def)%Z).
Proof.
  intros Hreach. pose proof (Inv_reachable isMobile s Hreach) as HI.
  split; [apply HI|]. split.
  - intros def x y Hcan. unfold Spawners.spawnFish, Spawners.canSpawn. by rewrite Hcan.
  - intros def x y Hdef Hcan.
    pose proof (Inv_spawnFish isMobile def x y s Hdef HI) as [Hcap' _].
    specialize (Hcap' def Hdef). rewrite countSpecies_liveCount in Hcap'.
    destruct HI as (_ & Hdom & _).
    revert Hcap'. unfold Spawners.spawnFish, Spawners.canSpawn. rewrite Hcan.
    cbn [negb]. unfold Spawners.construct, Spawners.register, withEntities.
    cbn [fst snd heap entities].
    set (obj := fresh (dom (heap s))).
    set (ent := Spawners.BaseEntity _ x y def).
    assert (Hcount : ∀ k ug,
      Registry.liveCount (<[obj := ent]> (heap s))
        (EntityManager.add (<[obj := ent]> (heap s)) obj k ug
           (EntityManager.bump nextFishId (entities s))) def
      = (Registry.liveCount (heap s) (entities s) def
         + (if decide (k = islands) then 0 else 1))%Z).
    { intros k ug. rewrite liveCount_add.
      rewrite (liveCount_ext (heap s) _ (entities s) (EntityManager.bump nextFishId (entities s))).
      - unfold EntityManager.sameSpecies. rewrite lookup_insert_eq. simpl.
        by rewrite bool_decide_eq_true_2.
      - done.
      - intros key e He. rewrite lookup_insert_ne; [done|].
        intros <-. destruct (Hdom key obj He) as [? Hs].
        unfold obj in Hs. by rewrite fresh_not_in_heap in Hs. }
    destruct (isOctopus def); [|case_bool_decide]; cbn [fst snd heap entities];
      rewrite Hcount; simpl; intros Hle; exists obj; (split; [done|]); split; lia.
Qed.

(** A salmon spawned into the initial game. *)
Lemma caps_never_exceeded_witness :
  Simulation.withinCaps false
    (Spawners.spawnFish false (SPECIES.SALMON false) 10 10 (Simulation.initial)).1.
Proof.
  apply (caps_never_exceeded false).
  apply rtc_once. apply Simulation.step_spawnFish.
  unfold SPECIES.all, SPECIES.mammals. cbn [app].
  repeat (first [ by apply list_elem_of_here | apply list_elem_of_further ]).
Defined.


(** ** Scenarios of the specification, run on the model *)

(** An entity at (10, 10) in a grid of cell size 150 lies in bucket (0, 0);
    moved to (160, 10) it is in bucket (1, 0) and no longer in bucket (0, 0);
    a query at (160, 10) with radius 10 finds it.  A query at (10, 10) with
    radius 10 lists it as well: its ring of [ceil(10 / 150) = 1] buckets
    around bucket (0, 0) reaches bucket (1, 0), and only the caller's exact
    distance test tells that the entity is 150 away. *)
Example scenario_grid_move :
  let g0 := SpatialGrid.add Scenario.oneAt10 0 Scenario.grid150 in
  let st := SpatialGrid.apply (SpatialGrid.Move 0 160 10) (Scenario.oneAt10, g0) in
  SpatialGrid.cellAt g0 (0, 0)%Z = [0%nat]
  ∧ SpatialGrid.cellAt st.2 (1, 0)%Z = [0%nat]
  ∧ SpatialGrid.cellAt st.2 (0, 0)%Z = []
  ∧ SpatialGrid.getNearby st.2 160 10 10 = [0%nat]
  ∧ SpatialGrid.getNearby st.2 10 10 10 = [0%nat]
  ∧ ¬ SpatialGrid.withinRadius st.1 0 10 10 10.
Proof.
  cbv zeta. repeat (split; [by vm_compute|]).
  intros [_ H]. vm_compute in H. by apply H.
Qed.

(** Cap two: two spawns succeed, the third is refused and changes nothing;
    after one of the two is queued and flushed, [canSpawn] is true again. *)
Example scenario_cap_two :
  let s := Scenario.twoSpawned in
  EntityManager.pools (entities s) fish = [0%nat; 1%nat]
  ∧ Spawners.canSpawn s (SPECIES.SHARK true) = false
  ∧ Spawners.spawnFish true (SPECIES.SHARK true) 30 300 s = (s, None)
  ∧ (let s' := withEntities (EntityManager.flushRemovals (heap s))
                 (withEntities (EntityManager.queueRemove 0) s) in
     EntityManager.pools (entities s') fish = [1%nat]
     ∧ Spawners.canSpawn s' (SPECIES.SHARK true) = true).
Proof. vm_compute. repeat split. Qed.

(** Two requests to remove the same entity in one tick: one flush leaves
    exactly one entity fewer, and a second flush changes nothing. *)
Example scenario_double_request :
  let s := Scenario.twoSpawned in
  let em1 := EntityManager.flushRemovals (heap s)
               (Registry.queueAll [1%nat; 1%nat] (entities s)) in
  EntityManager._removeQueue (Registry.queueAll [1%nat; 1%nat] (entities s)) = [1%nat]
  ∧ EntityManager.pools em1 fish = [0%nat]
  ∧ EntityManager.flushRemovals (heap s) em1 = em1.
Proof.
  cbv zeta. split; [by vm_compute|]. split; [by vm_compute|].
  apply flushRemovals_twice.
Qed.

Lemma reachable_addFoodAt isMobile x y shouldFall s :
  Simulation.reachable isMobile s →
  Simulation.reachable isMobile (Spawners.addFoodAt isMobile x y shouldFall s).1.
Proof. intros H. eapply rtc_r; [exact H | constructor]. Qed.

(** Growing up around the gate: with twenty adult shrimp, the cap on a
    mobile device, and one baby, all spawned through the gated operations,
    the baby's growing up makes twenty-one adults. *)
Example scenario_grown_shrimp :
  Simulation.reachable true Scenario.withBaby
  ∧ MAX_COUNT (SPECIES.SHRIMP true) = 20%Z
  ∧ EntityManager.countSpecies (heap Scenario.withBaby) (entities Scenario.withBaby)
      (SPECIES.SHRIMP true) = 20%Z
  ∧ EntityManager.countSpecies (Spawners.growUp true 20 (heap Scenario.withBaby))
      (entities Scenario.withBaby) (SPECIES.SHRIMP true) = 21%Z.
Proof.
  split; [|by vm_compute].
  eapply rtc_r; [|apply Simulation.step_spawnBabyShrimp].
  unfold Scenario.shrimpAtCap.
  generalize 20%nat. intros n. induction n as [|n IH]; [apply rtc_refl|].
  by apply reachable_addFoodAt.
Qed.

(** * Further properties of the engine *)

(** ** The spatial grid: round trips, relocation, precision of a query *)

Lemma spliceOut_snoc_absent obj arr : obj ∉ arr → spliceOut obj (arr ++ [obj]) = arr.
Proof.
  induction arr as [|a arr IH]; intros Hno.
  - unfold spliceOut. simpl. by rewrite decide_True.
  - apply not_elem_of_cons in Hno as [Hne Hno]. specialize (IH Hno).
    unfold spliceOut in *. simpl. rewrite decide_False by done.
    destruct (indexOf obj (arr ++ [obj])) as [i|] eqn:E; simpl.
    + by rewrite IH.
    + apply indexOf_None in E. destruct E. apply elem_of_app. right. left.
Qed.

(** X1. Adding an entity and removing it again (its position unchanged)
    leaves, in every bucket, as many entries of every entity as before; when
    the entity was not yet in the bucket of its position, every bucket is
    exactly as before, order included. *)
Theorem grid_add_remove_roundtrip (h : gmap nat Entity) (g : SpatialGrid.t) (obj : nat) :
  (∀ key o,
     occ o (SpatialGrid.cellAt (SpatialGrid.remove h obj (SpatialGrid.add h obj g)) key)
     = occ o (SpatialGrid.cellAt g key))
  ∧ (¬ SpatialGrid.indexedAtPosition h g obj →
     ∀ key, SpatialGrid.cellAt (SpatialGrid.remove h obj (SpatialGrid.add h obj g)) key
            = SpatialGrid.cellAt g key).
Proof.
  split.
  - intros key o. rewrite cellAt_remove, cellAt_add.
    rewrite (key_cellSize g (SpatialGrid.add h obj g)) by done.
    destruct (decide _) as [->|]; [|done].
    destruct (decide (o = obj)) as [->|Hne].
    + rewrite spliceOut_occ_same, occ_app, occ_cons, occ_nil, decide_True by done. lia.
    + rewrite spliceOut_occ_other, occ_app, occ_cons, occ_nil, decide_False by done. lia.
  - intros Hno key. rewrite cellAt_remove, cellAt_add.
    rewrite (key_cellSize g (SpatialGrid.add h obj g)) by done.
    destruct (decide _) as [->|]; [|done].
    by apply spliceOut_snoc_absent.
Qed.

Lemma grid150_inv h obj :
  SpatialGrid.gridInv (h, SpatialGrid.add h obj Scenario.grid150).
Proof.
  apply gridInv_add; [|apply gridInv_new].
  intros [key Hin]. unfold Scenario.grid150 in Hin.
  rewrite cellAt_new in Hin. by apply elem_of_nil in Hin.
Qed.

Lemma objx_setPos_same h obj nx ny :
  is_Some (h !! obj) → objx (setPos h obj nx ny) obj = nx.
Proof.
  intros [e He]. unfold objx, setPos. rewrite He. by rewrite lookup_insert_eq.
Qed.

Lemma objy_setPos_same h obj nx ny :
  is_Some (h !! obj) → objy (setPos h obj nx ny) obj = ny.
Proof.
  intros [e He]. unfold objy, setPos. rewrite He. by rewrite lookup_insert_eq.
Qed.

(** X2. Relocation: in a grid whose entries sit, once each, in the bucket of
    their position, an indexed entity that moves to [(nx, ny)] and is then
    passed to [update] with its previous position sits in the bucket of
    [(nx, ny)] and in no other bucket. *)
Theorem grid_move_relocates (h : gmap nat Entity) (g : SpatialGrid.t)
    (obj : nat) (nx ny : Q) :
  SpatialGrid.gridInv (h, g) →
  SpatialGrid.holds g obj →
  is_Some (h !! obj) →
  let st := SpatialGrid.apply (SpatialGrid.Move obj nx ny) (h, g) in
  obj ∈ SpatialGrid.cellAt st.2 (SpatialGrid._key g nx ny)
  ∧ (∀ key, key ≠ SpatialGrid._key g nx ny → obj ∉ SpatialGrid.cellAt st.2 key).
Proof.
  intros Hinv [k0 Hk0] Hobj st.
  pose proof (gridInv_move h g obj nx ny Hinv) as [_ Hc']. fold st in Hc'.
  destruct Hinv as [_ Hc]. simpl in Hc.
  assert (Hnew : SpatialGrid._key st.2 (objx st.1 obj) (objy st.1 obj)
                 = SpatialGrid._key g nx ny).
  { unfold st. simpl. rewrite objx_setPos_same, objy_setPos_same by done.
    apply key_cellSize, cellSize_update. }
  split.
  - unfold st. simpl. rewrite cellAt_update. cbv zeta.
    rewrite objx_setPos_same, objy_setPos_same by done.
    pose proof (Hc k0 obj Hk0) as Hold. rewrite Hold.
    destruct (decide (k0 = _)) as [<-|Hne]; [done|].
    rewrite decide_True by done. apply elem_of_app. right. left.
  - intros key Hne Hin. apply Hc' in Hin. congruence.
Qed.

Lemma grid_move_relocates_witness :
  0%nat ∈ SpatialGrid.cellAt
            (SpatialGrid.apply (SpatialGrid.Move 0 160 10)
               (Scenario.oneAt10, SpatialGrid.add Scenario.oneAt10 0 Scenario.grid150)).2
            (SpatialGrid._key (SpatialGrid.add Scenario.oneAt10 0 Scenario.grid150) 160 10).
Proof.
  apply (grid_move_relocates Scenario.oneAt10
           (SpatialGrid.add Scenario.oneAt10 0 Scenario.grid150) 0 160 10).
  - apply grid150_inv.
  - exists (0, 0)%Z. vm_compute. left.
  - vm_compute. eauto.
Defined.

(** X3. A wider query returns everything a narrower one returns: in a grid
    with a positive cell size, what [getNearby(x, y, r)] lists is listed by
    [getNearby(x, y, r')] for every [r'] from [r] up. *)
Theorem getNearby_monotone_in_radius (g : SpatialGrid.t) (x y r r' : Q) (obj : nat) :
  (0 < SpatialGrid.cellSize g)%Q →
  (r <= r')%Q →
  obj ∈ SpatialGrid.getNearby g x y r →
  obj ∈ SpatialGrid.getNearby g x y r'.
Proof.
  intros Hcs Hr Hin. unfold SpatialGrid.getNearby in *. cbv zeta in *.
  set (cs := SpatialGrid.cellSize g) in *.
  assert (Qceiling (r / cs) ≤ Qceiling (r' / cs))%Z as Hcr.
  { apply Qceiling_resp_le. by apply Qdiv_le_compat. }
  apply list_elem_of_bind in Hin as (dx & Hin & Hdx).
  apply list_elem_of_bind in Hin as (dy & Hin & Hdy).
  apply elem_of_seqZ in Hdx. apply elem_of_seqZ in Hdy.
  apply list_elem_of_bind. exists dx. split; [|apply elem_of_seqZ; lia].
  apply list_elem_of_bind. exists dy. split; [done|apply elem_of_seqZ; lia].
Qed.

Lemma getNearby_monotone_in_radius_witness :
  0%nat ∈ SpatialGrid.getNearby (SpatialGrid.add Scenario.oneAt160 0 Scenario.grid150)
            10 10 300.
Proof.
  apply (getNearby_monotone_in_radius
           (SpatialGrid.add Scenario.oneAt160 0 Scenario.grid150) 10 10 150 300 0).
  - by vm_compute.
  - by vm_compute.
  - apply (bool_decide_unpack _). by vm_compute.
Defined.

(** X4. Precision of a query: in a grid whose entries sit in the bucket of
    their position, everything [getNearby(x, y, radius)] returns lies, on
    each axis, less than [(ceil(radius / cellSize) + 1) * cellSize] from
    the centre. *)
Theorem getNearby_false_positives_bounded (h : gmap nat Entity) (g : SpatialGrid.t)
    (x y radius : Q) (obj : nat) :
  (0 < SpatialGrid.cellSize g)%Q →
  SpatialGrid.consistent h g →
  obj ∈ SpatialGrid.getNearby g x y radius →
  let reach := ((inject_Z (Qceiling (radius / SpatialGrid.cellSize g)) + 1)
                * SpatialGrid.cellSize g)%Q in
  (- reach < objx h obj - x < reach)%Q ∧ (- reach < objy h obj - y < reach)%Q.
Proof.
  intros Hcs Hc Hin reach. unfold SpatialGrid.getNearby in Hin.
  set (cs := SpatialGrid.cellSize g) in *.
  set (cr := Qceiling (radius / cs)) in *.
  apply list_elem_of_bind in Hin as (dx & Hin & Hdx).
  apply list_elem_of_bind in Hin as (dy & Hin & Hdy).
  apply elem_of_seqZ in Hdx, Hdy.
  apply Hc in Hin. unfold SpatialGrid._key in Hin. fold cs in Hin.
  pose proof (f_equal fst Hin) as Hfx. pose proof (f_equal snd Hin) as Hfy.
  cbn [fst snd] in Hfx, Hfy. clear Hin.
  assert (Hax : ∀ (a b : Q) (d : Z),
            (Qfloor (a / cs) = Qfloor (b / cs) + d)%Z → (- cr ≤ d ≤ cr)%Z →
            (- reach < a - b < reach)%Q).
  { intros a b d Hf Hd.
    pose proof (Qfloor_le (a / cs)) as Ha1. pose proof (Qlt_floor (a / cs)) as Ha2.
    pose proof (Qfloor_le (b / cs)) as Hb1. pose proof (Qlt_floor (b / cs)) as Hb2.
    rewrite Hf in Ha1, Ha2. rewrite !inject_Z_plus in *.
    change (inject_Z 1) with 1%Q in *.
    assert (Hd1 : (inject_Z d <= inject_Z cr)%Q) by (rewrite <- Zle_Qle; lia).
    assert (Hd2 : (- inject_Z cr <= inject_Z d)%Q).
    { rewrite <- inject_Z_opp, <- Zle_Qle. lia. }
    assert (Hq : (a / cs - b / cs < inject_Z cr + 1)%Q
                 ∧ (- (inject_Z cr + 1) < a / cs - b / cs)%Q) by (split; lra).
    assert (Hmul : ((a / cs - b / cs) * cs == a - b)%Q).
    { unfold Qdiv. field. intros Hz. rewrite Hz in Hcs. by apply Qlt_irrefl in Hcs. }
    unfold reach. destruct Hq as [Hq1 Hq2].
    pose proof (Qmult_lt_compat_r _ _ cs Hcs Hq1) as H1.
    pose proof (Qmult_lt_compat_r _ _ cs Hcs Hq2) as H2.
    rewrite Hmul in H1, H2. split; lra. }
  split; [eapply Hax | eapply Hax]; eauto; lia.
Qed.

Lemma getNearby_false_positives_bounded_witness :
  (- ((inject_Z (Qceiling (10 / 150)) + 1) * 150) < objx Scenario.oneAt160 0 - 10
   < (inject_Z (Qceiling (10 / 150)) + 1) * 150)%Q.
Proof.
  apply (getNearby_false_positives_bounded Scenario.oneAt160
           (SpatialGrid.add Scenario.oneAt160 0 Scenario.grid150) 10 10 10 0).
  - reflexivity.
  - apply grid150_inv.
  - vm_compute. left.
Defined.

(** X5. In a grid whose entries sit, once each, in the bucket of their
    position, a query lists no entity twice. *)
Theorem getNearby_no_duplicates (h : gmap nat Entity) (g : SpatialGrid.t) (x y radius : Q) :
  SpatialGrid.gridInv (h, g) → NoDup (SpatialGrid.getNearby g x y radius).
Proof.
  intros [Hnd Hc]. simpl in *. unfold SpatialGrid.getNearby.
  apply NoDup_bind; [| |apply NoDup_seqZ].
  - intros dx1 dx2 o _ _ (dy1 & Hin1 & _)%list_elem_of_bind (dy2 & Hin2 & _)%list_elem_of_bind.
    apply Hc in Hin1, Hin2. rewrite Hin1 in Hin2. injection Hin2. lia.
  - intros dx _. apply NoDup_bind; [| |apply NoDup_seqZ].
    + intros dy1 dy2 o _ _ Hin1 Hin2.
      apply Hc in Hin1, Hin2. rewrite Hin1 in Hin2. injection Hin2. lia.
    + intros dy _. apply Hnd.
Qed.

Lemma getNearby_no_duplicates_witness :
  NoDup (SpatialGrid.getNearby (SpatialGrid.add Scenario.oneAt160 0 Scenario.grid150) 10 10 400).
Proof.
  apply (getNearby_no_duplicates Scenario.oneAt160).
  apply grid150_inv.
Defined.


(** ** The bus: subscriptions, and mutation during dispatch *)

Section BusMore.

Import EventBus BusNotions.

Lemma emit_unfold body f event st :
  emit body (S f) event st
  = match _map st.1 !! event with
    | None => Some st
    | Some list => dispatch body f event list (S f) 0%nat st
    end.
Proof. reflexivity. Qed.

Lemma dispatch_S body f event list n i st :
  dispatch body f event list (S n) i st
  = match arrayAt st.1 list !! i with
    | None => Some st
    | Some cb =>
        match perform (emit body f) (body cb) (st.1, st.2 ++ [(event, cb)]) with
        | Some st' => dispatch body f event list n (S i) st'
        | None => None
        end
    end.
Proof. reflexivity. Qed.

Lemma separate_new : separate new.
Proof. split; intros *; simpl; by rewrite lookup_empty. Qed.

Lemma separate_clear bus : separate bus → separate (clear bus).
Proof. intros _. split; intros *; simpl; by rewrite lookup_empty. Qed.

Lemma separate_off event cb bus : separate bus → separate (off event cb bus).
Proof.
  intros [Hdom Hinj]. unfold off. destruct (_map bus !! event) as [ref|] eqn:E; [|done].
  split; simpl.
  - intros e r Hr. destruct (decide (r = ref)) as [->|Hne].
    + rewrite lookup_insert_eq. eauto.
    + rewrite lookup_insert_ne by done. by eapply Hdom.
  - exact Hinj.
Qed.

Lemma separate_on event cb bus : separate bus → separate (on event cb bus).
Proof.
  intros [Hdom Hinj]. unfold on. destruct (_map bus !! event) as [ref|] eqn:E.
  - rewrite E. split; simpl.
    + intros e r Hr. destruct (decide (r = ref)) as [->|Hne].
      * rewrite lookup_insert_eq. eauto.
      * rewrite lookup_insert_ne by done. by eapply Hdom.
    + exact Hinj.
  - cbn [_map arrays]. rewrite lookup_insert_eq. cbn [_map arrays].
    set (ref := fresh (dom (arrays bus))).
    assert (Hfresh : arrays bus !! ref = None) by apply not_elem_of_dom, is_fresh.
    split; cbn [_map arrays].
    + intros e r. destruct (decide (e = event)) as [->|Hne].
      * rewrite lookup_insert_eq. intros [= <-]. rewrite lookup_insert_eq. eauto.
      * rewrite lookup_insert_ne by done. intros Hr.
        destruct (Hdom e r Hr) as [l Hl].
        rewrite !lookup_insert_ne by congruence. eauto.
    + intros e1 e2 r.
      destruct (decide (e1 = event)) as [->|Hne1], (decide (e2 = event)) as [->|Hne2];
        rewrite ?lookup_insert_eq, ?lookup_insert_ne by done.
      * done.
      * intros [= <-] Hr. destruct (Hdom e2 ref Hr) as [? ?]. congruence.
      * intros Hr [= <-]. destruct (Hdom e1 ref Hr) as [? ?]. congruence.
      * apply Hinj.
Qed.

Lemma subscribers_on_same event cb bus :
  subscribers (on event cb bus) event = subscribers bus event ++ [cb].
Proof.
  unfold subscribers, on. destruct (_map bus !! event) as [ref|] eqn:E.
  - rewrite E. cbn [_map]. rewrite E. unfold arrayAt at 1. cbn [arrays].
    by rewrite lookup_insert_eq.
  - cbn [_map arrays]. rewrite lookup_insert_eq. cbn [_map].
    rewrite lookup_insert_eq. unfold arrayAt; cbn [arrays].
    by rewrite !lookup_insert_eq.
Qed.

Lemma subscribers_on_other event event' cb bus :
  separate bus → event' ≠ event →
  subscribers (on event cb bus) event' = subscribers bus event'.
Proof.
  intros [Hdom Hinj] Hne. unfold subscribers, on.
  destruct (_map bus !! event) as [ref|] eqn:E.
  - rewrite E. cbn [_map]. destruct (_map bus !! event') as [r|] eqn:E'; [|done].
    unfold arrayAt at 1 3. cbn [arrays]. rewrite lookup_insert_ne; [done|].
    intros <-. apply Hne. by eapply Hinj.
  - cbn [_map arrays]. rewrite lookup_insert_eq. cbn [_map].
    rewrite lookup_insert_ne by done.
    destruct (_map bus !! event') as [r|] eqn:E'; [|done].
    unfold arrayAt at 1 3. cbn [arrays].
    destruct (Hdom event' r E') as [l Hl].
    assert (r ≠ fresh (dom (arrays bus))).
    { intros ->. pose proof (is_fresh (dom (arrays bus))) as Hf.
      apply Hf, elem_of_dom. eauto. }
    by rewrite !lookup_insert_ne.
Qed.

Lemma subscribers_off_same event cb bus :
  subscribers (off event cb bus) event = spliceOut cb (subscribers bus event).
Proof.
  unfold subscribers, off. destruct (_map bus !! event) as [ref|] eqn:E.
  - cbn [_map]. rewrite E. unfold arrayAt at 1. cbn [arrays]. by rewrite lookup_insert_eq.
  - by rewrite E.
Qed.

Lemma subscribers_off_other event event' cb bus :
  separate bus → event' ≠ event →
  subscribers (off event cb bus) event' = subscribers bus event'.
Proof.
  intros [Hdom Hinj] Hne. unfold subscribers, off.
  destruct (_map bus !! event) as [ref|] eqn:E; [|done].
  cbn [_map]. destruct (_map bus !! event') as [r|] eqn:E'; [|done].
  unfold arrayAt at 1 3. cbn [arrays]. rewrite lookup_insert_ne; [done|].
  intros <-. apply Hne. by eapply Hinj.
Qed.

End BusMore.

(** X6. Subscriptions are kept apart by topic and in subscription order: on
    a bus built from a new one by [on], [off] and [clear], [on(event, cb)]
    appends [cb] to the subscribers of [event], [off(event, cb)] takes one
    subscription of [cb] out of them, both leave the subscribers of every
    other topic as they were, and subscribing then unsubscribing a callback
    that was not subscribed restores the list. *)
Theorem bus_subscriptions (bus : EventBus.t) (event : string) (cb : nat) :
  BusNotions.separate bus →
  (BusNotions.separate (EventBus.on event cb bus)
   ∧ BusNotions.separate (EventBus.off event cb bus)
   ∧ BusNotions.separate (EventBus.clear bus))
  ∧ BusNotions.subscribers (EventBus.on event cb bus) event
    = BusNotions.subscribers bus event ++ [cb]
  ∧ BusNotions.subscribers (EventBus.off event cb bus) event
    = spliceOut cb (BusNotions.subscribers bus event)
  ∧ (∀ event', event' ≠ event →
       BusNotions.subscribers (EventBus.on event cb bus) event'
       = BusNotions.subscribers bus event'
       ∧ BusNotions.subscribers (EventBus.off event cb bus) event'
         = BusNotions.subscribers bus event')
  ∧ (cb ∉ BusNotions.subscribers bus event →
     BusNotions.subscribers (EventBus.off event cb (EventBus.on event cb bus)) event
     = BusNotions.subscribers bus event).
Proof.
  intros Hsep. split; [|split; [|split; [|split]]].
  - split; [by apply separate_on|]. split; [by apply separate_off | by apply separate_clear].
  - apply subscribers_on_same.
  - apply subscribers_off_same.
  - intros event' Hne. split.
    + by apply subscribers_on_other.
    + by apply subscribers_off_other.
  - intros Hno. rewrite subscribers_off_same, subscribers_on_same.
    by apply spliceOut_snoc_absent.
Qed.

Lemma bus_subscriptions_witness :
  BusNotions.subscribers (EventBus.on "tick" 1%nat EventBus.new) "tick"
  = BusNotions.subscribers EventBus.new "tick" ++ [1%nat].
Proof.
  apply (bus_subscriptions EventBus.new "tick" 1). apply separate_new.
Defined.

(** X7. [off] removes one subscription per call: a callback subscribed
    twice to a topic is still subscribed after one [off]; a second [off]
    changes the bus only while the callback is still subscribed, so
    unsubscribing is idempotent exactly for callbacks subscribed at most
    once. *)
Theorem bus_off_removes_one (bus : EventBus.t) (event : string) (cb : nat) :
  occ cb (BusNotions.subscribers (EventBus.off event cb bus) event)
  = pred (occ cb (BusNotions.subscribers bus event))
  ∧ ((occ cb (BusNotions.subscribers bus event) ≤ 1)%nat →
     EventBus.off event cb (EventBus.off event cb bus) = EventBus.off event cb bus)
  ∧ cb ∈ BusNotions.subscribers
           (EventBus.off event cb (EventBus.on event cb (EventBus.on event cb bus))) event.
Proof.
  split; [|split].
  - rewrite subscribers_off_same. apply spliceOut_occ_same.
  - intros Hle.
    assert (Hgone : cb ∉ spliceOut cb (BusNotions.subscribers bus event)).
    { apply occ_zero. rewrite spliceOut_occ_same. lia. }
    unfold BusNotions.subscribers in Hgone.
    destruct (EventBus._map bus !! event) as [ref|] eqn:E.
    + assert (Hoff : EventBus.off event cb bus
                     = {| EventBus._map := EventBus._map bus;
                          EventBus.arrays := <[ref := spliceOut cb (EventBus.arrayAt bus ref)]>
                                               (EventBus.arrays bus) |}).
      { unfold EventBus.off. by rewrite E. }
      rewrite Hoff. unfold EventBus.off. cbn [EventBus._map]. rewrite E.
      unfold EventBus.arrayAt at 1. cbn [EventBus.arrays].
      rewrite lookup_insert_eq, insert_insert_eq.
      by rewrite (spliceOut_absent _ _ Hgone).
    + assert (Hoff : EventBus.off event cb bus = bus).
      { unfold EventBus.off. by rewrite E. }
      by rewrite !Hoff.
  - rewrite subscribers_off_same, !subscribers_on_same.
    apply occ_zero_not. rewrite spliceOut_occ_same, !occ_app, !occ_cons, occ_nil.
    rewrite decide_True by done. lia.
Qed.

Section DispatchFacts.

Import EventBus BusNotions.

Lemma on_new topic a :
  ∃ ref, on topic a new = {| _map := {[ topic := ref ]}; arrays := {[ ref := [a] ]} |}.
Proof.
  exists (fresh (dom (∅ : gmap nat (list nat)))).
  unfold on, new; simpl. rewrite lookup_empty; simpl.
  rewrite lookup_insert_eq. unfold arrayAt; simpl. rewrite lookup_insert_eq. simpl.
  by rewrite insert_insert_eq, !insert_empty.
Qed.

Lemma on_single topic ref cb l :
  on topic cb {| _map := {[ topic := ref ]}; arrays := {[ ref := l ]} |}
  = {| _map := {[ topic := ref ]}; arrays := {[ ref := l ++ [cb] ]} |}.
Proof.
  unfold on; simpl. rewrite lookup_singleton_eq. simpl. rewrite lookup_singleton_eq.
  unfold arrayAt; simpl. rewrite lookup_singleton_eq. by rewrite insert_singleton_eq.
Qed.

(** The loop, from index [i] on, over callbacks that leave the bus alone. *)
Lemma dispatch_inert body f event ref bus :
  ∀ n i tr,
    (∀ j cb, (i ≤ j)%nat → arrayAt bus ref !! j = Some cb → body cb = []) →
    (length (arrayAt bus ref) - i < n)%nat →
    dispatch body f event ref n i (bus, tr)
    = Some (bus, tr ++ ((λ cb, (event, cb)) <$> drop i (arrayAt bus ref))).
Proof.
  induction n as [|n IH]; intros i tr Hbody Hn; [lia|].
  rewrite dispatch_S. cbn [fst snd].
  destruct (arrayAt bus ref !! i) as [cb|] eqn:E.
  - rewrite (Hbody i cb) by done. cbn [perform].
    rewrite IH.
    + rewrite (drop_S _ _ _ E), fmap_cons, <- app_assoc. done.
    + intros j cb' Hj. apply Hbody. lia.
    + apply lookup_lt_Some in E. lia.
  - apply lookup_ge_None in E. rewrite drop_ge by done. by rewrite app_nil_r.
Qed.

(** The loop over a callback that subscribes itself again whenever it runs:
    the array grows as fast as the index, and the loop has no end. *)
Lemma dispatch_self_subscriber body f topic ref a :
  body a = [On topic a] →
  ∀ n i m tr,
    (i < m)%nat →
    dispatch body f topic ref n i
      ({| _map := {[ topic := ref ]}; arrays := {[ ref := replicate m a ]} |}, tr)
    = None.
Proof.
  intros Hbody. induction n as [|n IH]; intros i m tr Him; [done|].
  rewrite dispatch_S. cbn [fst snd]. unfold arrayAt at 1. cbn [arrays].
  rewrite lookup_singleton_eq, lookup_replicate_2 by done.
  rewrite Hbody. cbn [perform fst snd]. rewrite on_single.
  replace (replicate m a ++ [a]) with (replicate (S m) a).
  - apply IH. lia.
  - clear. induction m as [|m IHm]; [done|]. simpl. by rewrite <- IHm.
Qed.

End DispatchFacts.

(** X8. An emit whose subscribers leave the bus alone invokes every
    subscriber of the topic exactly once, in subscription order, and leaves
    the bus as it was; a topic nobody subscribed to (or a cleared bus)
    invokes nothing. *)
Theorem emit_invokes_all_in_order (body : nat → list EventBus.action)
    (event : string) (bus : EventBus.t) (tr : list (string * nat)) (fuel : nat) :
  (∀ cb, cb ∈ BusNotions.subscribers bus event → body cb = []) →
  (length (BusNotions.subscribers bus event) ≤ fuel)%nat →
  EventBus.emit body (S fuel) event (bus, tr)
  = Some (bus, tr ++ ((λ cb, (event, cb)) <$> BusNotions.subscribers bus event))
  ∧ EventBus.emit body (S fuel) event (EventBus.clear bus, tr)
    = Some (EventBus.clear bus, tr).
Proof.
  intros Hbody Hfuel. split; [|by rewrite emit_unfold].
  rewrite emit_unfold. cbn [fst]. unfold BusNotions.subscribers in *.
  destruct (EventBus._map bus !! event) as [ref|] eqn:E.
  - rewrite dispatch_inert.
    + by rewrite drop_0.
    + intros j cb _ Hj. apply Hbody. by eapply list_elem_of_lookup_2.
    + lia.
  - by rewrite app_nil_r.
Qed.

Lemma emit_invokes_all_in_order_witness :
  EventBus.emit (λ _, []) 3 "tick"
    (EventBus.on "tick" 2%nat (EventBus.on "tick" 1%nat EventBus.new), [])
  = Some (EventBus.on "tick" 2%nat (EventBus.on "tick" 1%nat EventBus.new),
          [] ++ ((λ cb, ("tick", cb)) <$>
                 BusNotions.subscribers
                   (EventBus.on "tick" 2%nat (EventBus.on "tick" 1%nat EventBus.new)) "tick")).
Proof.
  apply (emit_invokes_all_in_order (λ _, []) "tick"
           (EventBus.on "tick" 2%nat (EventBus.on "tick" 1%nat EventBus.new)) [] 2).
  - done.
  - vm_compute. lia.
Defined.

(** X9. A callback subscribed to the topic by a handler during an emit is
    invoked in that same emit, after the subscribers that were there. *)
Theorem emit_reaches_new_subscriber (body : nat → list EventBus.action)
    (topic : string) (a b : nat) (fuel : nat) :
  body a = [EventBus.On topic b] →
  body b = [] →
  EventBus.emit body (S (S (S fuel))) topic (EventBus.on topic a EventBus.new, [])
  = Some (EventBus.on topic b (EventBus.on topic a EventBus.new),
          [(topic, a); (topic, b)]).
Proof.
  intros Ha Hb. destruct (on_new topic a) as [ref ->].
  rewrite emit_unfold. cbn [fst EventBus._map]. rewrite lookup_singleton_eq.
  rewrite dispatch_S. cbn [fst snd]. unfold EventBus.arrayAt at 1. cbn [EventBus.arrays].
  rewrite lookup_singleton_eq. cbn [lookup list_lookup app].
  rewrite Ha. cbn [EventBus.perform fst snd]. rewrite !on_single.
  rewrite dispatch_inert.
  - unfold EventBus.arrayAt. cbn [EventBus.arrays]. rewrite lookup_singleton_eq. done.
  - unfold EventBus.arrayAt. cbn [EventBus.arrays]. rewrite lookup_singleton_eq.
    intros [|[|j]] cb Hj; [lia| |done]. by intros [= <-].
  - unfold EventBus.arrayAt. cbn [EventBus.arrays]. rewrite lookup_singleton_eq. simpl. lia.
Qed.

Lemma emit_reaches_new_subscriber_witness :
  EventBus.emit (λ cb, if decide (cb = 1%nat) then [EventBus.On "tick" 2%nat] else [])
    3 "tick" (EventBus.on "tick" 1%nat EventBus.new, [])
  = Some (EventBus.on "tick" 2%nat (EventBus.on "tick" 1%nat EventBus.new),
          [("tick", 1%nat); ("tick", 2%nat)]).
Proof.
  apply (emit_reaches_new_subscriber
           (λ cb, if decide (cb = 1%nat) then [EventBus.On "tick" 2%nat] else [])
           "tick" 1 2 0); reflexivity.
Defined.

(** X10. A callback that subscribes itself to the topic again each time it
    is invoked makes an emit of that topic run for ever: the array grows by
    one with every invocation and the loop never reaches its end, whatever
    the bound on steps. *)
Theorem emit_self_subscriber_diverges (body : nat → list EventBus.action)
    (topic : string) (a : nat) :
  body a = [EventBus.On topic a] →
  ∀ fuel tr, EventBus.emit body fuel topic (EventBus.on topic a EventBus.new, tr) = None.
Proof.
  intros Hbody fuel tr. destruct fuel as [|f]; [done|].
  destruct (on_new topic a) as [ref ->].
  rewrite emit_unfold. cbn [fst EventBus._map]. rewrite lookup_singleton_eq.
  apply (dispatch_self_subscriber body f topic ref a Hbody (S f) 0 1 tr). lia.
Qed.

Lemma emit_self_subscriber_diverges_witness :
  EventBus.emit (λ _, [EventBus.On "tick" 1%nat]) 50 "tick"
    (EventBus.on "tick" 1%nat EventBus.new, []) = None.
Proof.
  apply (emit_self_subscriber_diverges (λ _, [EventBus.On "tick" 1%nat]) "tick" 1).
  reflexivity.
Defined.

(** X11. [clear()] called by a handler during an emit does not end the
    dispatch: the subscribers that follow in the captured array are still
    invoked, although afterwards the topic has no subscriber left. *)
Theorem emit_survives_clear (body : nat → list EventBus.action)
    (topic : string) (a b : nat) (fuel : nat) :
  body a = [EventBus.Clear] →
  body b = [] →
  ∃ bus',
    EventBus.emit body (S (S (S fuel))) topic
      (EventBus.on topic b (EventBus.on topic a EventBus.new), [])
    = Some (bus', [(topic, a); (topic, b)])
    ∧ BusNotions.subscribers bus' topic = [].
Proof.
  intros Ha Hb. destruct (on_on_new topic a b) as [ref ->].
  exists (EventBus.clear {| EventBus._map := {[ topic := ref ]};
                            EventBus.arrays := {[ ref := [a; b] ]} |}).
  split; [|unfold BusNotions.subscribers; simpl; by rewrite lookup_empty].
  rewrite emit_unfold. cbn [fst EventBus._map]. rewrite lookup_singleton_eq.
  rewrite dispatch_S. cbn [fst snd]. unfold EventBus.arrayAt at 1. cbn [EventBus.arrays].
  rewrite lookup_singleton_eq. cbn [lookup list_lookup app].
  rewrite Ha. cbn [EventBus.perform fst snd].
  rewrite dispatch_inert.
  - unfold EventBus.arrayAt, EventBus.clear. cbn [EventBus.arrays].
    rewrite lookup_singleton_eq. done.
  - unfold EventBus.arrayAt, EventBus.clear. cbn [EventBus.arrays].
    rewrite lookup_singleton_eq.
    intros [|[|j]] cb Hj; [lia| |done]. by intros [= <-].
  - unfold EventBus.arrayAt, EventBus.clear. cbn [EventBus.arrays].
    rewrite lookup_singleton_eq. simpl. lia.
Qed.

Lemma emit_survives_clear_witness :
  ∃ bus',
    EventBus.emit (λ cb, if decide (cb = 1%nat) then [EventBus.Clear] else [])
      3 "tick" (EventBus.on "tick" 2%nat (EventBus.on "tick" 1%nat EventBus.new), [])
    = Some (bus', [("tick", 1%nat); ("tick", 2%nat)])
    ∧ BusNotions.subscribers bus' "tick" = [].
Proof.
  apply (emit_survives_clear
           (λ cb, if decide (cb = 1%nat) then [EventBus.Clear] else [])
           "tick" 1 2 0); reflexivity.
Defined.

(** ** The scheduler: cadence and frame cap *)

Lemma Qltb_false (a b : Q) : Qltb a b = false ↔ (b <= a)%Q.
Proof.
  rewrite <- not_true_iff_false, Qltb_spec.
  split; [apply Qnot_lt_le | apply Qle_not_lt].
Qed.

Lemma jsRem_nonneg (a b : Q) :
  (0 <= a)%Q → (0 < b)%Q →
  ∃ k : Z, jsRem a b = (a - inject_Z k * b)%Q
           ∧ (inject_Z k * b <= a)%Q ∧ (a < (inject_Z k + 1) * b)%Q.
Proof.
  intros Ha Hb. exists (Qfloor (a / b)).
  assert (0 <= a / b)%Q as Hq by (apply Qle_shift_div_l; lra).
  assert (a == a / b * b)%Q as Hab by (field; lra).
  pose proof (Qfloor_le (a / b)) as Hlo.
  pose proof (Qlt_floor (a / b)) as Hhi.
  rewrite inject_Z_plus in Hhi. change (inject_Z 1) with 1%Q in Hhi.
  split; [|split].
  - unfold jsRem. cbv zeta. do 3 f_equal.
    destruct (a / b)%Q as [n d]. unfold Qle in Hq. simpl in Hq.
    simpl. apply Z.quot_div_nonneg; lia.
  - set (q := (a / b)%Q) in *. set (k := inject_Z (Qfloor q)) in *. nra.
  - set (q := (a / b)%Q) in *. set (k := inject_Z (Qfloor q)) in *. nra.
Qed.

Lemma loop_cases (currentTime : Q) (raf : nat) (eng : Engine.t) :
  (0 < Engine.targetFrameMs eng)%Q →
  let r := Engine._loop currentTime raf eng in
  Engine.systems r.1 = Engine.systems eng
  ∧ Engine.targetFrameMs r.1 = Engine.targetFrameMs eng
  ∧ ((r.2 = [] ∧ Engine._lastTime r.1 = Engine._lastTime eng)
     ∨ (length r.2 = length (Engine.systems eng)
        ∧ (Engine._lastTime eng + Engine.targetFrameMs eng <= Engine._lastTime r.1)%Q
        ∧ (Engine._lastTime r.1 <= currentTime)%Q)).
Proof.
  intros Hframe. unfold Engine._loop.
  destruct (Engine.isRunning eng); cbn [negb]; [|by auto].
  destruct (Qltb _ _) eqn:Hskip; cbv zeta; cbn [fst snd Engine.systems
    Engine.targetFrameMs Engine._lastTime]; [by auto|].
  split; [done|]. split; [done|]. right.
  apply Qltb_false in Hskip.
  destruct (jsRem_nonneg (currentTime - Engine._lastTime eng) (Engine.targetFrameMs eng))
    as (k & -> & Hlo & Hhi); [lra|done|].
  rewrite length_map. split; [done|].
  set (b := Engine.targetFrameMs eng) in *. set (l := Engine._lastTime eng) in *.
  assert (1 <= inject_Z k)%Q as Hk.
  { destruct (Z.le_gt_cases 1 k) as [H1|H0].
    - rewrite Zle_Qle in H1. exact H1.
    - assert (k + 1 ≤ 1)%Z as H2 by lia. rewrite Zle_Qle in H2.
      rewrite inject_Z_plus in H2. change (inject_Z 1) with 1%Q in H2.
      set (kq := inject_Z k) in *. nra. }
  set (kq := inject_Z k) in *. split; nra.
Qed.

(** X12. When the engine runs a frame, [_lastTime] advances by a whole
    number of frame intervals, at least one, and lands within one frame
    interval before the callback's time stamp: the cadence keeps its phase,
    whatever the jitter of the callbacks. *)
Theorem loop_keeps_cadence (eng : Engine.t) (currentTime : Q) (raf : nat) :
  Engine.isRunning eng = true →
  (0 < Engine.targetFrameMs eng)%Q →
  (Engine.targetFrameMs eng <= currentTime - Engine._lastTime eng)%Q →
  let eng' := (Engine._loop currentTime raf eng).1 in
  (∃ k : Z, (1 ≤ k)%Z ∧
     (Engine._lastTime eng'
      == Engine._lastTime eng + inject_Z k * Engine.targetFrameMs eng)%Q)
  ∧ (currentTime - Engine.targetFrameMs eng < Engine._lastTime eng')%Q
  ∧ (Engine._lastTime eng' <= currentTime)%Q.
Proof.
  intros Hrun Hframe Hdue. unfold Engine._loop. rewrite Hrun. cbn [negb].
  apply Qltb_false in Hdue as Hskip. rewrite Hskip. cbv zeta.
  cbn [fst Engine._lastTime].
  destruct (jsRem_nonneg (currentTime - Engine._lastTime eng) (Engine.targetFrameMs eng))
    as (k & -> & Hlo & Hhi); [lra|done|].
  set (b := Engine.targetFrameMs eng) in *. set (l := Engine._lastTime eng) in *.
  assert (1 ≤ k)%Z as Hk.
  { destruct (Z.le_gt_cases 1 k) as [H1|H0]; [done|].
    assert (k + 1 ≤ 1)%Z as H2 by lia. rewrite Zle_Qle in H2.
    rewrite inject_Z_plus in H2. change (inject_Z 1) with 1%Q in H2.
    set (kq := inject_Z k) in *. nra. }
  split; [exists k; split; [done|]; ring|].
  set (kq := inject_Z k) in *. split; nra.
Qed.

Lemma loop_keeps_cadence_witness :
  let eng := Engine.start 1 (Engine.new 60) in
  let eng' := (Engine._loop 100 2 eng).1 in
  (∃ k : Z, (1 ≤ k)%Z ∧
     (Engine._lastTime eng'
      == Engine._lastTime eng + inject_Z k * Engine.targetFrameMs eng)%Q)
  ∧ (100 - Engine.targetFrameMs eng < Engine._lastTime eng')%Q
  ∧ (Engine._lastTime eng' <= 100)%Q.
Proof.
  apply (loop_keeps_cadence (Engine.start 1 (Engine.new 60)) 100 2);
    [reflexivity | by vm_compute | by vm_compute].
Defined.

Lemma run_rounds (frames : list (Q * nat)) (eng : Engine.t) (T : Q) :
  (0 < Engine.targetFrameMs eng)%Q →
  (Engine._lastTime eng <= T)%Q →
  Forall (λ f, (f.1 <= T)%Q) frames →
  let r := Schedule.run frames eng in
  (Engine._lastTime r.1 <= T)%Q
  ∧ ∃ rounds : nat,
      length r.2 = (rounds * length (Engine.systems eng))%nat
      ∧ (inject_Z (Z.of_nat rounds) * Engine.targetFrameMs eng
         <= Engine._lastTime r.1 - Engine._lastTime eng)%Q.
Proof.
  revert eng. induction frames as [|[currentTime raf] rest IH]; intros eng Hframe Hlast Hall.
  - cbn [Schedule.run fst snd]. split; [done|]. exists 0%nat. split; [done|].
    change (inject_Z (Z.of_nat 0)) with 0%Q. lra.
  - apply Forall_cons in Hall as [Hnow Hrest]. cbn [fst] in Hnow.
    cbn [Schedule.run].
    pose proof (loop_cases currentTime raf eng Hframe) as (Hsys & Hfr & Hcase).
    cbv zeta in Hsys, Hfr, Hcase.
    destruct (Engine._loop currentTime raf eng) as [eng1 calls].
    cbn [fst snd] in Hsys, Hfr, Hcase.
    assert (Engine._lastTime eng1 <= T)%Q as Hlast1.
    { destruct Hcase as [[_ ->]|(_ & _ & Hle)]; [done|lra]. }
    specialize (IH eng1). rewrite Hfr, Hsys in IH.
    specialize (IH Hframe Hlast1 Hrest). cbv zeta in IH.
    destruct (Schedule.run rest eng1) as [eng2 more]. cbn [fst snd] in IH |- *.
    destruct IH as (Hle2 & rounds & Hlen & Hbound).
    split; [done|].
    destruct Hcase as [[-> Hsame]|(Hlen1 & Hadv & _)].
    + exists rounds. split; [done|]. rewrite <- Hsame. done.
    + exists (S rounds). split.
      * rewrite length_app, Hlen1, Hlen. simpl. done.
      * rewrite Nat2Z.inj_succ, <- Z.add_1_r, inject_Z_plus.
        change (inject_Z 1) with 1%Q.
        set (kq := inject_Z (Z.of_nat rounds)) in *. nra.
Qed.

(** X13. The frame cap: however often the browser invokes the callback up
    to time [T], the engine runs at most [(T - _lastTime) / targetFrameMs]
    rounds of updates, each round calling every registered system once. *)
Theorem frame_rate_capped (frames : list (Q * nat)) (eng : Engine.t) (T : Q) :
  (0 < Engine.targetFrameMs eng)%Q →
  (Engine._lastTime eng <= T)%Q →
  Forall (λ f, (f.1 <= T)%Q) frames →
  ∃ rounds : nat,
    length (Schedule.run frames eng).2 = (rounds * length (Engine.systems eng))%nat
    ∧ (inject_Z (Z.of_nat rounds) * Engine.targetFrameMs eng
       <= T - Engine._lastTime eng)%Q.
Proof.
  intros Hframe Hlast Hall.
  destruct (run_rounds frames eng T Hframe Hlast Hall) as (Hle & rounds & Hlen & Hb).
  exists rounds. split; [done|]. lra.
Qed.

Lemma frame_rate_capped_witness :
  let eng := Engine.start 1 (Engine.addSystem 5 (Engine.new 60)) in
  ∃ rounds : nat,
    length (Schedule.run [(10%Q, 2%nat); (20%Q, 3%nat); (30%Q, 4%nat); (40%Q, 5%nat)] eng).2
    = (rounds * length (Engine.systems eng))%nat
    ∧ (inject_Z (Z.of_nat rounds) * Engine.targetFrameMs eng
       <= 40 - Engine._lastTime eng)%Q.
Proof.
  apply (frame_rate_capped [(10%Q, 2%nat); (20%Q, 3%nat); (30%Q, 4%nat); (40%Q, 5%nat)]
           (Engine.start 1 (Engine.addSystem 5 (Engine.new 60))) 40).
  - by vm_compute.
  - by vm_compute.
  - repeat constructor; by vm_compute.
Defined.

(** X14. No system is ever passed a time step below the frame interval
    (or below the clamp 0.1, where the interval is longer): with a positive
    frame interval every [dt] is positive. *)
Theorem loop_dt_at_least_frame (eng : Engine.t) (currentTime : Q) (raf : nat) :
  let calls := (Engine._loop currentTime raf eng).2 in
  Forall (λ c, (Qmin (Engine.targetFrameMs eng / 1000) (1 # 10)
                <= Engine.call_dt c)%Q) calls
  ∧ ((0 < Engine.targetFrameMs eng)%Q →
     Forall (λ c, (0 < Engine.call_dt c)%Q) calls).
Proof.
  cbv zeta. unfold Engine._loop.
  destruct (Engine.isRunning eng); cbn [negb]; [|split; constructor].
  destruct (Qltb _ _) eqn:Hskip; cbv zeta; cbn [snd]; [split; constructor|].
  apply Qltb_false in Hskip.
  set (b := Engine.targetFrameMs eng) in *.
  set (el := (currentTime - Engine._lastTime eng)%Q) in *.
  assert (b / 1000 <= el / 1000)%Q as Hdiv.
  { unfold Qdiv. apply Qmult_le_compat_r; [done|]. by vm_compute. }
  split.
  - apply Forall_forall. intros c [sys [-> _]]%list_elem_of_fmap.
    cbn [Engine.call_dt]. apply Q.min_le_compat_r. exact Hdiv.
  - intros Hpos. apply Forall_forall. intros c [sys [-> _]]%list_elem_of_fmap.
    cbn [Engine.call_dt].
    assert (0 < b / 1000)%Q as Hb.
    { unfold Qdiv. apply Qmult_lt_0_compat; [done|]. by vm_compute. }
    apply Q.min_glb_lt; [lra | by vm_compute].
Qed.

(** X15. A stopped engine is inert: callbacks that still arrive update no
    system and leave the engine as it is (no further frame is requested);
    and [start] on an engine already started changes nothing, so no second
    chain of callbacks begins. *)
Theorem stopped_engine_is_inert (frames : list (Q * nat)) (eng : Engine.t) :
  Schedule.run frames (Engine.stop eng) = (Engine.stop eng, [])
  ∧ ∀ raf raf', Engine.start raf' (Engine.start raf eng) = Engine.start raf eng.
Proof.
  split.
  - induction frames as [|[currentTime raf] rest IH]; [done|].
    cbn [Schedule.run]. unfold Engine._loop at 1. cbn [Engine.stop Engine.isRunning negb].
    fold (Engine.stop eng). rewrite IH. done.
  - intros raf raf'. unfold Engine.start.
    destruct (Engine.isRunning eng) eqn:Hrun; [by rewrite Hrun|]. done.
Qed.

(** ** The world clock and geometry *)

Lemma tick_cases (dt : Q) (w : World.t) :
  let r := World.tick dt w in
  World.dayNightDuration r.1 = World.dayNightDuration w
  ∧ World.isPaused r.1 = World.isPaused w
  ∧ ((r.2 = false ∧ World.isPaused w = true ∧ r.1 = w)
     ∨ (r.2 = false ∧ World.isPaused w = false
        ∧ World.isNight r.1 = World.isNight w
        ∧ World.dayNightCycle r.1 = (World.dayNightCycle w + dt)%Q
        ∧ (World.dayNightCycle w + dt < World.dayNightDuration w)%Q)
     ∨ (r.2 = true ∧ World.isPaused w = false
        ∧ World.isNight r.1 = negb (World.isNight w)
        ∧ World.dayNightCycle r.1 = 0%Q
        ∧ (World.dayNightDuration w <= World.dayNightCycle w + dt)%Q)).
Proof.
  cbv zeta. unfold World.tick.
  destruct (World.isPaused w) eqn:Hp;
    [cbn [fst snd]; split; [done|]; split; [done|]; left; done|]. cbv zeta.
  destruct (Qle_bool _ _) eqn:Hle; cbn [fst snd World.dayNightDuration
    World.isPaused World.isNight World.dayNightCycle].
  - apply Qle_bool_iff in Hle. split; [done|]. split; [done|]. right. right. done.
  - split; [done|]. split; [done|]. right. left.
    repeat split; try done. apply Qnot_le_lt. intros H%Qle_bool_iff. congruence.
Qed.

(** X16. [tick] keeps the phase clock below the phase length, reports a
    flip exactly when it turned day into night or night into day, and
    restarts the clock at zero on a flip.  A paused world is left as it
    is. *)
Theorem tick_keeps_cycle_below_duration (dt : Q) (w : World.t) :
  (0 < World.dayNightDuration w)%Q →
  (World.dayNightCycle w < World.dayNightDuration w)%Q →
  let r := World.tick dt w in
  (World.dayNightCycle r.1 < World.dayNightDuration r.1)%Q
  ∧ (r.2 = true ↔ World.isNight r.1 = negb (World.isNight w))
  ∧ (r.2 = true → World.dayNightCycle r.1 = 0%Q)
  ∧ (World.isPaused w = true → r = (w, false)).
Proof.
  intros Hdur Hc.
  pose proof (tick_cases dt w) as (Hd & _ & Hcase). cbv zeta in *.
  destruct (World.tick dt w) as [w' flipped]. cbn [fst snd] in *.
  rewrite Hd.
  destruct Hcase as [(-> & Hp & ->)|[(-> & Hp & Hn & Hcy & Hlt)|(-> & Hp & Hn & Hcy & Hge)]].
  - split; [done|]. split; [|done].
    split; [done|]. destruct (World.isNight w); done.
  - rewrite Hcy, Hn. split; [done|]. split; [|split; [done|congruence]].
    split; [done|]. destruct (World.isNight w); done.
  - rewrite Hcy, Hn. split; [done|]. split; [done|]. split; [done|congruence].
Qed.

Lemma tick_keeps_cycle_below_duration_witness :
  let w := World.new None in
  let r := World.tick (1 # 60) w in
  (World.dayNightCycle r.1 < World.dayNightDuration r.1)%Q
  ∧ (r.2 = true ↔ World.isNight r.1 = negb (World.isNight w))
  ∧ (r.2 = true → World.dayNightCycle r.1 = 0%Q)
  ∧ (World.isPaused w = true → r = (w, false)).
Proof.
  apply (tick_keeps_cycle_below_duration (1 # 60) (World.new None)); by vm_compute.
Defined.

Lemma ticks_bound (dts : list Q) (w : World.t) :
  Forall (λ dt, (0 <= dt)%Q) dts →
  (0 <= World.dayNightCycle w)%Q →
  let r := Schedule.ticks dts w in
  (0 <= World.dayNightCycle r.1)%Q
  ∧ (inject_Z (Z.of_nat r.2) * World.dayNightDuration w
     <= World.dayNightCycle w + Schedule.total dts - World.dayNightCycle r.1)%Q
  ∧ World.isNight r.1 = (if Nat.even r.2 then World.isNight w
                         else negb (World.isNight w)).
Proof.
  revert w. induction dts as [|dt rest IH]; intros w Hall Hc.
  - cbn [Schedule.ticks Schedule.total fold_right fst snd]. split; [done|].
    change (inject_Z (Z.of_nat 0)) with 0%Q. split; [lra|done].
  - apply Forall_cons in Hall as [Hdt Hrest]. cbn [Schedule.ticks].
    pose proof (tick_cases dt w) as (Hd & _ & Hcase). cbv zeta in Hd, Hcase.
    destruct (World.tick dt w) as [w1 flipped]. cbn [fst snd] in Hd, Hcase.
    assert (0 <= World.dayNightCycle w1)%Q as Hc1.
    { destruct Hcase as [(_ & _ & ->)|[(_ & _ & _ & -> & _)|(_ & _ & _ & -> & _)]];
        [done|lra|lra]. }
    specialize (IH w1 Hrest Hc1). cbv zeta in IH. rewrite Hd in IH.
    destruct (Schedule.ticks rest w1) as [w2 n]. cbn [fst snd] in IH |- *.
    destruct IH as (Hc2 & Hb & Hn). split; [done|].
    change (Schedule.total (dt :: rest)) with (dt + Schedule.total rest)%Q.
    destruct Hcase as [(-> & _ & ->)|[(-> & _ & Hn1 & Hcy & _)|(-> & _ & Hn1 & Hcy & Hge)]].
    + cbn [Nat.add]. split; [lra|done].
    + cbn [Nat.add]. rewrite Hcy in Hb. split; [lra|]. by rewrite Hn, Hn1.
    + change (1 + n)%nat with (S n).
      rewrite Nat2Z.inj_succ, <- Z.add_1_r, inject_Z_plus.
      change (inject_Z 1) with 1%Q. rewrite Hcy in Hb.
      split; [set (k := inject_Z (Z.of_nat n)) in *; nra|].
      rewrite Hn, Hn1, Nat.even_succ, <- Nat.negb_even.
      destruct (Nat.even n), (World.isNight w); done.
Qed.

(** X17. No phase is shorter than [dayNightDuration]: over any series of
    ticks with non-negative steps, the number of flips times the phase
    length is at most the simulated time gone by (plus what the clock
    already showed), and the world is in the night exactly when the number
    of flips has changed its parity. *)
Theorem phases_last_a_full_duration (dts : list Q) (w : World.t) :
  Forall (λ dt, (0 <= dt)%Q) dts →
  (0 <= World.dayNightCycle w)%Q →
  let r := Schedule.ticks dts w in
  (inject_Z (Z.of_nat r.2) * World.dayNightDuration w
   <= World.dayNightCycle w + Schedule.total dts)%Q
  ∧ World.isNight r.1 = (if Nat.even r.2 then World.isNight w
                         else negb (World.isNight w)).
Proof.
  intros Hall Hc. destruct (ticks_bound dts w Hall Hc) as (Hc' & Hb & Hn).
  cbv zeta in *. split; [lra|done].
Qed.

Lemma phases_last_a_full_duration_witness :
  let w := World.new (Some 1%Q) in
  let r := Schedule.ticks [(1 # 2)%Q; 3%Q; (3 # 4)%Q] w in
  (inject_Z (Z.of_nat r.2) * World.dayNightDuration w
   <= World.dayNightCycle w + Schedule.total [(1 # 2)%Q; 3%Q; (3 # 4)%Q])%Q
  ∧ World.isNight r.1 = (if Nat.even r.2 then World.isNight w
                         else negb (World.isNight w)).
Proof.
  apply (phases_last_a_full_duration [(1 # 2)%Q; 3%Q; (3 # 4)%Q] (World.new (Some 1%Q))).
  - repeat constructor; by vm_compute.
  - by vm_compute.
Defined.

(** X18. The clamps: [clampX] never returns a negative abscissa, and
    [clampOceanY] always returns a depth in the ocean, whatever its
    argument and margin.  Where the margin fits the world, the results also
    respect the far bound, the clamps leave a coordinate inside the bounds
    as it is, and clamping again changes nothing. *)
Theorem clamps_stay_in_bounds (w : World.t) (x y : Q) (margin : option Q) :
  (0 <= World.clampX w x margin)%Q
  ∧ World.isInOcean w (World.clampOceanY w y margin) = true
  ∧ ((default 50 margin <= World.width w)%Q →
     (World.clampX w x margin <= World.width w - default 50 margin)%Q
     ∧ ((0 <= x <= World.width w - default 50 margin)%Q →
        (World.clampX w x margin == x)%Q))
  ∧ ((World.oceanTop w <= World.height w - default 50 margin)%Q →
     (World.clampOceanY w y margin <= World.height w - default 50 margin)%Q
     ∧ ((World.oceanTop w <= y <= World.height w - default 50 margin)%Q →
        (World.clampOceanY w y margin == y)%Q))
  ∧ (World.clampX w (World.clampX w x margin) margin == World.clampX w x margin)%Q
  ∧ (World.clampOceanY w (World.clampOceanY w y margin) margin
     == World.clampOceanY w y margin)%Q.
Proof.
  unfold World.clampX, World.clampOceanY, World.isInOcean.
  set (m := default 50%Q margin). set (W := World.width w).
  set (H := World.height w). set (top := World.oceanTop w).
  repeat split.
  - apply Q.le_max_l.
  - apply Qle_bool_iff, Q.le_max_l.
  - destruct (Q.max_spec 0 (Qmin x (W - m))) as [[? ->]|[? ->]];
      destruct (Q.min_spec x (W - m)) as [[? Hm]|[? Hm]]; rewrite ?Hm in *; lra.
  - destruct (Q.max_spec 0 (Qmin x (W - m))) as [[? ->]|[? ->]];
      destruct (Q.min_spec x (W - m)) as [[? Hm]|[? Hm]]; rewrite ?Hm in *; lra.
  - destruct (Q.max_spec top (Qmin y (H - m))) as [[? ->]|[? ->]];
      destruct (Q.min_spec y (H - m)) as [[? Hm]|[? Hm]]; rewrite ?Hm in *; lra.
  - destruct (Q.max_spec top (Qmin y (H - m))) as [[? ->]|[? ->]];
      destruct (Q.min_spec y (H - m)) as [[? Hm]|[? Hm]]; rewrite ?Hm in *; lra.
  - set (c := Qmax 0 (Qmin x (W - m))).
    assert (0 <= c)%Q as Hc0 by apply Q.le_max_l.
    assert (c <= W - m ∨ c == 0)%Q as Hc1.
    { subst c. destruct (Q.max_spec 0 (Qmin x (W - m))) as [[? ->]|[? ->]];
        [left; apply Q.le_min_r | by right]. }
    destruct (Q.max_spec 0 (Qmin c (W - m))) as [[? ->]|[? ->]];
      destruct (Q.min_spec c (W - m)) as [[? Hm]|[? Hm]]; rewrite ?Hm in *;
      destruct Hc1; lra.
  - set (c := Qmax top (Qmin y (H - m))).
    assert (top <= c)%Q as Hc0 by apply Q.le_max_l.
    assert (c <= H - m ∨ c == top)%Q as Hc1.
    { subst c. destruct (Q.max_spec top (Qmin y (H - m))) as [[? ->]|[? ->]];
        [left; apply Q.le_min_r | by right]. }
    destruct (Q.max_spec top (Qmin c (H - m))) as [[? ->]|[? ->]];
      destruct (Q.min_spec c (H - m)) as [[? Hm]|[? Hm]]; rewrite ?Hm in *;
      destruct Hc1; lra.
Qed.

(** ** The nearest entity of an array *)

Section NearestFacts.

Import Utility NearestNotions.

Lemma lessThan_irrefl a : lessThan a a = false.
Proof.
  destruct a as [|p]; [done|]. cbn [lessThan].
  apply not_true_iff_false. rewrite Qltb_spec. apply Qlt_irrefl.
Qed.

Lemma lessThan_trans a b c :
  lessThan a b = true → lessThan b c = true → lessThan a c = true.
Proof.
  destruct a as [|p], b as [|q], c as [|r]; cbn [lessThan]; try done.
  rewrite !Qltb_spec. apply Qlt_trans.
Qed.

(** [a < c] and not [b < c] give [a < b]. *)
Lemma lessThan_below a b c :
  lessThan a c = true → lessThan b c = false → lessThan a b = true.
Proof.
  destruct a as [|p], b as [|q], c as [|r]; cbn [lessThan]; try done.
  rewrite <- not_true_iff_false, !Qltb_spec. intros H1 H2.
  apply Qnot_le_lt. intros H3. apply H2. by apply (Qle_lt_trans _ p).
Qed.

Lemma lessThan_not_above a b c :
  lessThan a b = true → lessThan c b = false → lessThan c a = false.
Proof.
  intros H1 H2. apply not_true_iff_false. intros H3.
  by rewrite (lessThan_trans c a b H3 H1) in H2.
Qed.

Variables (d : nat → Dist) (maxDist : option Q).

Local Abbreviation visitNearest :=
  (λ '(nearest, best) obj,
     let dist := d obj in
     if lessThan dist best then (Some obj, dist) else (nearest, best)).

Lemma findNearest_scan (array : list nat) :
  scanned d maxDist array (fold_left visitNearest array (None, bound maxDist)).
Proof.
  induction array as [|o l IH] using rev_ind.
  - unfold scanned. simpl. split; [done|]. intros o Ho. by apply not_elem_of_nil in Ho.
  - rewrite fold_left_app. cbn [fold_left].
    destruct (fold_left visitNearest l (None, bound maxDist)) as [nearest best].
    unfold scanned in IH. cbn [fst snd] in IH. cbv zeta.
    destruct nearest as [obj|].
    + destruct IH as (-> & Hw & i & Hi & Hmin & Hfirst).
      destruct (lessThan (d o) (d obj)) eqn:Hlt; unfold scanned; cbn [fst snd].
      * split; [done|]. split; [by apply (lessThan_trans _ (d obj))|].
        exists (length l). split; [by rewrite lookup_app_r, Nat.sub_diag|].
        split.
        -- intros j o' Hj. apply lookup_app_Some in Hj as [Hj|[_ Hj]].
           ++ apply (lessThan_not_above _ (d obj)); [done | by apply (Hmin j)].
           ++ destruct (j - length l)%nat; [|done]. injection Hj as <-.
              apply lessThan_irrefl.
        -- intros j o' Hjl Hj. rewrite lookup_app_l in Hj by done.
           apply (lessThan_below _ _ (d obj)); [done | by apply (Hmin j)].
      * split; [done|]. split; [done|].
        exists i. split; [by apply lookup_app_l_Some|].
        split.
        -- intros j o' Hj. apply lookup_app_Some in Hj as [Hj|[_ Hj]].
           ++ by apply (Hmin j).
           ++ destruct (j - length l)%nat; [|done]. by injection Hj as <-.
        -- intros j o' Hji Hj.
           apply lookup_lt_Some in Hi as Hil.
           rewrite lookup_app_l in Hj by lia. by apply (Hfirst j).
    + destruct IH as (-> & Hnone).
      destruct (lessThan (d o) (bound maxDist)) eqn:Hn; unfold scanned; cbn [fst snd].
      * split; [done|]. split; [done|].
        exists (length l). split; [by rewrite lookup_app_r, Nat.sub_diag|].
        split.
        -- intros j o' Hj. apply lookup_app_Some in Hj as [Hj|[_ Hj]].
           ++ apply (lessThan_not_above _ (bound maxDist)); [done|].
              apply Hnone. by eapply list_elem_of_lookup_2.
           ++ destruct (j - length l)%nat; [|done]. injection Hj as <-.
              apply lessThan_irrefl.
        -- intros j o' Hjl Hj. rewrite lookup_app_l in Hj by done.
           apply (lessThan_below _ _ (bound maxDist)); [done|].
           apply Hnone. by eapply list_elem_of_lookup_2.
      * split; [done|].
        intros o' [Ho'|Ho']%elem_of_app; [by apply Hnone|].
        by apply list_elem_of_singleton in Ho' as ->.
Qed.

End NearestFacts.

(** X19. [findNearest] decides on the distances it computes, that is on
    the numbers [Math.sqrt] returns, whatever the rounding of the
    arithmetic: it returns [null] exactly when no entity of the array has a
    computed distance below [maxDist]; otherwise it returns an entity of the
    array whose computed distance is below [maxDist] and above that of no
    entity of the array, and every entity that comes before it in the array
    has a computed distance strictly above its own (among entities of the
    same computed distance the first one wins). *)
Theorem findNearest_is_first_closest (Double : Type) (minus : Q → Q → Double)
    (times plus : Double → Double → Double) (sqrt : Double → Utility.Dist)
    (h : gmap nat Entity) (x y : Q) (array : list nat) (maxDist : option Q) :
  let d := Utility.distance Double minus times plus sqrt h x y in
  let bound := match maxDist with
               | Some m => Utility.Finite m
               | None => Utility.Infinity
               end in
  match Utility.findNearest Double minus times plus sqrt h x y array maxDist with
  | None => ∀ obj, obj ∈ array → Utility.lessThan (d obj) bound = false
  | Some obj =>
      Utility.lessThan (d obj) bound = true
      ∧ ∃ i, array !! i = Some obj
             ∧ (∀ j o, array !! j = Some o → Utility.lessThan (d o) (d obj) = false)
             ∧ (∀ j o, (j < i)%nat → array !! j = Some o →
                       Utility.lessThan (d obj) (d o) = true)
  end.
Proof.
  cbv zeta.
  pose proof (findNearest_scan
                (Utility.distance Double minus times plus sqrt h x y) maxDist array)
    as Hscan.
  unfold Utility.findNearest. unfold NearestNotions.scanned, NearestNotions.bound in Hscan.
  destruct (fold_left _ array _) as [nearest best]. cbn [fst snd] in *.
  destruct nearest as [obj|]; [by destruct Hscan as (_ & ? & ?)|by destruct Hscan].
Qed.

(** ** The registry: what a removal takes, and when *)

Section RegistryMore.

Import EntityManager Registry.

Lemma filter_ne_delete_indexOf (obj : nat) (arr : list nat) i :
  indexOf obj arr = Some i →
  filter (λ e, e ≠ obj) (delete i arr) = filter (λ e, e ≠ obj) arr.
Proof.
  revert i. induction arr as [|a arr IH]; intros i; cbn [indexOf]; [done|].
  destruct (decide (a = obj)) as [->|Hne].
  - intros [= <-]. cbn [delete list_delete]. rewrite filter_cons, decide_False; [done|].
    intros H. by apply H.
  - destruct (indexOf obj arr) as [j|]; [|done]. intros [= <-]. cbn [delete list_delete].
    rewrite !filter_cons, !decide_True by done. f_equal. by apply IH.
Qed.

Lemma filter_ne_spliceOut (obj : nat) (arr : list nat) :
  filter (λ e, e ≠ obj) (spliceOut obj arr) = filter (λ e, e ≠ obj) arr.
Proof.
  unfold spliceOut. destruct (indexOf obj arr) eqn:E; [|done].
  by apply filter_ne_delete_indexOf.
Qed.

Lemma removeAt_published h entity key em :
  published (removeAt h entity key em)
  = published em ++ [ENTITY_REMOVED entity; HUD_REFRESH].
Proof.
  unfold removeAt. destruct (GRID_MAP key); cbn [published emit setGridOf setPool];
    by rewrite <- app_assoc.
Qed.

Lemma removeAt_scalars h entity key em :
  counters (removeAt h entity key em) = counters em
  ∧ waterPollution (removeAt h entity key em) = waterPollution em
  ∧ biodiversity (removeAt h entity key em) = biodiversity em.
Proof. unfold removeAt. destruct (GRID_MAP key); done. Qed.

Lemma add_grids h entity poolKey useGrid em gk :
  grids (add h entity poolKey useGrid em) gk
  = if useGrid then
      if decide (GRID_MAP poolKey = Some gk)
      then SpatialGrid.add h entity (grids em gk) else grids em gk
    else grids em gk.
Proof.
  unfold add. destruct useGrid; [|done].
  destruct (GRID_MAP poolKey) as [gk'|] eqn:E; cbn [grids emit setGridOf setPool].
  - destruct (decide (gk = gk')) as [->|Hne].
    + by rewrite decide_True.
    + rewrite decide_False; [done | congruence].
  - by rewrite decide_False.
Qed.

Lemma add_published h entity poolKey useGrid em :
  published (add h entity poolKey useGrid em)
  = published em ++ [ENTITY_SPAWNED entity poolKey; HUD_REFRESH].
Proof.
  unfold add. destruct useGrid; [destruct (GRID_MAP poolKey)|];
    cbn [published emit setGridOf setPool]; by rewrite <- app_assoc.
Qed.

Lemma add_scalars h entity poolKey useGrid em :
  counters (add h entity poolKey useGrid em) = counters em
  ∧ waterPollution (add h entity poolKey useGrid em) = waterPollution em
  ∧ biodiversity (add h entity poolKey useGrid em) = biodiversity em.
Proof. unfold add. destruct useGrid; [destruct (GRID_MAP poolKey)|]; done. Qed.

Lemma matching_delete_lookup h def (arr : list nat) i e :
  arr !! i = Some e →
  (matching h def (delete i arr) + (if sameSpecies h def e then 1 else 0)
   = matching h def arr)%nat.
Proof.
  revert i. induction arr as [|a arr IH]; intros i; [done|].
  destruct i as [|i]; simpl.
  - intros [= ->]. rewrite matching_cons. lia.
  - intros Hi. rewrite !matching_cons. specialize (IH i Hi). lia.
Qed.

Lemma matching_spliceOut_elem h def e (arr : list nat) :
  e ∈ arr →
  (matching h def (spliceOut e arr) + (if sameSpecies h def e then 1 else 0)
   = matching h def arr)%nat.
Proof.
  intros Hin. unfold spliceOut.
  destruct (indexOf_is_Some e arr Hin) as [i Hi]. rewrite Hi.
  apply matching_delete_lookup. by apply indexOf_Some.
Qed.

Lemma removals_pools_occ_other h q em key e :
  e ∉ q →
  occ e (pools (fold_left (λ em e, remove h e em) q em) key) = occ e (pools em key).
Proof.
  revert em. induction q as [|a q IH]; intros em Hno; simpl; [done|].
  apply not_elem_of_cons in Hno as [Hne Hno].
  rewrite IH by done. by apply remove_pools_occ_other.
Qed.

Lemma queueRemove_queue_inv entity e em :
  e ∈ _removeQueue (queueRemove entity em) → e = entity ∨ e ∈ _removeQueue em.
Proof.
  unfold queueRemove. destruct (includes _ _); [by right|]. simpl.
  intros [H|H]%elem_of_app; [by right|]. left. by apply list_elem_of_singleton in H.
Qed.

Lemma queueAll_elem_of_inv calls em e :
  e ∈ _removeQueue (queueAll calls em) → e ∈ calls ∨ e ∈ _removeQueue em.
Proof.
  revert em. induction calls as [|a calls IH]; intros em; [by right|].
  unfold queueAll in *. simpl. intros H. apply IH in H as [H|H].
  - left. by right.
  - apply queueRemove_queue_inv in H as [->|H]; [left; left | by right].
Qed.

Lemma queueAll_app l1 l2 em : queueAll (l1 ++ l2) em = queueAll l2 (queueAll l1 em).
Proof. unfold queueAll. apply fold_left_app. Qed.

Lemma elem_of_concat_map (f : PoolKey → list nat) (l : list PoolKey) (e : nat) :
  e ∈ concat (map f l) ↔ ∃ k, k ∈ l ∧ e ∈ f k.
Proof.
  induction l as [|a l IH]; simpl.
  - split; [by intros H%elem_of_nil | by intros (k & H%elem_of_nil & _)].
  - rewrite elem_of_app, IH. split.
    + intros [H|(k & Hk & H)]; [exists a; split; [left|done] | exists k; split; [by right|done]].
    + intros (k & [->|Hk]%elem_of_cons & H); [by left | right; by exists k].
Qed.

End RegistryMore.

(** X20. [remove] takes exactly one reference to the entity out of the
    pools (none when there is none), keeps every other entity of every pool
    in its place and order, publishes the removal and a display refresh
    exactly when it took a reference, and leaves the removal queue, the id
    counters and the environment values alone. *)
Theorem remove_takes_one_reference (h : gmap nat Entity) (em : EntityManager.t)
    (entity : nat) :
  let em' := EntityManager.remove h entity em in
  Registry.poolOcc entity em' = pred (Registry.poolOcc entity em)
  ∧ (∀ key, filter (λ e, e ≠ entity) (EntityManager.pools em' key)
            = filter (λ e, e ≠ entity) (EntityManager.pools em key))
  ∧ EntityManager.published em'
    = EntityManager.published em
      ++ (if decide (Registry.poolOcc entity em = 0%nat) then []
          else [ENTITY_REMOVED entity; HUD_REFRESH])
  ∧ EntityManager._removeQueue em' = EntityManager._removeQueue em
  ∧ EntityManager.counters em' = EntityManager.counters em
  ∧ EntityManager.waterPollution em' = EntityManager.waterPollution em.
Proof.
  cbv zeta. split; [apply poolOcc_remove_same|].
  destruct (remove_cases h entity em) as [[Hno ->]|(k & Hin & ->)].
  - apply poolOcc_zero in Hno. rewrite Hno, decide_True by done.
    by rewrite app_nil_r.
  - assert (Registry.poolOcc entity em ≠ 0%nat) as Hocc.
    { rewrite poolOcc_zero. intros Hno. by destruct (Hno k). }
    rewrite decide_False by done.
    destruct (removeAt_scalars h entity k em) as (Hc & Hw & _).
    split; [|by rewrite removeAt_published, removeAt_queue].
    intros key. rewrite removeAt_pools. destruct (decide _) as [->|]; [|done].
    apply filter_ne_spliceOut.
Qed.

(** X21. Removal is deferred: queueing an entity changes no species count
    and no answer of [canSpawn]; the slot under the cap is freed by the
    flush, which lowers the count of the entity's species by one and no
    other count. *)
Theorem removal_frees_cap_at_flush (h : gmap nat Entity) (em : EntityManager.t)
    (entity : nat) (key : PoolKey) :
  EntityManager._removeQueue em = [] →
  entity ∈ EntityManager.pools em key →
  key ≠ islands →
  (Registry.poolOcc entity em ≤ 1)%nat →
  ∀ def,
    EntityManager.countSpecies h (EntityManager.queueRemove entity em) def
    = EntityManager.countSpecies h em def
    ∧ EntityManager.canSpawn h (EntityManager.queueRemove entity em) def
      = EntityManager.canSpawn h em def
    ∧ EntityManager.countSpecies h
        (EntityManager.flushRemovals h (EntityManager.queueRemove entity em)) def
      = (EntityManager.countSpecies h em def
         - (if EntityManager.sameSpecies h def entity then 1 else 0))%Z.
Proof.
  intros Hq Hin Hkey Hocc def.
  assert (EntityManager.countSpecies h (EntityManager.queueRemove entity em) def
          = EntityManager.countSpecies h em def) as Hsame.
  { rewrite !countSpecies_liveCount. apply liveCount_ext; [|done].
    intros k. by rewrite queueRemove_pools. }
  split; [done|]. split; [unfold EntityManager.canSpawn; by rewrite Hsame|].
  unfold EntityManager.queueRemove, includes. rewrite Hq.
  rewrite bool_decide_eq_false_2 by apply not_elem_of_nil.
  unfold EntityManager.flushRemovals. cbn [EntityManager._removeQueue
    EntityManager.setQueue app fold_left].
  set (em1 := EntityManager.setQueue [entity] em).
  rewrite !countSpecies_liveCount.
  rewrite (liveCount_ext h h (EntityManager.remove h entity em1)
             (EntityManager.setQueue [] (EntityManager.remove h entity em1)));
    [|done|done].
  destruct (remove_cases h entity em1) as [[Hno _]|(k & Hk & ->)];
    [by destruct (Hno key)|].
  assert (k = key) as -> by (by apply (poolOcc_unique entity em)).
  rewrite !liveCount_sum.
  pose proof (sum_update Registry.scanned
                (λ k, Registry.matching h def (EntityManager.pools em k))
                (λ k, Registry.matching h def
                        (EntityManager.pools (Registry.removeAt h entity key em1) k))
                key scanned_NoDup) as H.
  cbv beta in H.
  specialize (H ltac:(by apply scanned_elem_of)
                ltac:(intros k Hk'; by rewrite removeAt_pools, decide_False)).
  rewrite removeAt_pools, decide_True in H by done.
  pose proof (matching_spliceOut_elem h def entity (EntityManager.pools em key) Hin) as Hm.
  change (EntityManager.pools em1 key) with (EntityManager.pools em key) in H.
  destruct (EntityManager.sameSpecies h def entity); lia.
Qed.

Lemma removal_frees_cap_at_flush_witness :
  let h := heap Scenario.fishSpawned in
  let em := entities Scenario.fishSpawned in
  let def := SPECIES.SALMON false in
  EntityManager.countSpecies h (EntityManager.queueRemove 0 em) def
  = EntityManager.countSpecies h em def
  ∧ EntityManager.canSpawn h (EntityManager.queueRemove 0 em) def
    = EntityManager.canSpawn h em def
  ∧ EntityManager.countSpecies h
      (EntityManager.flushRemovals h (EntityManager.queueRemove 0 em)) def
    = (EntityManager.countSpecies h em def
       - (if EntityManager.sameSpecies h def 0 then 1 else 0))%Z.
Proof.
  apply (removal_frees_cap_at_flush (heap Scenario.fishSpawned)
           (entities Scenario.fishSpawned) 0 fish).
  - reflexivity.
  - apply (bool_decide_unpack _). by vm_compute.
  - discriminate.
  - vm_compute. lia.
Defined.

(** X22. Adding an entity that the registry does not hold yet and
    removing it again restores every pool and every bucket of every grid,
    order included, whether or not it was indexed on the way; the bus has
    seen the spawn and the removal, each followed by a display refresh. *)
Theorem add_then_remove_restores (h : gmap nat Entity) (em : EntityManager.t)
    (entity : nat) (poolKey : PoolKey) (useGrid : bool) :
  (∀ key, entity ∉ EntityManager.pools em key) →
  (∀ gk, ¬ SpatialGrid.holds (EntityManager.grids em gk) entity) →
  let em' := EntityManager.remove h entity
               (EntityManager.add h entity poolKey useGrid em) in
  (∀ key, EntityManager.pools em' key = EntityManager.pools em key)
  ∧ (∀ gk key, SpatialGrid.cellAt (EntityManager.grids em' gk) key
               = SpatialGrid.cellAt (EntityManager.grids em gk) key)
  ∧ EntityManager.published em'
    = EntityManager.published em
      ++ [ENTITY_SPAWNED entity poolKey; HUD_REFRESH;
          ENTITY_REMOVED entity; HUD_REFRESH]
  ∧ EntityManager._removeQueue em' = EntityManager._removeQueue em.
Proof.
  intros Hno Hgrid. cbv zeta.
  set (em1 := EntityManager.add h entity poolKey useGrid em).
  destruct (remove_cases h entity em1) as [[Habs _]|(k & Hk & ->)].
  { destruct (Habs poolKey). unfold em1. rewrite add_pools, decide_True by done.
    apply elem_of_app. right. left. }
  assert (k = poolKey) as ->.
  { destruct (decide (k = poolKey)) as [|Hne]; [done|].
    unfold em1 in Hk. rewrite add_pools, decide_False in Hk by done.
    by destruct (Hno k). }
  assert (∀ gk key, entity ∉ SpatialGrid.cellAt (EntityManager.grids em gk) key) as Hcell.
  { intros gk key Hin. destruct (Hgrid gk). by exists key. }
  split; [|split; [|split]].
  - intros key. rewrite removeAt_pools. unfold em1.
    destruct (decide (key = poolKey)) as [->|Hne].
    + rewrite add_pools, decide_True by done. apply spliceOut_snoc_absent, Hno.
    + by rewrite add_pools, decide_False.
  - intros gk key. rewrite removeAt_grids. unfold em1. rewrite add_grids.
    destruct (decide (GRID_MAP poolKey = Some gk)) as [Hmap|]; [|by destruct useGrid].
    destruct useGrid.
    + rewrite cellAt_remove, cellAt_add.
      rewrite (key_cellSize (EntityManager.grids em gk)
                 (SpatialGrid.add h entity (EntityManager.grids em gk))) by done.
      destruct (decide _) as [->|]; [|done].
      apply spliceOut_snoc_absent, Hcell.
    + rewrite cellAt_remove. destruct (decide _) as [->|]; [|done].
      apply spliceOut_absent, Hcell.
  - rewrite removeAt_published. unfold em1. rewrite add_published.
    by rewrite <- app_assoc.
  - rewrite removeAt_queue. apply add_queue.
Qed.

Lemma add_then_remove_restores_witness :
  let em := EntityManager.new 150 in
  let em' := EntityManager.remove Scenario.oneAt10 0
               (EntityManager.add Scenario.oneAt10 0 fish true em) in
  (∀ key, EntityManager.pools em' key = EntityManager.pools em key)
  ∧ (∀ gk key, SpatialGrid.cellAt (EntityManager.grids em' gk) key
               = SpatialGrid.cellAt (EntityManager.grids em gk) key)
  ∧ EntityManager.published em'
    = EntityManager.published em
      ++ [ENTITY_SPAWNED 0 fish; HUD_REFRESH; ENTITY_REMOVED 0; HUD_REFRESH]
  ∧ EntityManager._removeQueue em' = EntityManager._removeQueue em.
Proof.
  apply (add_then_remove_restores Scenario.oneAt10 (EntityManager.new 150) 0 fish true).
  - intros key. apply not_elem_of_nil.
  - intros gk [key Hin]. cbn [EntityManager.new EntityManager.grids] in Hin.
    rewrite cellAt_new in Hin. by apply elem_of_nil in Hin.
Defined.

(** ** The end of a frame: dead entities leave with the next flush *)

Section DeadFacts.

Import EntityManager Registry.

Local Abbreviation deadOnes h l := (filter (λ e, Main.isDead h e = true) l).

Lemma withEntities_id s : withEntities (λ em, em) s = s.
Proof. by destruct s. Qed.

Lemma markDead_inner (arr : list nat) (s : Game) :
  fold_left (λ s e, if Main.isDead (heap s) e
                    then withEntities (queueRemove e) s else s) arr s
  = withEntities (queueAll (deadOnes (heap s) arr)) s.
Proof.
  revert s. induction arr as [|e arr IH]; intros s; cbn [fold_left].
  - by destruct s.
  - rewrite filter_cons. destruct (Main.isDead (heap s) e) eqn:Hd.
    + rewrite decide_True by done. rewrite IH. done.
    + rewrite decide_False by congruence. apply IH.
Qed.

Lemma markDead_outer (arrs : list (list nat)) (s : Game) :
  fold_left
    (λ s arr,
       fold_left (λ s e, if Main.isDead (heap s) e
                         then withEntities (queueRemove e) s else s) arr s)
    arrs s
  = withEntities (queueAll (deadOnes (heap s) (concat arrs))) s.
Proof.
  revert s. induction arrs as [|arr arrs IH]; intros s; cbn [fold_left concat].
  - by destruct s.
  - rewrite markDead_inner, IH. unfold withEntities. cbn [heap entities].
    by rewrite filter_app, queueAll_app.
Qed.

Lemma markDead_queueAll (s : Game) :
  Main.markDead s
  = withEntities (queueAll (deadOnes (heap s) (concat (allArrays (entities s))))) s.
Proof. apply markDead_outer. Qed.

End DeadFacts.



(** ** What every reachable state of the game respects besides the caps *)

Section BoundSteps.

Import EntityManager Registry Simulation.

Variable isMobile : bool.

Local Abbreviation Bnd := Bounds.bounded.

Lemma Bnd_initial : Bnd initial.
Proof. split; [simpl; lia|]. split; [by vm_compute|done]. Qed.

Lemma Bnd_frame s s' :
  Bnd s →
  (length (pools (entities s') islands) ≤ length (pools (entities s) islands))%nat →
  waterPollution (entities s') = waterPollution (entities s) →
  (∀ gk, SpatialGrid.cellSize (grids (entities s') gk)
         = SpatialGrid.cellSize (grids (entities s) gk)) →
  Bnd s'.
Proof.
  intros (Hi & Hw & Hg) Hi' Hw' Hg'. split; [lia|]. split; [by rewrite Hw'|].
  intros gk. by rewrite Hg'.
Qed.

Lemma Bnd_add s h' obj poolKey useGrid em1 :
  Bnd s →
  pools em1 islands = pools (entities s) islands →
  waterPollution em1 = waterPollution (entities s) →
  (∀ gk, SpatialGrid.cellSize (grids em1 gk)
         = SpatialGrid.cellSize (grids (entities s) gk)) →
  (poolKey = islands → (length (pools (entities s) islands) < 8)%nat) →
  Bnd {| heap := h'; entities := add h' obj poolKey useGrid em1 |}.
Proof.
  intros (Hi & Hw & Hg) Hp Hw1 Hg1 Hroom. unfold Bounds.bounded. cbn [entities].
  destruct (add_scalars h' obj poolKey useGrid em1) as (_ & Hw2 & _).
  split; [|split].
  - rewrite add_pools. destruct (decide (islands = poolKey)) as [<-|].
    + rewrite Hp, length_app. simpl. specialize (Hroom eq_refl). lia.
    + by rewrite Hp.
  - by rewrite Hw2, Hw1.
  - intros gk. rewrite add_grids.
    destruct useGrid; [destruct (decide _)|]; rewrite ?cellSize_add, Hg1; apply Hg.
Qed.

Ltac open_bnd :=
  unfold Spawners.construct, Spawners.register, withEntities;
  cbn [fst snd heap entities].

Ltac close_bnd :=
  match goal with
  | H : Bounds.bounded ?s |- _ =>
      apply (Bnd_add s); [done | done | done | done | discriminate]
  end.

Ltac gate_bnd :=
  match goal with
  | |- context [negb (Spawners.canSpawn ?s ?d)] =>
      destruct (Spawners.canSpawn s d) eqn:Hcan; cbn [negb fst]; [|done]
  end.

Lemma Bnd_queueRemove entity s : Bnd s → Bnd (withEntities (queueRemove entity) s).
Proof.
  intros H. apply (Bnd_frame s); [done| | |]; cbn [withEntities entities].
  - by rewrite queueRemove_pools.
  - apply queueRemove_waterPollution.
  - intros gk. by rewrite queueRemove_grids.
Qed.

Lemma Bnd_spawnFish def x y s : Bnd s → Bnd (Spawners.spawnFish isMobile def x y s).1.
Proof.
  intros HB. unfold Spawners.spawnFish. gate_bnd. open_bnd.
  destruct (isOctopus def); [|case_bool_decide]; cbn [fst]; close_bnd.
Qed.

Lemma Bnd_addPredator def coin x y s :
  Bnd s → Bnd (Spawners.addPredator isMobile def coin x y s).1.
Proof.
  intros HB. unfold Spawners.addPredator. case_bool_decide; [done|].
  match goal with
  | |- context [negb (Spawners.canSpawn s ?d)] => generalize d; intros def'
  end.
  gate_bnd. open_bnd. close_bnd.
Qed.

Lemma Bnd_addSeaCreature def pick x y s :
  Bnd s → Bnd (Spawners.addSeaCreature isMobile def pick x y s).1.
Proof.
  intros HB. unfold Spawners.addSeaCreature. cbv zeta.
  match goal with
  | |- context [negb (Spawners.canSpawn s ?d)] => generalize d; intros def'
  end.
  gate_bnd. open_bnd. close_bnd.
Qed.

Lemma Bnd_addFoodAt x y shouldFall s :
  Bnd s → Bnd (Spawners.addFoodAt isMobile x y shouldFall s).1.
Proof.
  intros HB. unfold Spawners.addFoodAt. gate_bnd. open_bnd.
  destruct shouldFall; cbn [fst entities heap]; apply (Bnd_add s); try done; try discriminate.
  intros gk. cbn [grids setGridOf bump]. destruct (decide _) as [->|]; done.
Qed.

Lemma Bnd_addAlgae type coin x y s :
  Bnd s → Bnd (Spawners.addAlgae isMobile type coin x y s).1.
Proof.
  intros HB. unfold Spawners.addAlgae.
  set (def := if bool_decide (type = Some "toxic") then _ else _).
  clearbody def. gate_bnd. open_bnd.
  destruct (isSeagrass def); [|destruct (isKelp def)]; cbn [fst]; close_bnd.
Qed.

Lemma Bnd_addIsland valid x y s : Bnd s → Bnd (Spawners.addIsland valid x y s).1.
Proof.
  intros HB. unfold Spawners.addIsland. case_bool_decide as Hfull; [done|].
  destruct valid; cbn [negb fst]; [|done]. open_bnd.
  apply (Bnd_add s); [done | done | done | done | intros _; lia].
Qed.

Lemma Bnd_hatch egg s : Bnd s → Bnd (Spawners.hatch isMobile egg s).
Proof.
  intros HB. unfold Spawners.hatch.
  destruct (Spawners.canSpawn s (SPECIES.MALLARD isMobile)) eqn:Hcan; cbn [negb].
  - open_bnd.
    match goal with
    | |- context [{| heap := ?h; entities := queueRemove ?e ?em |}] =>
        change (Bnd (withEntities (queueRemove e) {| heap := h; entities := em |}))
    end.
    apply Bnd_queueRemove. close_bnd.
  - by apply Bnd_queueRemove.
Qed.

Lemma Bnd_breed this x y s : Bnd s → Bnd (Spawners.breed this x y s).
Proof.
  intros HB. unfold Spawners.breed.
  destruct (heap s !! this) as [parent|]; [|done].
  destruct (speciesDef parent) as [def|]; [|done].
  destruct (Spawners.canSpawn s def) eqn:Hcan; cbn [negb]; [|done].
  open_bnd. close_bnd.
Qed.

Lemma queue_fold_entities (l : list nat) s :
  let s' := fold_left (λ s a, withEntities (queueRemove a) s) l s in
  pools (entities s') = pools (entities s)
  ∧ waterPollution (entities s') = waterPollution (entities s)
  ∧ grids (entities s') = grids (entities s).
Proof.
  revert s. induction l as [|a l IH]; intros s; cbn [fold_left]; [done|].
  destruct (IH (withEntities (queueRemove a) s)) as (-> & -> & ->).
  cbn [withEntities entities].
  by rewrite queueRemove_pools, queueRemove_waterPollution, queueRemove_grids.
Qed.

Lemma Bnd_onElixirOpened s : Bnd s → Bnd (Spawners._onElixirOpened s).
Proof.
  intros (Hi & Hw & Hg). unfold Spawners._onElixirOpened.
  match goal with
  | |- context [fold_left ?f ?l s] =>
      destruct (queue_fold_entities l s) as (Hp1 & Hw1 & Hg1); cbv zeta in Hp1, Hw1, Hg1
  end.
  unfold Bounds.bounded.
  cbn [withEntities entities pools waterPollution grids setWaterPollution].
  rewrite Hp1, Hw1, Hg1. split; [done|]. split; [|done].
  split; [apply Q.le_max_l|]. apply Q.max_lub; [by vm_compute | lra].
Qed.

Lemma remove_islands_length h entity em :
  (length (pools (remove h entity em) islands) ≤ length (pools em islands))%nat.
Proof.
  destruct (remove_cases h entity em) as [[_ ->]|(k & _ & ->)]; [done|].
  rewrite removeAt_pools. destruct (decide _) as [<-|]; [|done].
  unfold spliceOut. destruct (indexOf _ _) as [i|] eqn:E; [|done].
  rewrite length_delete; [lia|]. apply indexOf_Some in E. eauto.
Qed.

Lemma removals_bounds h q em :
  let em' := fold_left (λ em e, remove h e em) q em in
  (length (pools em' islands) ≤ length (pools em islands))%nat
  ∧ waterPollution em' = waterPollution em
  ∧ ∀ gk, SpatialGrid.cellSize (grids em' gk) = SpatialGrid.cellSize (grids em gk).
Proof.
  revert em. induction q as [|a q IH]; intros em; cbn [fold_left]; [done|].
  destruct (IH (remove h a em)) as (Hl & Hw & Hg). cbv zeta.
  split; [|split].
  - etrans; [exact Hl | apply remove_islands_length].
  - rewrite Hw. destruct (remove_cases h a em) as [[_ ->]|(k & _ & ->)]; [done|].
    by destruct (removeAt_scalars h a k em) as (_ & ? & _).
  - intros gk. rewrite Hg. apply remove_cellSize.
Qed.

Lemma Bnd_flush s : Bnd s → Bnd (withEntities (flushRemovals (heap s)) s).
Proof.
  intros HB. destruct (removals_bounds (heap s) (_removeQueue (entities s)) (entities s))
    as (Hl & Hw & Hg).
  by apply (Bnd_frame s).
Qed.

Lemma Bnd_updateGrid entity oldX oldY gridKey s :
  Bnd s → Bnd (withEntities (updateGrid (heap s) entity oldX oldY gridKey) s).
Proof.
  intros HB. apply (Bnd_frame s); [done|done|done|].
  intros gk. cbn [withEntities entities updateGrid grids setGridOf].
  destruct (decide _) as [->|]; [apply cellSize_update | done].
Qed.

Lemma Bnd_pollution isPaused dt s : Bnd s → Bnd (PollutionSystem.update isPaused dt s).
Proof.
  intros (Hi & Hw & Hg). destruct isPaused; [done|].
  unfold PollutionSystem.update.
  pose proof (visit_fold_frame dt (PollutionSystem.algaePools s) s 0%Q) as H.
  destruct (fold_left _ _ _) as [s1 delta]. cbn [fst] in H. cbv zeta in H.
  destruct H as (Hp1 & Hw1 & Hg1 & _).
  set (next := Qmax 0 (Qmin 100 (waterPollution (entities s1) + delta))).
  assert (0 <= next <= 100)%Q as Hnext.
  { unfold next. split; [apply Q.le_max_l|].
    apply Q.max_lub; [discriminate | apply Q.le_min_l]. }
  unfold Bounds.bounded.
  destruct (Qltb _ _);
    cbn [withEntities entities pools waterPollution grids setWaterPollution emit];
    rewrite Hp1, Hg1; done.
Qed.

Lemma Bnd_step s s' : step isMobile s s' → Bnd s → Bnd s'.
Proof.
  intros Hstep HB. destruct Hstep.
  - unfold Spawners.addBird. gate_bnd. open_bnd. close_bnd.
  - by apply Bnd_spawnFish.
  - by apply Bnd_spawnFish.
  - by apply Bnd_spawnFish.
  - by apply Bnd_addPredator.
  - unfold Spawners.spawnSeaCreature. gate_bnd. open_bnd. close_bnd.
  - by apply Bnd_addSeaCreature.
  - unfold Spawners.addFood. gate_bnd. open_bnd. close_bnd.
  - by apply Bnd_addFoodAt.
  - unfold Spawners.spawnBabyShrimp. gate_bnd. open_bnd. close_bnd.
  - unfold Spawners.addBabyShrimp, Spawners.spawnBabyShrimp. gate_bnd. open_bnd. close_bnd.
  - by apply Bnd_addAlgae.
  - unfold Spawners.addKelp. gate_bnd. open_bnd. close_bnd.
  - unfold Spawners.addSeagrass. gate_bnd. open_bnd. close_bnd.
  - by apply Bnd_addIsland.
  - unfold Spawners.createEgg. open_bnd. close_bnd.
  - unfold Spawners.addElixir. open_bnd. close_bnd.
  - by apply Bnd_hatch.
  - by apply Bnd_breed.
  - by apply Bnd_onElixirOpened.
  - by apply Bnd_queueRemove.
  - by apply Bnd_flush.
  - by apply Bnd_updateGrid.
  - by apply Bnd_pollution.
  - by apply (Bnd_frame s).
Qed.

End BoundSteps.

(** X24. In every state the game can reach there are at most eight
    islands (the bound [addIsland] checks before it builds one; nothing else
    adds to the island pool), pollution is a percentage (between 0 and 100:
    the pollution phase clamps it and the elixir only lowers it, never below
    zero), and every spatial grid still has the positive cell size 150 the
    registry was built with, as the grid queries require. *)
Theorem reachable_state_bounds (isMobile : bool) (s : Game) :
  Simulation.reachable isMobile s →
  (length (EntityManager.pools (entities s) islands) ≤ 8)%nat
  ∧ (0 <= EntityManager.waterPollution (entities s) <= 100)%Q
  ∧ ∀ gk, SpatialGrid.cellSize (EntityManager.grids (entities s) gk) = 150%Q.
Proof.
  intros H. change (Bounds.bounded s). revert s H. unfold Simulation.reachable.
  apply (rtc_ind_r (λ s, Bounds.bounded s) Simulation.initial).
  - apply Bnd_initial.
  - intros s s' _ Hstep HB. by apply (Bnd_step isMobile s).
Qed.

Lemma reachable_state_bounds_witness :
  let s := Spawners._onElixirOpened
             (PollutionSystem.update false 1
                (Spawners.addAlgae false (Some "toxic") true 10 300
                   (Spawners.addIsland true 100 100 Simulation.initial).1).1) in
  (length (EntityManager.pools (entities s) islands) ≤ 8)%nat
  ∧ (0 <= EntityManager.waterPollution (entities s) <= 100)%Q
  ∧ ∀ gk, SpatialGrid.cellSize (EntityManager.grids (entities s) gk) = 150%Q.
Proof.
  apply (reachable_state_bounds false).
  eapply rtc_r; [|apply Simulation.step_onElixirOpened].
  eapply rtc_r; [|apply Simulation.step_pollution].
  eapply rtc_r; [|apply Simulation.step_addAlgae].
  eapply rtc_r; [apply rtc_refl | apply Simulation.step_addIsland].
Defined.

(** ** The pollution phase: what it adds, what it publishes, how algae age *)

Section PollutionMore.

Import PollutionSystem PollutionNotions.

Lemma rateOf_ext h h' a :
  speciesDef <$> (h' !! a) = speciesDef <$> (h !! a) → rateOf h' a = rateOf h a.
Proof.
  unfold rateOf. destruct (h' !! a), (h !! a); simpl; intros [=]; [|done].
  by rewrite H0.
Qed.

(** The rate the tick reads is the rate of the entity's descriptor. *)
Lemma rate_rateOf h a : rate h a = default 0%Q (rateOf h a).
Proof.
  unfold rate, rateOf. destruct (h !! a) as [e|]; [|done].
  by destruct (speciesDef e).
Qed.

Lemma totalRate_ext h h' l :
  (∀ a, speciesDef <$> (h' !! a) = speciesDef <$> (h !! a)) →
  totalRate h' l = totalRate h l.
Proof.
  intros H. induction l as [|a l IH]; [done|].
  cbn [totalRate fold_right]. fold (totalRate h' l). fold (totalRate h l).
  by rewrite IH, !rate_rateOf, (rateOf_ext h h').
Qed.

Lemma visit_heap dt s delta a :
  heap (visit dt (s, delta) a).1 = tickLifetime dt a (heap s)
  ∧ (visit dt (s, delta) a).2
    = match rateOf (heap s) a with
      | Some r => (delta + r * dt)%Q
      | None => delta
      end
  ∧ EntityManager.published (entities (visit dt (s, delta) a).1)
    = EntityManager.published (entities s).
Proof.
  unfold visit. cbn [withHeap heap entities].
  rewrite (rateOf_ext (heap s) (tickLifetime dt a (heap s)))
    by apply tickLifetime_species.
  destruct (expired _ _); cbn [fst snd withEntities heap entities];
    rewrite ?queueRemove_published; done.
Qed.

Lemma visit_fold_delta dt l s delta :
  let r := fold_left (visit dt) l (s, delta) in
  (r.2 == delta + totalRate (heap s) l * dt)%Q
  ∧ EntityManager.published (entities r.1) = EntityManager.published (entities s).
Proof.
  revert s delta. induction l as [|a l IH]; intros s delta; cbn [fold_left].
  - cbn [fst snd totalRate fold_right]. split; [ring|done].
  - destruct (visit_heap dt s delta a) as (Hh & Hd & Hp).
    destruct (visit dt (s, delta) a) as [s1 d1]. cbn [fst snd] in Hh, Hd, Hp.
    specialize (IH s1 d1). cbv zeta in IH. destruct IH as [IHd IHp].
    cbv zeta. split; [|by rewrite IHp].
    rewrite IHd, Hd, Hh.
    rewrite (totalRate_ext (heap s) (tickLifetime dt a (heap s)))
      by (intros b; apply tickLifetime_species).
    cbn [totalRate fold_right]. fold (totalRate (heap s) l).
    rewrite rate_rateOf. destruct (rateOf (heap s) a); cbv [default from_option id]; ring.
Qed.

Lemma tickLifetime_same dt a h e :
  h !! a = Some e → tickLifetime dt a h !! a = Some (aged dt e).
Proof.
  intros He. unfold tickLifetime. rewrite He, lookup_insert_eq.
  unfold aged. by destruct (lifetime e).
Qed.

End PollutionMore.

(** X25. One tick of the pollution phase moves pollution by the sum of the
    pollution rates of the descriptors of the entries of the pools [algae],
    [seagrass] and [kelp], times [dt], clamped to [0, 100]; it publishes the
    new value on the bus exactly when the value moved by more than 0.01, and
    publishes nothing else. *)
Theorem pollution_update_adds_rates (dt : Q) (s : Game) :
  let s' := PollutionSystem.update false dt s in
  let prev := EntityManager.waterPollution (entities s) in
  let next := EntityManager.waterPollution (entities s') in
  let contributors := EntityManager.pools (entities s) algae
                        ++ EntityManager.pools (entities s) seagrass
                        ++ EntityManager.pools (entities s) kelp in
  (next == Qmax 0 (Qmin 100
             (prev + PollutionNotions.totalRate (heap s) contributors * dt)))%Q
  ∧ EntityManager.published (entities s')
    = EntityManager.published (entities s)
      ++ (if Qltb (1 # 100) (Qabs (next - prev)) then [POLLUTION_CHANGED next] else []).
Proof.
  cbv zeta.
  change (EntityManager.pools (entities s) algae
            ++ EntityManager.pools (entities s) seagrass
            ++ EntityManager.pools (entities s) kelp)
    with (PollutionSystem.algaePools s).
  unfold PollutionSystem.update.
  pose proof (visit_fold_delta dt (PollutionSystem.algaePools s) s 0%Q) as [Hd Hp].
  pose proof (visit_fold_frame dt (PollutionSystem.algaePools s) s 0%Q) as (_ & Hw & _).
  destruct (fold_left _ _ _) as [s1 delta]. cbn [fst snd] in Hd, Hp, Hw.
  rewrite Hw.
  set (prev := EntityManager.waterPollution (entities s)) in *.
  set (next := Qmax 0 (Qmin 100 (prev + delta))).
  assert (next == Qmax 0 (Qmin 100
            (prev + PollutionNotions.totalRate (heap s) (PollutionSystem.algaePools s) * dt)))%Q
    as Hnext.
  { unfold next. apply Q.max_compat; [reflexivity|].
    apply Q.min_compat; [reflexivity|]. rewrite Hd. ring. }
  destruct (Qltb _ _) eqn:Hq;
    cbn [withEntities entities EntityManager.waterPollution EntityManager.published
         EntityManager.setWaterPollution EntityManager.emit];
    fold next; rewrite Hq, Hp; split; try done. by rewrite app_nil_r.
Qed.

(** X26. One tick of the pollution phase takes [dt] off the lifetime of
    every entry of the pools [algae], [seagrass] and [kelp] (once each,
    where no entity is listed twice over the three), changes no other field
    of them, and leaves every object that is in none of the three pools as
    it was. *)
Theorem pollution_update_ages_algae (dt : Q) (s : Game) :
  NoDup (EntityManager.pools (entities s) algae
           ++ EntityManager.pools (entities s) seagrass
           ++ EntityManager.pools (entities s) kelp) →
  let s' := PollutionSystem.update false dt s in
  (∀ a e,
     a ∈ EntityManager.pools (entities s) algae
     ∨ a ∈ EntityManager.pools (entities s) seagrass
     ∨ a ∈ EntityManager.pools (entities s) kelp →
     heap s !! a = Some e →
     heap s' !! a = Some (PollutionNotions.aged dt e))
  ∧ (∀ b,
       b ∉ EntityManager.pools (entities s) algae →
       b ∉ EntityManager.pools (entities s) seagrass →
       b ∉ EntityManager.pools (entities s) kelp →
       heap s' !! b = heap s !! b).
Proof.
  intros Hnd. cbv zeta.
  change (EntityManager.pools (entities s) algae
            ++ EntityManager.pools (entities s) seagrass
            ++ EntityManager.pools (entities s) kelp)
    with (PollutionSystem.algaePools s) in Hnd.
  assert (∀ l st delta, NoDup l →
            let s1 := (fold_left (PollutionSystem.visit dt) l (st, delta)).1 in
            (∀ a e, a ∈ l → heap st !! a = Some e →
                    heap s1 !! a = Some (PollutionNotions.aged dt e))
            ∧ (∀ b, b ∉ l → heap s1 !! b = heap st !! b)) as Hfold.
  { intros l. induction l as [|a l IH]; intros st delta Hl; cbn [fold_left].
    - split; [|done]. intros a e Ha. by apply elem_of_nil in Ha.
    - apply NoDup_cons in Hl as [Hal Hl].
      destruct (visit_heap dt st delta a) as (Hh & _ & _).
      destruct (PollutionSystem.visit dt (st, delta) a) as [s1 d1]. cbn [fst] in Hh.
      destruct (IH s1 d1 Hl) as [IHin IHout]. cbv zeta in IHin, IHout |- *.
      split.
      + intros b e [->|Hb]%elem_of_cons He.
        * rewrite IHout by done. rewrite Hh. by apply tickLifetime_same.
        * apply IHin; [done|]. rewrite Hh, tickLifetime_other; [done|].
          intros ->. done.
      + intros b [Hba Hbl]%not_elem_of_cons. rewrite IHout by done.
        rewrite Hh. by apply tickLifetime_other. }
  specialize (Hfold (PollutionSystem.algaePools s) s 0%Q Hnd). cbv zeta in Hfold.
  destruct Hfold as [Hin Hout].
  assert (∀ a e, a ∈ PollutionSystem.algaePools s → heap s !! a = Some e →
                 heap (PollutionSystem.update false dt s) !! a
                 = Some (PollutionNotions.aged dt e)) as Hin'.
  { unfold PollutionSystem.update.
    destruct (fold_left _ _ _) as [s1 delta]. cbn [fst] in Hin.
    destruct (Qltb _ _); exact Hin. }
  assert (∀ b, b ∉ PollutionSystem.algaePools s →
               heap (PollutionSystem.update false dt s) !! b = heap s !! b) as Hout'.
  { unfold PollutionSystem.update.
    destruct (fold_left _ _ _) as [s1 delta]. cbn [fst] in Hout.
    destruct (Qltb _ _); exact Hout. }
  split.
  - intros a e Ha. apply Hin'. by apply algaePools_elem_of.
  - intros b Hb1 Hb2 Hb3. apply Hout'. rewrite algaePools_elem_of. tauto.
Qed.

Lemma pollution_update_ages_algae_witness :
  let s := (Spawners.addKelp false 10 300
              (Spawners.addAlgae false (Some "toxic") true 10 300
                 Simulation.initial).1).1 in
  let s' := PollutionSystem.update false 1 s in
  (∀ a e,
     a ∈ EntityManager.pools (entities s) algae
     ∨ a ∈ EntityManager.pools (entities s) seagrass
     ∨ a ∈ EntityManager.pools (entities s) kelp →
     heap s !! a = Some e →
     heap s' !! a = Some (PollutionNotions.aged 1 e))
  ∧ (∀ b,
       b ∉ EntityManager.pools (entities s) algae →
       b ∉ EntityManager.pools (entities s) seagrass →
       b ∉ EntityManager.pools (entities s) kelp →
       heap s' !! b = heap s !! b).
Proof.
  apply (pollution_update_ages_algae 1
           (Spawners.addKelp false 10 300
              (Spawners.addAlgae false (Some "toxic") true 10 300
                 Simulation.initial).1).1).
  apply (bool_decide_unpack _). by vm_compute.
Defined.

(** ** Spawners: the egg, the elixir, the growing shrimp *)

Section SpawnMore.

Import EntityManager Registry.

Lemma queue_fold_queueAll (l : list nat) (s : Game) :
  fold_left (λ s a, withEntities (queueRemove a) s) l s = withEntities (queueAll l) s.
Proof.
  revert s. induction l as [|a l IH]; intros s; cbn [fold_left].
  - by destruct s.
  - by rewrite IH.
Qed.

Lemma poolOcc_ge entity em key : (occ entity (pools em key) ≤ poolOcc entity em)%nat.
Proof.
  unfold poolOcc. pose proof (removalPools_all key) as Hin.
  induction removalPools as [|a l IH]; [by apply elem_of_nil in Hin|].
  simpl. apply elem_of_cons in Hin as [->|Hin]; [lia|]. specialize (IH Hin). lia.
Qed.

(** Changing the descriptor of one object moves a count by the number of
    entries that reference the object. *)
Lemma matching_update_one h h' def this (arr : list nat) :
  (∀ o, o ≠ this → speciesDef <$> (h' !! o) = speciesDef <$> (h !! o)) →
  (matching h' def arr + (if sameSpecies h def this then occ this arr else 0)
   = matching h def arr + (if sameSpecies h' def this then occ this arr else 0))%nat.
Proof.
  intros Hoth. induction arr as [|a arr IH].
  - rewrite occ_nil. destruct (sameSpecies h def this), (sameSpecies h' def this); done.
  - rewrite !matching_cons, occ_cons. destruct (decide (a = this)) as [->|Hne].
    + destruct (sameSpecies h def this), (sameSpecies h' def this); lia.
    + rewrite (sameSpecies_ext h h' def a) by (by apply Hoth).
      destruct (sameSpecies h def this), (sameSpecies h' def this); lia.
Qed.

Lemma growUp_other isMobile this h o :
  o ≠ this →
  speciesDef <$> (Spawners.growUp isMobile this h !! o) = speciesDef <$> (h !! o).
Proof.
  intros Hne. unfold Spawners.growUp. destruct (h !! this) as [e|]; [|done].
  destruct (speciesDef e) as [d|]; [|done]. destruct (isBaby d); [|done].
  by rewrite lookup_insert_ne.
Qed.

Lemma liveCount_update_one h h' em def this key :
  (∀ o, o ≠ this → speciesDef <$> (h' !! o) = speciesDef <$> (h !! o)) →
  this ∈ pools em key → key ≠ islands → (poolOcc this em ≤ 1)%nat →
  (liveCount h' em def + (if sameSpecies h def this then 1 else 0)
   = liveCount h em def + (if sameSpecies h' def this then 1 else 0))%Z.
Proof.
  intros Hoth Hin Hkey Hocc. rewrite !liveCount_sum.
  pose proof (sum_update scanned (λ k, matching h def (pools em k))
                (λ k, matching h' def (pools em k)) key scanned_NoDup) as H.
  cbv beta in H. specialize (H ltac:(by apply scanned_elem_of)).
  assert (∀ k, k ≠ key → matching h' def (pools em k) = matching h def (pools em k)) as Hk.
  { intros k Hne. apply matching_ext. intros e He. apply Hoth. intros ->.
    apply Hne. by apply (poolOcc_unique this em). }
  specialize (H Hk).
  pose proof (matching_update_one h h' def this (pools em key) Hoth) as Hm.
  assert (occ this (pools em key) = 1%nat) as Hone.
  { pose proof (poolOcc_ge this em key).
    assert (occ this (pools em key) ≠ 0%nat) by (rewrite occ_zero; tauto). lia. }
  rewrite Hone in Hm.
  destruct (sameSpecies h def this), (sameSpecies h' def this); lia.
Qed.

End SpawnMore.

(** X27. The hatching of an egg always queues the egg for removal, whether
    or not a duck could be spawned.  It adds at most one entity, a mallard
    at the egg's position appended to the duck pool, and only while the
    mallard cap has room; no other pool changes. *)
Theorem hatch_consumes_egg (isMobile : bool) (egg : nat) (s : Game) :
  let s' := Spawners.hatch isMobile egg s in
  let duck := fresh (dom (heap s)) in
  egg ∈ EntityManager._removeQueue (entities s')
  ∧ (∀ key, EntityManager.pools (entities s') key
            = if decide (key = ducks)
              then EntityManager.pools (entities s) ducks
                   ++ (if Spawners.canSpawn s (SPECIES.MALLARD isMobile)
                       then [duck] else [])
              else EntityManager.pools (entities s) key)
  ∧ (if Spawners.canSpawn s (SPECIES.MALLARD isMobile)
     then heap s' = <[duck := Spawners.BaseEntity
                               (EntityManager.counters (entities s) nextDuckId)
                               (objx (heap s) egg) (objy (heap s) egg)
                               (SPECIES.MALLARD isMobile)]> (heap s)
          ∧ heap s !! duck = None
     else heap s' = heap s).
Proof.
  cbv zeta. unfold Spawners.hatch.
  destruct (Spawners.canSpawn s (SPECIES.MALLARD isMobile)); cbn [negb].
  - unfold Spawners.construct, Spawners.register, withEntities.
    cbn [fst snd heap entities].
    split; [apply queueRemove_elem_of|]. split.
    + intros key. rewrite queueRemove_pools, add_pools.
      destruct (decide (key = ducks)) as [->|]; done.
    + split; [done | apply fresh_not_in_heap].
  - cbn [withEntities heap entities].
    split; [apply queueRemove_elem_of|]. split; [|done].
    intros key. rewrite queueRemove_pools.
    destruct (decide (key = ducks)) as [->|]; [by rewrite app_nil_r | done].
Qed.

(** X28. Opening an elixir lowers pollution by 40, not below zero, and
    queues for removal exactly the toxic algae of the algae pool besides
    what was queued already; the pools and the store are left as they are
    until the flush. *)
Theorem elixir_purifies (s : Game) :
  (∀ a, a ∈ EntityManager.pools (entities s) algae →
        ∃ e d, heap s !! a = Some e ∧ speciesDef e = Some d) →
  let s' := Spawners._onElixirOpened s in
  EntityManager.waterPollution (entities s')
  = Qmax 0 (EntityManager.waterPollution (entities s) - 40)
  ∧ (∀ key, EntityManager.pools (entities s') key = EntityManager.pools (entities s) key)
  ∧ heap s' = heap s
  ∧ (∀ a, a ∈ EntityManager._removeQueue (entities s')
          ↔ a ∈ EntityManager._removeQueue (entities s)
            ∨ (a ∈ EntityManager.pools (entities s) algae
               ∧ ∃ e d, heap s !! a = Some e ∧ speciesDef e = Some d ∧ toxic d = true))
  ∧ (NoDup (EntityManager._removeQueue (entities s)) →
     NoDup (EntityManager._removeQueue (entities s'))).
Proof.
  intros _. cbv zeta. unfold Spawners._onElixirOpened. rewrite queue_fold_queueAll.
  set (l := filter _ _).
  cbn [withEntities heap entities EntityManager.waterPollution EntityManager.pools
       EntityManager._removeQueue EntityManager.setWaterPollution].
  rewrite queueAll_pools.
  assert (EntityManager.waterPollution (Registry.queueAll l (entities s))
          = EntityManager.waterPollution (entities s)) as ->.
  { generalize (entities s). induction l as [|a l IH]; intros em; [done|].
    unfold Registry.queueAll in *. simpl. by rewrite IH, queueRemove_waterPollution. }
  split; [done|]. split; [done|]. split; [done|]. split; [|apply queueAll_NoDup].
  assert (∀ a, a ∈ l ↔ a ∈ EntityManager.pools (entities s) algae
                        ∧ ∃ e d, heap s !! a = Some e ∧ speciesDef e = Some d
                                 ∧ toxic d = true) as Hl.
  { intros a. unfold l. rewrite list_elem_of_filter. split.
    - intros [Ht Hin]. split; [done|]. cbv beta in Ht.
      destruct (heap s !! a) as [e|]; [|done].
      destruct (speciesDef e) as [d|] eqn:Hd; [|done].
      exists e, d. done.
    - intros [Hin (e & d & He & Hd & Ht)]. split; [|done]. cbv beta.
      by rewrite He, Hd. }
  intros a. rewrite <- Hl. split.
  - intros H%queueAll_elem_of_inv. tauto.
  - intros [H|H]; [by apply queueAll_mono | by apply queueAll_elem_of].
Qed.

Lemma elixir_purifies_witness :
  let s := (Spawners.addAlgae false (Some "toxic") true 10 300 Simulation.initial).1 in
  let s' := Spawners._onElixirOpened s in
  EntityManager.waterPollution (entities s')
  = Qmax 0 (EntityManager.waterPollution (entities s) - 40)
  ∧ (∀ key, EntityManager.pools (entities s') key = EntityManager.pools (entities s) key)
  ∧ heap s' = heap s
  ∧ (∀ a, a ∈ EntityManager._removeQueue (entities s')
          ↔ a ∈ EntityManager._removeQueue (entities s)
            ∨ (a ∈ EntityManager.pools (entities s) algae
               ∧ ∃ e d, heap s !! a = Some e ∧ speciesDef e = Some d ∧ toxic d = true))
  ∧ (NoDup (EntityManager._removeQueue (entities s)) →
     NoDup (EntityManager._removeQueue (entities s'))).
Proof.
  apply (elixir_purifies
           (Spawners.addAlgae false (Some "toxic") true 10 300 Simulation.initial).1).
  intros a Ha.
  assert (a = 0%nat) as ->.
  { change (a ∈ [0%nat]) in Ha. by apply list_elem_of_singleton in Ha. }
  eexists _, _. split; reflexivity.
Defined.

(** X29. The growing up of a baby shrimp is not gated by the cap: it moves
    one entity from the count of its species to the count of adult shrimp,
    whatever that count was, so that a population at the cap ends above
    it. *)
Theorem growUp_bypasses_cap (isMobile : bool) (h : gmap nat Entity)
    (em : EntityManager.t) (this : nat) (e : Entity) (def : SpeciesDef)
    (key : PoolKey) :
  h !! this = Some e → speciesDef e = Some def → isBaby def = true →
  def_id def ≠ def_id (SPECIES.SHRIMP isMobile) →
  this ∈ EntityManager.pools em key → key ≠ islands →
  (Registry.poolOcc this em ≤ 1)%nat →
  let h' := Spawners.growUp isMobile this h in
  EntityManager.countSpecies h' em (SPECIES.SHRIMP isMobile)
  = (EntityManager.countSpecies h em (SPECIES.SHRIMP isMobile) + 1)%Z
  ∧ EntityManager.countSpecies h' em def
    = (EntityManager.countSpecies h em def - 1)%Z
  ∧ (EntityManager.canSpawn h em (SPECIES.SHRIMP isMobile) = false →
     (MAX_COUNT (SPECIES.SHRIMP isMobile)
      < EntityManager.countSpecies h' em (SPECIES.SHRIMP isMobile))%Z).
Proof.
  intros Hl Hd Hb Hid Hin Hkey Hocc. cbv zeta.
  set (h' := Spawners.growUp isMobile this h).
  assert (∀ o, o ≠ this → speciesDef <$> (h' !! o) = speciesDef <$> (h !! o)) as Hoth.
  { intros o Ho. by apply growUp_other. }
  assert (h' !! this = Some {| e_id := e_id e; e_x := e_x e; e_y := e_y e;
                               speciesDef := Some (SPECIES.SHRIMP isMobile);
                               lifetime := lifetime e; dead := dead e |}) as Hl'.
  { unfold h', Spawners.growUp. rewrite Hl, Hd, Hb. apply lookup_insert_eq. }
  pose proof (liveCount_update_one h h' em (SPECIES.SHRIMP isMobile) this key
                Hoth Hin Hkey Hocc) as H1.
  pose proof (liveCount_update_one h h' em def this key Hoth Hin Hkey Hocc) as H2.
  unfold EntityManager.sameSpecies in H1, H2. rewrite Hl, Hl', Hd in H1, H2.
  cbn [speciesDef] in H1, H2.
  rewrite bool_decide_eq_false_2 in H1 by done.
  rewrite bool_decide_eq_true_2 in H1 by done.
  rewrite bool_decide_eq_true_2 in H2 by done.
  rewrite bool_decide_eq_false_2 in H2 by (intros Heq; by apply Hid).
  rewrite !countSpecies_liveCount.
  split; [lia|]. split; [lia|].
  unfold EntityManager.canSpawn. intros Hcan%bool_decide_eq_false.
  rewrite countSpecies_liveCount in Hcan. lia.
Qed.

Lemma growUp_bypasses_cap_witness :
  let h := heap Scenario.withBaby in
  let em := entities Scenario.withBaby in
  let h' := Spawners.growUp true 20 h in
  EntityManager.countSpecies h' em (SPECIES.SHRIMP true)
  = (EntityManager.countSpecies h em (SPECIES.SHRIMP true) + 1)%Z
  ∧ EntityManager.countSpecies h' em (SPECIES.SHRIMP_B true)
    = (EntityManager.countSpecies h em (SPECIES.SHRIMP_B true) - 1)%Z
  ∧ (EntityManager.canSpawn h em (SPECIES.SHRIMP true) = false →
     (MAX_COUNT (SPECIES.SHRIMP true)
      < EntityManager.countSpecies h' em (SPECIES.SHRIMP true))%Z).
Proof.
  apply (growUp_bypasses_cap true (heap Scenario.withBaby) (entities Scenario.withBaby)
           20 (Spawners.PreyEntity 21 10 (Qmax (100 + 10) 300) (SPECIES.SHRIMP_B true))
           (SPECIES.SHRIMP_B true) food).
  - by vm_compute.
  - reflexivity.
  - reflexivity.
  - by vm_compute.
  - apply (bool_decide_unpack _). by vm_compute.
  - discriminate.
  - vm_compute. lia.
Defined.

(** ** The reproduction system: the fish loop *)

